(** * nodejs-mobile-react-native: the bridge layer

    A shallow embedding of the message codec ([src/MessageCodec.ts], mirrored in
    [rn-bridge/index.js]), of the two channel implementations (the host side
    [EventChannel] of [src/RNNodeJsMobileModule.ts] and the embedded side
    [rn-bridge/index.js]), of the Android host module (readiness flag and
    lifecycle handlers) and of the JNI attachment cache of [native-lib.cpp],
    followed by the properties of the specification.  Numbers are the
    binary64 values of JavaScript, printed and read as [JSON.stringify] and
    [JSON.parse] print and read them.  The start of the runtime with its
    coroutines, the block of its arguments and the copy of the project are
    embedded too, with more properties of the code at the end. *)

From Stdlib Require Import ZArith NArith List Bool Ascii String Lia.
From Stdlib Require Import Decimal DecimalN DecimalString.
Import ListNotations.
Open Scope string_scope.
Open Scope Z_scope.

(** ** JavaScript values and completions *)

Module JS.

(** *** Numbers

    A Number is an IEEE 754 binary64 value: not-a-number, one of the two
    infinities, or [m * 2^e] with its sign.  Each finite value has one
    canonical form: the significand is below [2^53]; it is at least [2^52]
    (normal numbers, with the exponent between -1074 and 971), or the exponent
    is -1074 (subnormal numbers and the two zeros). *)
Inductive number : Type :=
| NaN
| Infinity (negative : bool)
| Finite (negative : bool) (m e : Z).

Definition canonical (x : number) : bool :=
  match x with
  | Finite _ m e =>
      (0 <=? m) && (m <? 2 ^ 53) && (-1074 <=? e) && (e <=? 971)
      && ((2 ^ 52 <=? m) || (e =? -1074))
  | NaN | Infinity _ => true
  end.

Definition is_finite (x : number) : bool :=
  match x with Finite _ _ _ => true | NaN | Infinity _ => false end.

Definition is_zero (x : number) : bool :=
  match x with Finite _ m _ => m =? 0 | NaN | Infinity _ => false end.

Definition is_negative (x : number) : bool :=
  match x with Finite s _ _ | Infinity s => s | NaN => false end.

Definition number_eqb (x y : number) : bool :=
  match x, y with
  | NaN, NaN => true
  | Infinity a, Infinity b => Bool.eqb a b
  | Finite a m e, Finite b m' e' => Bool.eqb a b && (m =? m') && (e =? e')
  | _, _ => false
  end.

(** The binary64 value nearest to the rational [p / q], where [0 <= p] and
    [0 < q], as significand and exponent: the one with the even significand
    when two are equally near, and none where the value rounds to [2^1024] or
    more.  The quotient is taken in units of [2^-k], with 55 bits at least,
    more than a significand holds, so that what is cut off decides the
    rounding; what the division leaves over only breaks a tie. *)
Definition nearest_magnitude (p q : Z) : option (Z * Z) :=
  if p =? 0 then Some (0, -1074)
  else
    let k := Z.max 0 (Z.log2 q - Z.log2 p + 56) in
    let units := p * 2 ^ k / q in
    let inexact := negb (p * 2 ^ k mod q =? 0) in
    let e := Z.max (Z.log2 units - 52) (k - 1074) in
    let m := units / 2 ^ e in
    let low := units mod 2 ^ e in
    let half := 2 ^ (e - 1) in
    let up :=
      if low <? half then false
      else if (low =? half) && negb inexact then Z.odd m
      else true in
    let m := if up then m + 1 else m in
    let e := if m =? 2 ^ 53 then e + 1 else e in
    let m := if m =? 2 ^ 53 then 2 ^ 52 else m in
    if 971 <? e - k then None else Some (m, e - k).

(** The Number value for the rational [p / q] with its sign. *)
Definition nearest (negative : bool) (p q : Z) : number :=
  match nearest_magnitude p q with
  | Some (m, e) => Finite negative m e
  | None => Infinity negative
  end.

(** The Number value for an integer. *)
Definition of_Z (z : Z) : number := nearest (z <? 0) (Z.abs z) 1.

Arguments nearest_magnitude : simpl never.
Arguments nearest : simpl never.
Arguments of_Z : simpl never.

(** *** Values

    The run-time values the codec can meet: plain data, that is, finite trees
    of primitive values, arrays and plain objects (no object is reached from
    itself, and none has a [toJSON] method).  A string is the UTF-8 text of a
    well-formed JavaScript string, one [ascii] per byte (the characters the
    code looks at, the bar and the quotation mark and the rest of ASCII, are
    single bytes that occur nowhere else in such a text); an object is the
    list of its own properties in the order the engine enumerates them. *)
#[local] Unset Elimination Schemes.
Inductive value : Type :=
| VUndefined
| VNull
| VBool (b : bool)
| VNumber (n : number)
| VBigInt (n : Z)
| VString (s : string)
| VArray (elems : list value)
| VObject (props : list (string * value)).
#[local] Set Elimination Schemes.

(** What a [throw] carries. [MessageCodecError] is the class of the codec, with
    its optional [originalError]; [ERR_UNHANDLED_ERROR] is the error of the
    emitter of [events] for an [error] event that nobody listens to, with the
    first argument of the event as its [context]. *)
#[local] Unset Elimination Schemes.
Inductive js_error : Type :=
| TypeError (msg : string)
| SyntaxError (msg : string)
| MessageCodecError (message : string) (originalError : option js_error)
| ERR_UNHANDLED_ERROR (context : value).
#[local] Set Elimination Schemes.

(** A call either returns or throws. *)
Inductive completion (A : Type) : Type :=
| Normal (a : A)
| Throw (e : js_error).
Arguments Normal {A} a.
Arguments Throw {A} e.

Definition bind {A B : Type} (c : completion A) (k : A -> completion B) : completion B :=
  match c with
  | Normal a => k a
  | Throw e => Throw e
  end.

Notation "x <- c ;; k" := (bind c (fun x => k))
  (at level 61, c at next level, right associativity).

(** Induction over values that reaches the elements of arrays and the
    property values of objects. *)
Fixpoint value_nested_ind (P : value -> Prop)
    (Hundef : P VUndefined) (Hnull : P VNull)
    (Hbool : forall b, P (VBool b)) (Hnum : forall n, P (VNumber n))
    (Hbig : forall n, P (VBigInt n)) (Hstr : forall s, P (VString s))
    (Harr : forall elems, Forall P elems -> P (VArray elems))
    (Hobj : forall props, Forall (fun kv => P (snd kv)) props -> P (VObject props))
    (v : value) {struct v} : P v :=
  let rec := value_nested_ind P Hundef Hnull Hbool Hnum Hbig Hstr Harr Hobj in
  match v with
  | VUndefined => Hundef
  | VNull => Hnull
  | VBool b => Hbool b
  | VNumber n => Hnum n
  | VBigInt n => Hbig n
  | VString s => Hstr s
  | VArray elems =>
      Harr elems
        ((fix all (l : list value) : Forall P l :=
            match l with
            | [] => Forall_nil P
            | x :: r => Forall_cons x (rec x) (all r)
            end) elems)
  | VObject props =>
      Hobj props
        ((fix all (l : list (string * value)) : Forall (fun kv => P (snd kv)) l :=
            match l with
            | [] => Forall_nil _
            | kv :: r => Forall_cons kv (rec (snd kv)) (all r)
            end) props)
  end.

(** [obj[k]] and [k in obj] on own properties. *)
Fixpoint obj_get (k : string) (props : list (string * value)) : option value :=
  match props with
  | [] => None
  | (k', v) :: r => if String.eqb k k' then Some v else obj_get k r
  end.

(** The array index a property key is, when it is one: a decimal numeral
    without a leading zero, at most 2^32 - 2. *)
Definition array_index (k : string) : option N :=
  match NilEmpty.uint_of_string k with
  | Some u =>
      if uint_eq_dec (unorm u) u
      then if (N.of_uint u <=? 4294967294)%N then Some (N.of_uint u) else None
      else None
  | None => None
  end.

(** The order in which the engine enumerates the own properties of an
    object: the array indices first, ascending, then the other keys as they
    were created.  [before a b]: a property [a] that is there stays in front
    of a new property [b]. *)
Definition before (a b : string) : bool :=
  match array_index a, array_index b with
  | Some i, Some j => (i <? j)%N
  | Some _, None => true
  | None, Some _ => false
  | None, None => true
  end.

(** [obj[k] = v]: an existing property keeps its place and takes the value, a
    new one goes to its place in the order of enumeration. *)
Fixpoint obj_set (k : string) (v : value) (props : list (string * value))
  : list (string * value) :=
  match props with
  | [] => [(k, v)]
  | (k', v') :: r =>
      if String.eqb k k' then (k', v) :: r
      else if before k' k then (k', v') :: obj_set k v r
      else (k, v) :: (k', v') :: r
  end.

Definition typeof (v : value) : string :=
  match v with
  | VUndefined => "undefined"
  | VNull => "object"
  | VBool _ => "boolean"
  | VNumber _ => "number"
  | VBigInt _ => "bigint"
  | VString _ => "string"
  | VArray _ => "object"
  | VObject _ => "object"
  end.

(** [!v] is true on the falsy values. *)
Definition falsy (v : value) : bool :=
  match v with
  | VUndefined | VNull => true
  | VBool b => negb b
  | VNumber NaN => true
  | VNumber n => is_zero n
  | VBigInt n => n =? 0
  | VString s => String.eqb s ""
  | VArray _ | VObject _ => false
  end.

(** [k in v] for an object or an array, for a key that is no array index and
    no inherited property (the codec asks for "event" and "payload"). *)
Definition has_property (k : string) (v : value) : bool :=
  match v with
  | VObject props => match obj_get k props with Some _ => true | None => false end
  | _ => false
  end.

Definition get_property (k : string) (v : value) : value :=
  match v with
  | VObject props => match obj_get k props with Some x => x | None => VUndefined end
  | _ => VUndefined
  end.

End JS.

(** ** JSON text: [JSON.stringify] and [JSON.parse] *)

Module JSON.
Import JS.

(** The two characters of the grammar that a string literal cannot hold
    directly: the quotation mark (code 34) and the reverse solidus (code 92). *)
Definition dquote : ascii := Ascii false true false false false true false false.
Definition backslash : ascii := Ascii false false true true true false true false.

(** Wire text written with apostrophes where the text has quotation marks. *)
Fixpoint wire (s : string) : string :=
  match s with
  | EmptyString => EmptyString
  | String c r => String (if Ascii.eqb c "'" then dquote else c) (wire r)
  end.

(** *** Printing *)

Definition hex_digit (n : N) : ascii :=
  match n with
  | 0%N => "0" | 1%N => "1" | 2%N => "2" | 3%N => "3" | 4%N => "4"
  | 5%N => "5" | 6%N => "6" | 7%N => "7" | 8%N => "8" | 9%N => "9"
  | 10%N => "a" | 11%N => "b" | 12%N => "c" | 13%N => "d" | 14%N => "e"
  | _ => "f"
  end%char.

Definition esc (c : ascii) : string := String backslash (String c EmptyString).

(** The escape of one code unit inside a string literal (QuoteJSONString):
    the quotation mark, the reverse solidus and the control characters are
    escaped, every other code unit is copied. *)
Definition escape_char (c : ascii) : string :=
  let n := N_of_ascii c in
  if (n =? 34)%N then esc dquote
  else if (n =? 92)%N then esc backslash
  else if (n =? 8)%N then esc "b"
  else if (n =? 12)%N then esc "f"
  else if (n =? 10)%N then esc "n"
  else if (n =? 13)%N then esc "r"
  else if (n =? 9)%N then esc "t"
  else if (n <? 32)%N then
    String backslash (String "u" (String "0" (String "0"
      (String (hex_digit (n / 16)) (String (hex_digit (n mod 16)) EmptyString)))))
  else String c EmptyString.

Fixpoint escape (s : string) : string :=
  match s with
  | EmptyString => EmptyString
  | String c r => escape_char c ++ escape r
  end.

Definition quote (s : string) : string :=
  String dquote (escape s ++ String dquote EmptyString).

Fixpoint digits (d : uint) : string :=
  match d with
  | Nil => EmptyString
  | D0 d => String "0" (digits d)
  | D1 d => String "1" (digits d)
  | D2 d => String "2" (digits d)
  | D3 d => String "3" (digits d)
  | D4 d => String "4" (digits d)
  | D5 d => String "5" (digits d)
  | D6 d => String "6" (digits d)
  | D7 d => String "7" (digits d)
  | D8 d => String "8" (digits d)
  | D9 d => String "9" (digits d)
  end.

(** The decimal digits of a natural number. *)
Definition decimal (n : Z) : string := digits (N.to_uint (Z.to_N n)).

Fixpoint zeros (n : nat) : string :=
  match n with
  | O => EmptyString
  | S n' => String "0" (zeros n')
  end.

Fixpoint take (n : nat) (s : string) : string :=
  match n, s with
  | S n', String c r => String c (take n' r)
  | _, _ => EmptyString
  end.

Fixpoint drop (n : nat) (s : string) : string :=
  match n, s with
  | S n', String _ r => drop n' r
  | _, _ => s
  end.

(** [m * 2^e / 10^q] as a fraction of two naturals. *)
Definition over_power_of_ten (m e q : Z) : Z * Z :=
  (m * 2 ^ Z.max 0 e * 10 ^ Z.max 0 (- q), 2 ^ Z.max 0 (- e) * 10 ^ Z.max 0 q).

(** The Number value for [s * 10^q] is [m * 2^e]. *)
Definition reads_as (m e s q : Z) : bool :=
  number_eqb (nearest false (s * 10 ^ Z.max 0 q) (10 ^ Z.max 0 (- q))) (Finite false m e).

(** The [n] of Number::toString for [m * 2^e] (with [0 < m]):
    [10^(n-1) <= m * 2^e < 10^n]. *)
Definition decimal_exponent (m e : Z) : Z :=
  let whole := if 0 <=? e then m * 2 ^ e else m / 2 ^ (- e) in
  if 1 <=? whole then Z.of_nat (String.length (decimal whole))
  else 1 - Z.of_nat (String.length (decimal (2 ^ (- e) / m))).

(** The digits of Number::toString for [m * 2^e]: integers [s] and [q] with
    as few digits in [s] as possible (that is, [q] as large as possible) such
    that the Number value for [s * 10^q] is [m * 2^e]; of two such [s] the
    one nearer to the value, and the even one when they are equally near.
    The search goes down from [q]; it ends at the latest where
    [m * 2^e / 10^q] is an integer, which the fuel reaches. *)
Fixpoint shortest (fuel : nat) (m e q : Z) : Z * Z :=
  let (num, den) := over_power_of_ten m e q in
  let below := num / den in
  let above := below + 1 in
  match fuel with
  | O => (below, q)
  | S fuel' =>
      if reads_as m e below q && reads_as m e above q then
        match 2 * (num mod den) ?= den with
        | Lt => (below, q)
        | Gt => (above, q)
        | Eq => (if Z.even below then below else above, q)
        end
      else if reads_as m e below q then (below, q)
      else if reads_as m e above q then (above, q)
      else shortest fuel' m e (q - 1)
  end.

(** The exponent part of the scientific notation. *)
Definition exponent_part (e : Z) : string :=
  String "e" (String (if e <? 0 then "-"%char else "+"%char) (decimal (Z.abs e))).

(** The text of [s * 10^q] (steps 6 to 10 of Number::toString, with [k]
    the number of digits of [s] and [n = q + k]). *)
Definition notation (s q : Z) : string :=
  let ds := decimal s in
  let k := Z.of_nat (String.length ds) in
  let n := q + k in
  if (k <=? n) && (n <=? 21) then ds ++ zeros (Z.to_nat (n - k))
  else if (0 <? n) && (n <=? 21) then take (Z.to_nat n) ds ++ String "." (drop (Z.to_nat n) ds)
  else if (-6 <? n) && (n <=? 0) then String "0" (String "." (zeros (Z.to_nat (- n)) ++ ds))
  else
    match ds with
    | String c EmptyString => String c (exponent_part (n - 1))
    | String c r => String c (String "." (r ++ exponent_part (n - 1)))
    | EmptyString => EmptyString
    end.

(** Number::toString (in radix 10). *)
Definition number_to_string (x : number) : string :=
  match x with
  | NaN => "NaN"
  | Infinity false => "Infinity"
  | Infinity true => "-Infinity"
  | Finite negative m e =>
      if m =? 0 then "0"
      else
        let n := decimal_exponent m e in
        let (s, q) := shortest (Z.to_nat (n - Z.min 0 e)) m e n in
        if negative then String "-" (notation s q) else notation s q
  end.

Arguments number_to_string : simpl never.

Fixpoint join (sep : string) (l : list string) : string :=
  match l with
  | [] => EmptyString
  | [x] => x
  | x :: r => x ++ sep ++ join sep r
  end.

(** SerializeJSONProperty: [None] is the engine's [undefined] (the value is
    left out of an object and printed as [null] in an array); a number that
    is not finite is printed as [null]; a [VBigInt] throws. *)
Fixpoint SerializeJSONProperty (v : value) : completion (option string) :=
  match v with
  | VUndefined => Normal None
  | VNull => Normal (Some "null")
  | VBool true => Normal (Some "true")
  | VBool false => Normal (Some "false")
  | VNumber n => Normal (Some (if is_finite n then number_to_string n else "null"))
  | VBigInt _ => Throw (TypeError "Do not know how to serialize a BigInt")
  | VString s => Normal (Some (quote s))
  | VArray elems =>
      parts <- (fix items (l : list value) : completion (list string) :=
                  match l with
                  | [] => Normal []
                  | x :: r =>
                      o <- SerializeJSONProperty x ;;
                      rest <- items r ;;
                      Normal (match o with Some t => t | None => "null" end :: rest)
                  end) elems ;;
      Normal (Some ("[" ++ join "," parts ++ "]"))
  | VObject props =>
      parts <- (fix members (l : list (string * value)) : completion (list string) :=
                  match l with
                  | [] => Normal []
                  | kv :: r =>
                      o <- SerializeJSONProperty (snd kv) ;;
                      rest <- members r ;;
                      Normal (match o with
                              | Some t => (quote (fst kv) ++ ":" ++ t) :: rest
                              | None => rest
                              end)
                  end) props ;;
      Normal (Some ("{" ++ join "," parts ++ "}"))
  end.

(** [JSON.stringify(v)]: a string, or [undefined]. *)
Definition stringify (v : value) : completion value :=
  o <- SerializeJSONProperty v ;;
  Normal (match o with Some t => VString t | None => VUndefined end).

(** The two loops of [SerializeJSONProperty] by their names (SerializeJSONArray
    and SerializeJSONObject). *)
Definition serialize_items : list value -> completion (list string) :=
  fix items (l : list value) : completion (list string) :=
    match l with
    | [] => Normal []
    | x :: r =>
        o <- SerializeJSONProperty x ;;
        rest <- items r ;;
        Normal (match o with Some t => t | None => "null" end :: rest)
    end.

Definition serialize_members : list (string * value) -> completion (list string) :=
  fix members (l : list (string * value)) : completion (list string) :=
    match l with
    | [] => Normal []
    | kv :: r =>
        o <- SerializeJSONProperty (snd kv) ;;
        rest <- members r ;;
        Normal (match o with
                | Some t => (quote (fst kv) ++ ":" ++ t) :: rest
                | None => rest
                end)
    end.

(** [JSON.stringify] of an object literal: always a string, unless it throws. *)
Definition stringify_object (props : list (string * value)) : completion string :=
  parts <- serialize_members props ;;
  Normal ("{" ++ join "," parts ++ "}").

(** *** Parsing *)

Definition is_ws (c : ascii) : bool :=
  let n := N_of_ascii c in
  ((n =? 32) || (n =? 9) || (n =? 10) || (n =? 13))%N.

Fixpoint skip_ws (s : string) : string :=
  match s with
  | EmptyString => s
  | String c r => if is_ws c then skip_ws r else s
  end.

(** The value of a decimal digit, from its place among the characters. *)
Definition digit_value (c : ascii) : option Z :=
  let code := Z.of_N (N_of_ascii c) in
  if (48 <=? code) && (code <=? 57) then Some (code - 48) else None.

(** The digits in front of [s], and what follows them. *)
Fixpoint scan_digits (s : string) : string * string :=
  match s with
  | EmptyString => (EmptyString, s)
  | String c r =>
      match digit_value c with
      | Some _ => let (d, rest) := scan_digits r in (String c d, rest)
      | None => (EmptyString, s)
      end
  end.

(** The natural number that digits write, after the digits read so far. *)
Fixpoint read_digits (sofar : Z) (d : string) : Z :=
  match d with
  | EmptyString => sofar
  | String c r =>
      read_digits (sofar * 10 + match digit_value c with Some v => v | None => 0 end) r
  end.

Definition natural (d : string) : Z := read_digits 0 d.

(** The integer part: one digit at least, and no zero in front of another
    digit. *)
Definition parse_int (s : string) : option (string * string) :=
  match scan_digits s with
  | (EmptyString, _) => None
  | (String c (String c' d) as i, rest) =>
      if Ascii.eqb c "0" then None else Some (i, rest)
  | (i, rest) => Some (i, rest)
  end.

(** The fraction, when there is one: the point and one digit at least. *)
Definition parse_fraction (s : string) : option (string * string) :=
  match s with
  | String c r =>
      if Ascii.eqb c "." then
        match scan_digits r with
        | (EmptyString, _) => None
        | (f, rest) => Some (f, rest)
        end
      else Some (EmptyString, s)
  | EmptyString => Some (EmptyString, s)
  end.

(** The exponent, when there is one: [e] or [E], a sign or none, and one
    digit at least. *)
Definition parse_exponent (s : string) : option (Z * string) :=
  match s with
  | String c r =>
      if (Ascii.eqb c "e" || Ascii.eqb c "E")%bool then
        let (negative, r') :=
          match r with
          | String sign t =>
              if Ascii.eqb sign "-" then (true, t)
              else if Ascii.eqb sign "+" then (false, t)
              else (false, r)
          | EmptyString => (false, r)
          end in
        match scan_digits r' with
        | (EmptyString, _) => None
        | (x, rest) => Some (if negative then - natural x else natural x, rest)
        end
      else Some (0, s)
  | EmptyString => Some (0, s)
  end.

(** A number without its sign: the Number value for the digits of the
    integer part and of the fraction, times the power of ten that the
    exponent and the length of the fraction give. *)
Definition parse_unsigned (negative : bool) (s : string) : option (value * string) :=
  match parse_int s with
  | None => None
  | Some (i, r1) =>
      match parse_fraction r1 with
      | None => None
      | Some (f, r2) =>
          match parse_exponent r2 with
          | None => None
          | Some (x, r3) =>
              let scale := x - Z.of_nat (String.length f) in
              Some (VNumber (nearest negative (natural (i ++ f) * 10 ^ Z.max 0 scale)
                               (10 ^ Z.max 0 (- scale))),
                    r3)
          end
      end
  end.

Definition parse_number (s : string) : option (value * string) :=
  match s with
  | String c r => if Ascii.eqb c "-" then parse_unsigned true r else parse_unsigned false s
  | EmptyString => None
  end.

Arguments parse_number : simpl never.

Definition hex_value (c : ascii) : option N :=
  let n := N_of_ascii c in
  if ((48 <=? n) && (n <=? 57))%N then Some (n - 48)%N
  else if ((97 <=? n) && (n <=? 102))%N then Some (n - 87)%N
  else if ((65 <=? n) && (n <=? 70))%N then Some (n - 55)%N
  else None.

Definition hex4 (a b c d : ascii) : option N :=
  match hex_value a, hex_value b, hex_value c, hex_value d with
  | Some x, Some y, Some z, Some w => Some (((x * 16 + y) * 16 + z) * 16 + w)%N
  | _, _, _, _ => None
  end.

(** The character a one-letter escape stands for. *)
Definition unescape (e : ascii) : option ascii :=
  if Ascii.eqb e dquote then Some dquote
  else if Ascii.eqb e backslash then Some backslash
  else if Ascii.eqb e "/" then Some "/"%char
  else if Ascii.eqb e "b" then Some (ascii_of_N 8)
  else if Ascii.eqb e "f" then Some (ascii_of_N 12)
  else if Ascii.eqb e "n" then Some (ascii_of_N 10)
  else if Ascii.eqb e "r" then Some (ascii_of_N 13)
  else if Ascii.eqb e "t" then Some (ascii_of_N 9)
  else None.

Definition cons_char (c : ascii) (r : option (string * string)) : option (string * string) :=
  match r with
  | Some (t, rest) => Some (String c t, rest)
  | None => None
  end.

Definition cons_string (t : string) (r : option (string * string)) : option (string * string) :=
  match r with
  | Some (u, rest) => Some (t ++ u, rest)
  | None => None
  end.

(** The UTF-8 bytes of a code point. *)
Definition utf8 (cp : N) : string :=
  if (cp <? 128)%N then String (ascii_of_N cp) EmptyString
  else if (cp <? 2048)%N then
    String (ascii_of_N (192 + cp / 64)) (String (ascii_of_N (128 + cp mod 64)) EmptyString)
  else if (cp <? 65536)%N then
    String (ascii_of_N (224 + cp / 4096))
      (String (ascii_of_N (128 + cp / 64 mod 64))
         (String (ascii_of_N (128 + cp mod 64)) EmptyString))
  else
    String (ascii_of_N (240 + cp / 262144))
      (String (ascii_of_N (128 + cp / 4096 mod 64))
         (String (ascii_of_N (128 + cp / 64 mod 64))
            (String (ascii_of_N (128 + cp mod 64)) EmptyString))).

(** The two halves of a surrogate pair, as code units. *)
Definition is_high_surrogate (n : N) : bool := ((55296 <=? n) && (n <? 56320))%N.
Definition is_low_surrogate (n : N) : bool := ((56320 <=? n) && (n <? 57344))%N.

(** The inside of a string literal, up to and with its closing quotation
    mark.  A raw control character is refused.  A [\u] escape gives the UTF-8
    bytes of its code unit; the escape of a high surrogate with the escape of
    a low surrogate behind it gives the bytes of the code point the two make
    (a surrogate on its own, which no well-formed string holds, is written by
    the same scheme). *)
Fixpoint parse_string_body (s : string) : option (string * string) :=
  match s with
  | EmptyString => None
  | String c r =>
      if Ascii.eqb c dquote then Some (EmptyString, r)
      else if Ascii.eqb c backslash then
        match r with
        | EmptyString => None
        | String e r1 =>
            if Ascii.eqb e "u" then
              match r1 with
              | String h1 (String h2 (String h3 (String h4 r2))) =>
                  match hex4 h1 h2 h3 h4 with
                  | Some n =>
                      let single := cons_string (utf8 n) (parse_string_body r2) in
                      if is_high_surrogate n then
                        match r2 with
                        | String b (String u (String g1 (String g2 (String g3 (String g4 r3))))) =>
                            if (Ascii.eqb b backslash && Ascii.eqb u "u")%bool then
                              match hex4 g1 g2 g3 g4 with
                              | Some low =>
                                  if is_low_surrogate low then
                                    cons_string
                                      (utf8 (65536 + (n - 55296) * 1024 + (low - 56320))%N)
                                      (parse_string_body r3)
                                  else single
                              | None => single
                              end
                            else single
                        | _ => single
                        end
                      else single
                  | None => None
                  end
              | _ => None
              end
            else
              match unescape e with
              | Some d => cons_char d (parse_string_body r1)
              | None => None
              end
        end
      else if (N_of_ascii c <? 32)%N then None
      else cons_char c (parse_string_body r)
  end.

Fixpoint strip_prefix (word s : string) : option string :=
  match word with
  | EmptyString => Some s
  | String a w =>
      match s with
      | String b r => if Ascii.eqb a b then strip_prefix w r else None
      | EmptyString => None
      end
  end.

Definition expect (word : string) (v : value) (s : string) : option (value * string) :=
  match strip_prefix word s with
  | Some rest => Some (v, rest)
  | None => None
  end.

(** The object a list of members builds, one assignment per member: a
    repeated key keeps its place and takes the last value. *)
Definition build_object (members : list (string * value)) : value :=
  VObject (fold_left (fun o kv => obj_set (fst kv) (snd kv) o) members []).

(** The recursive descent over values, array elements and object members; the
    fuel bounds the number of calls. *)
Fixpoint parse_value (fuel : nat) (s : string) {struct fuel} : option (value * string) :=
  match fuel with
  | O => None
  | S fuel' =>
      match skip_ws s with
      | EmptyString => None
      | String c r as s0 =>
          if Ascii.eqb c "n" then expect "null" VNull s0
          else if Ascii.eqb c "t" then expect "true" (VBool true) s0
          else if Ascii.eqb c "f" then expect "false" (VBool false) s0
          else if Ascii.eqb c dquote then
            match parse_string_body r with
            | Some (t, rest) => Some (VString t, rest)
            | None => None
            end
          else if Ascii.eqb c "[" then
            match skip_ws r with
            | String c1 r1 as s1 =>
                if Ascii.eqb c1 "]" then Some (VArray [], r1)
                else
                  match parse_elements fuel' s1 with
                  | Some (l, rest) => Some (VArray l, rest)
                  | None => None
                  end
            | EmptyString => None
            end
          else if Ascii.eqb c "{" then
            match skip_ws r with
            | String c1 r1 as s1 =>
                if Ascii.eqb c1 "}" then Some (VObject [], r1)
                else
                  match parse_members fuel' s1 with
                  | Some (l, rest) => Some (build_object l, rest)
                  | None => None
                  end
            | EmptyString => None
            end
          else parse_number s0
      end
  end
with parse_elements (fuel : nat) (s : string) {struct fuel} : option (list value * string) :=
  match fuel with
  | O => None
  | S fuel' =>
      match parse_value fuel' s with
      | None => None
      | Some (v, rest) =>
          match skip_ws rest with
          | String c r =>
              if Ascii.eqb c "," then
                match parse_elements fuel' r with
                | Some (l, rest') => Some (v :: l, rest')
                | None => None
                end
              else if Ascii.eqb c "]" then Some ([v], r)
              else None
          | EmptyString => None
          end
      end
  end
with parse_members (fuel : nat) (s : string) {struct fuel}
  : option (list (string * value) * string) :=
  match fuel with
  | O => None
  | S fuel' =>
      match skip_ws s with
      | String q r0 =>
          if Ascii.eqb q dquote then
            match parse_string_body r0 with
            | None => None
            | Some (k, r1) =>
                match skip_ws r1 with
                | String colon r2 =>
                    if Ascii.eqb colon ":" then
                      match parse_value fuel' r2 with
                      | None => None
                      | Some (v, rest) =>
                          match skip_ws rest with
                          | String c r =>
                              if Ascii.eqb c "," then
                                match parse_members fuel' r with
                                | Some (l, rest') => Some ((k, v) :: l, rest')
                                | None => None
                                end
                              else if Ascii.eqb c "}" then Some ([(k, v)], r)
                              else None
                          | EmptyString => None
                          end
                      end
                    else None
                | EmptyString => None
                end
            end
          else None
      | EmptyString => None
      end
  end.

(** [JSON.parse(text)]: the value of the whole text, or a [SyntaxError]. *)
Definition parse (text : string) : completion value :=
  match parse_value (S (String.length text)) text with
  | Some (v, rest) =>
      match skip_ws rest with
      | EmptyString => Normal v
      | String _ _ => Throw (SyntaxError "Unexpected non-whitespace character after JSON")
      end
  | None => Throw (SyntaxError "Unexpected token or end of JSON input")
  end.

(** *** The values that JSON text represents *)

Fixpoint distinct (l : list string) : bool :=
  match l with
  | [] => true
  | k :: r => negb (existsb (String.eqb k) r) && distinct r
  end.

(** The keys stand in the order of enumeration. *)
Fixpoint enumerated (l : list string) : bool :=
  match l with
  | [] => true
  | k :: r => forallb (before k) r && enumerated r
  end.

(** A JSON-representable value: no [undefined] and nothing [JSON.stringify]
    refuses; numbers that JSON text can write, which are the finite ones but
    for the negative zero (it is printed as [0]); objects with one property
    per key, listed in the order of enumeration. *)
Fixpoint representable (v : value) : bool :=
  match v with
  | VUndefined => false
  | VNull => true
  | VBool _ => true
  | VNumber n => canonical n && is_finite n && negb (is_zero n && is_negative n)
  | VBigInt _ => false
  | VString _ => true
  | VArray elems => forallb representable elems
  | VObject props =>
      distinct (map fst props) && enumerated (map fst props)
      && forallb (fun kv => representable (snd kv)) props
  end.

End JSON.

(** ** The message codec ([src/MessageCodec.ts]; [rn-bridge/index.js] holds a
    copy of the same two functions) *)

Module MessageCodec.
Import JS.

(** The envelope [deserialize] returns. *)
Record DeserializedMessage : Type := {
  event : string;
  payload : list value
}.

Definition codec_error (message : string) : js_error :=
  MessageCodecError message None.

(** [serialize(event, ...payload)] *)
Definition serialize (event : value) (payload : list value) : completion string :=
  match event with
  | VString name =>
      if (String.length name =? 0)%nat
      then Throw (codec_error "Event name must be a non-empty string")
      else
        match JSON.stringify_object [("event", event); ("payload", VArray payload)] with
        | Normal text => Normal text
        | Throw error =>
            Throw (MessageCodecError
                     ("Failed to serialize message for event "
                        ++ String JSON.dquote (name ++ String JSON.dquote EmptyString))
                     (Some error))
        end
  | _ => Throw (codec_error "Event name must be a non-empty string")
  end.

(** The body of the [try] block of [deserialize]. *)
Definition check_envelope (deserializedMessage : value) : completion DeserializedMessage :=
  if (falsy deserializedMessage || negb (String.eqb (typeof deserializedMessage) "object"))%bool
  then Throw (codec_error "Invalid message format: expected object")
  else if (negb (has_property "event" deserializedMessage)
           || negb (has_property "payload" deserializedMessage))%bool
  then Throw (codec_error
                "Invalid message format: must contain 'event' and 'payload' properties")
  else
    match get_property "event" deserializedMessage with
    | VString event =>
        match get_property "payload" deserializedMessage with
        | VArray payload => Normal {| event := event; payload := payload |}
        | _ => Throw (codec_error "Invalid message format: payload must be an array")
        end
    | _ => Throw (codec_error "Invalid message format: event must be a string")
    end.

(** [deserialize(message)]: a [MessageCodecError] of the body is thrown on as it
    is, any other error is wrapped. *)
Definition deserialize (message : value) : completion DeserializedMessage :=
  match message with
  | VString text =>
      match (deserializedMessage <- JSON.parse text ;; check_envelope deserializedMessage) with
      | Normal result => Normal result
      | Throw (MessageCodecError m o) => Throw (MessageCodecError m o)
      | Throw error => Throw (MessageCodecError "Failed to deserialize message" (Some error))
      end
  | _ => Throw (codec_error "Message must be a string")
  end.

End MessageCodec.

(** ** The embedded side: [rn-bridge/index.js] *)

Module RnBridge.
Import JS.

Definition EVENT_CHANNEL : string := "_EVENTS_".
Definition SYSTEM_CHANNEL : string := "_SYSTEM_".

(** *** [class SystemEventLock]

    The callback acts on some world [W]; a method takes the world and gives
    the world back with the object. *)
Section SystemEventLock.
Context {W : Type}.

Record SystemEventLock : Type := {
  _locksAcquired : Z;
  _callback : W -> W;
  _hasReleased : bool
}.

Definition _checkRelease (this : SystemEventLock) (w : W) : SystemEventLock * W :=
  if _locksAcquired this <=? 0
  then ({| _locksAcquired := _locksAcquired this;
           _callback := _callback this;
           _hasReleased := true |},
        _callback this w)
  else (this, w).

(** [new SystemEventLock(callback, startingLocks)] *)
Definition new_SystemEventLock (callback : W -> W) (startingLocks : Z) (w : W)
  : SystemEventLock * W :=
  _checkRelease {| _locksAcquired := startingLocks;
                   _callback := callback;
                   _hasReleased := false |} w.

Definition release (this : SystemEventLock) (w : W) : SystemEventLock * W :=
  if _hasReleased this then (this, w)
  else _checkRelease {| _locksAcquired := _locksAcquired this - 1;
                        _callback := _callback this;
                        _hasReleased := _hasReleased this |} w.

(** [n] calls of [release()] in a row. *)
Fixpoint releases (n : nat) (this : SystemEventLock) (w : W) : SystemEventLock * W :=
  match n with
  | O => (this, w)
  | S n' => let (this', w') := release this w in releases n' this' w'
  end.
End SystemEventLock.
Arguments SystemEventLock W : clear implicits.

(** *** The runtime around the channels *)

(** The calls of [NativeBridge.sendMessage], oldest first. *)
Definition outbox : Type := list (string * string).

(** What [emitLocal] passes to the listeners: the values of the payload, or
    the event lock of a pause. *)
Inductive emit_args : Type :=
| Args (msg : list value)
| LockArg (lock : nat).

(** One call of [emitLocal], with the number of listeners it reached. *)
Record emission : Type := {
  em_channel : string;
  em_type : string;
  em_args : emit_args;
  em_listeners : nat
}.

(** The closures handed to [setImmediate]: the one of
    [ChannelSuper.emitWrapper] (and of the second branch of
    [SystemChannel.emitWrapper], which emits with no argument), and the one of
    the pause branch. *)
Inductive closure : Type :=
| EmitClosure (channel type : string) (msg : list value)
| PauseClosure (channel type : string).

Inductive channel_class : Type := IsSystemChannel | IsEventChannel.

Record runtime : Type := {
  channels : list (string * channel_class);   (* the own properties of [var channels = {}] *)
  listeners : list (string * string);         (* one entry per listener: channel, event *)
  immediates : list closure;                  (* the queue of [setImmediate], first in first out *)
  locks : list (SystemEventLock outbox);      (* the event locks, by creation *)
  sent : outbox;
  emitted : list emission;                    (* the calls of [emitLocal] *)
  uncaught : list js_error;                   (* what the closures threw into the loop *)
  console : list string                       (* [console.error] *)
}.

Definition with_immediates (q : list closure) (st : runtime) : runtime :=
  {| channels := channels st; listeners := listeners st; immediates := q;
     locks := locks st; sent := sent st; emitted := emitted st; uncaught := uncaught st;
     console := console st |}.

Definition with_locks (l : list (SystemEventLock outbox)) (o : outbox) (st : runtime)
  : runtime :=
  {| channels := channels st; listeners := listeners st; immediates := immediates st;
     locks := l; sent := o; emitted := emitted st; uncaught := uncaught st;
     console := console st |}.

Definition with_sent (o : outbox) (st : runtime) : runtime :=
  with_locks (locks st) o st.

Definition with_emitted (e : list emission) (st : runtime) : runtime :=
  {| channels := channels st; listeners := listeners st; immediates := immediates st;
     locks := locks st; sent := sent st; emitted := e; uncaught := uncaught st;
     console := console st |}.

Definition with_uncaught (u : list js_error) (st : runtime) : runtime :=
  {| channels := channels st; listeners := listeners st; immediates := immediates st;
     locks := locks st; sent := sent st; emitted := emitted st; uncaught := u;
     console := console st |}.

Definition with_console (c : list string) (st : runtime) : runtime :=
  {| channels := channels st; listeners := listeners st; immediates := immediates st;
     locks := locks st; sent := sent st; emitted := emitted st; uncaught := uncaught st;
     console := c |}.

Definition with_listeners (l : list (string * string)) (st : runtime) : runtime :=
  {| channels := channels st; listeners := l; immediates := immediates st;
     locks := locks st; sent := sent st; emitted := emitted st; uncaught := uncaught st;
     console := console st |}.

Definition same_listener (a b : string * string) : bool :=
  (String.eqb (fst a) (fst b) && String.eqb (snd a) (snd b))%bool.

(** [channel.listenerCount(type)] *)
Definition listenerCount (channel type : string) (st : runtime) : nat :=
  List.length (filter (same_listener (channel, type)) (listeners st)).

(** [NativeBridge.sendMessage(channel, message)] *)
Definition sendMessage (channel message : string) (o : outbox) : outbox :=
  (o ++ [(channel, message)])%list.

Definition setImmediate (f : closure) (st : runtime) : runtime :=
  with_immediates (immediates st ++ [f])%list st.

(** What [emit] of [events] throws instead of calling listeners: the
    type is [error] and nobody listens to it.  The error has the first
    argument as its context (no argument of a message is an [Error]: the
    arguments are read from JSON text). *)
Definition unhandled (channel type : string) (args : emit_args) (st : runtime)
  : option js_error :=
  if (String.eqb type "error" && (listenerCount channel type st =? 0)%nat)%bool
  then Some (ERR_UNHANDLED_ERROR match args with
                                 | Args (er :: _) => er
                                 | Args [] | LockArg _ => VUndefined
                                 end)
  else None.

(** [emitLocal(type, ...args)], which is [emit] of [events]: the runtime with
    the call on record, and what the call threw. *)
Definition emitLocal (channel type : string) (args : emit_args) (st : runtime)
  : runtime * option js_error :=
  (with_emitted (emitted st ++ [{| em_channel := channel; em_type := type; em_args := args;
                                   em_listeners := listenerCount channel type st |}])%list st,
   unhandled channel type args st).

(** [s.split(sep)] for a separator of one character. *)
Fixpoint split (sep : ascii) (s : string) : list string :=
  match s with
  | EmptyString => [EmptyString]
  | String c r =>
      if Ascii.eqb c sep then EmptyString :: split sep r
      else match split sep r with
           | x :: l => String c x :: l
           | [] => [String c EmptyString]
           end
  end.

(** The release message the pause closure computes from [type]. *)
Definition release_message (type : string) : string :=
  let releaseMessage := "release-pause-event" in
  let eventArguments := split "|" type in
  if (2 <=? List.length eventArguments)%nat
  then releaseMessage ++ "|" ++ nth 1 eventArguments EmptyString
  else releaseMessage.

(** [ChannelSuper.emitWrapper(type, ...msg)] *)
Definition ChannelSuper_emitWrapper (name type : string) (msg : list value) (st : runtime)
  : runtime :=
  setImmediate (EmitClosure name type msg) st.

(** [SystemChannel.emitWrapper(type)] *)
Definition SystemChannel_emitWrapper (name type : string) (st : runtime) : runtime :=
  if String.prefix "pause" type
  then setImmediate (PauseClosure name type) st
  else setImmediate (EmitClosure name type []) st.

(** [EventChannel.processData(data)]: no [try] around the decoding. *)
Definition EventChannel_processData (name : string) (data : string) (st : runtime)
  : completion runtime :=
  envelope <- MessageCodec.deserialize (VString data) ;;
  Normal (ChannelSuper_emitWrapper name (MessageCodec.event envelope)
            (MessageCodec.payload envelope) st).

(** [SystemChannel.processData(data)] *)
Definition SystemChannel_processData (name : string) (data : string) (st : runtime)
  : completion runtime :=
  Normal (SystemChannel_emitWrapper name data st).

(** [channels.hasOwnProperty(name)] and [channels[name]], for the names the
    module registers (none of them a property that [channels] inherits). *)
Fixpoint lookup_channel (name : string) (l : list (string * channel_class))
  : option channel_class :=
  match l with
  | [] => None
  | (n, c) :: r => if String.eqb name n then Some c else lookup_channel name r
  end.

(** [bridgeListener(channelName, data)], which the native code calls. *)
Definition bridgeListener (channelName data : string) (st : runtime) : completion runtime :=
  match lookup_channel channelName (channels st) with
  | Some IsSystemChannel => SystemChannel_processData channelName data st
  | Some IsEventChannel => EventChannel_processData channelName data st
  | None =>
      Normal (with_console (console st ++ [("ERROR: Channel not found: " ++ channelName)%string])%list st)
  end.

(** [EventChannel.post(event, ...msg)] and [send(...msg)] *)
Definition post (name : string) (event : value) (msg : list value) (st : runtime)
  : completion runtime :=
  text <- MessageCodec.serialize event msg ;;
  Normal (with_sent (sendMessage name text (sent st)) st).

Definition send (name : string) (msg : list value) (st : runtime) : completion runtime :=
  post name (VString "message") msg st.

(** What a closure throws has no caller to go to: it is an uncaught
    exception of the process, which goes on only when the application handles
    [uncaughtException]. *)
Definition to_the_loop (outcome : runtime * option js_error) : runtime :=
  match outcome with
  | (st, Some e) => with_uncaught (uncaught st ++ [e])%list st
  | (st, None) => st
  end.

(** What a closure of the queue does when the loop runs it. *)
Definition run_closure (f : closure) (st : runtime) : runtime :=
  match f with
  | EmitClosure name type msg => to_the_loop (emitLocal name type (Args msg) st)
  | PauseClosure name type =>
      let releaseMessage := release_message type in
      let (eventLock, o) :=
        new_SystemEventLock (sendMessage name releaseMessage)
          (Z.of_nat (listenerCount name "pause" st)) (sent st) in
      to_the_loop (emitLocal name "pause" (LockArg (List.length (locks st)))
                     (with_locks (locks st ++ [eventLock])%list o st))
  end.

(** One turn of the loop: the oldest closure of the queue runs. *)
Definition tick (st : runtime) : runtime :=
  match immediates st with
  | [] => st
  | f :: q => run_closure f (with_immediates q st)
  end.

Fixpoint replace_nth {A : Type} (n : nat) (x : A) (l : list A) : list A :=
  match l, n with
  | [], _ => []
  | _ :: r, O => x :: r
  | y :: r, S n' => y :: replace_nth n' x r
  end.

(** A listener calls [release()] on the event lock it was given. *)
Definition release_lock (lock : nat) (st : runtime) : runtime :=
  match nth_error (locks st) lock with
  | Some this =>
      let (this', o) := release this (sent st) in
      with_locks (replace_nth lock this' (locks st)) o st
  | None => st
  end.

Fixpoint remove_first (x : string * string) (l : list (string * string))
  : list (string * string) :=
  match l with
  | [] => []
  | y :: r => if same_listener x y then r else y :: remove_first x r
  end.

(** What happens to the runtime, one event after the other: the native code
    delivers a message, the loop takes a turn, the application registers or
    removes a listener, posts an event, or calls [release()] on a lock. *)
Inductive input : Type :=
| Deliver (channelName data : string)
| Tick
| On (channel type : string)
| Off (channel type : string)
| Post (event : value) (msg : list value)
| Release (lock : nat).

Definition step (st : runtime) (i : input) : completion runtime :=
  match i with
  | Deliver channelName data => bridgeListener channelName data st
  | Tick => Normal (tick st)
  | On channel type => Normal (with_listeners (listeners st ++ [(channel, type)])%list st)
  | Off channel type => Normal (with_listeners (remove_first (channel, type) (listeners st)) st)
  | Post event msg => post EVENT_CHANNEL event msg st
  | Release lock => Normal (release_lock lock st)
  end.

(** A call that throws leaves the runtime as it was: the exception goes to
    the caller. *)
Definition after (st : runtime) (i : input) : runtime :=
  match step st i with
  | Normal st' => st'
  | Throw _ => st
  end.

Definition run (st : runtime) (trace : list input) : runtime :=
  fold_left after trace st.

(** [channels[name] = channel] on the own properties of [channels], for the
    names of the two channels of the module (on a plain object the names
    [__proto__] and [hasOwnProperty] would not make an ordinary property). *)
Fixpoint set_channel (name : string) (c : channel_class) (l : list (string * channel_class))
  : list (string * channel_class) :=
  match l with
  | [] => [(name, c)]
  | (n, c') :: r => if String.eqb name n then (n, c) :: r else (n, c') :: set_channel name c r
  end.

(** [registerChannel(channel)], which the module calls for its two channels
    and does not export: the last registration under a name stands. *)
Definition registerChannel (name : string) (c : channel_class) (st : runtime) : runtime :=
  {| channels := set_channel name c (channels st); listeners := listeners st;
     immediates := immediates st; locks := locks st; sent := sent st;
     emitted := emitted st; uncaught := uncaught st; console := console st |}.

Definition empty : runtime :=
  {| channels := []; listeners := []; immediates := []; locks := []; sent := [];
     emitted := []; uncaught := []; console := [] |}.

(** The module once loaded: the system channel registered, the readiness
    message sent, the events channel registered. *)
Definition loaded : runtime :=
  let st := registerChannel SYSTEM_CHANNEL IsSystemChannel empty in
  let st := with_sent (sendMessage SYSTEM_CHANNEL "ready-for-app-events" (sent st)) st in
  registerChannel EVENT_CHANNEL IsEventChannel st.

End RnBridge.

(** ** The host side: the [EventChannel] of [src/RNNodeJsMobileModule.ts] and
    the Android module [RNNodeJsMobileModule] *)

Module Host.
Import JS.

Definition EVENT_CHANNEL : string := "_EVENTS_".
Definition SYSTEM_CHANNEL : string := "_SYSTEM_".
Definition EVENT_NAME : string := "nodejs-mobile-react-native-message".

(** *** The TypeScript channel *)

(** The calls into the native module [RNNodeJsMobile], and the call of
    [remove()] on the subscription it returned. *)
Inductive native_call : Type :=
| NativeAddListener (eventName : string)
| NativeRemove (subscription : nat)
| NativeSendMessage (channel msg : string).

(** One call of [this.emit], with the number of listeners it reached. *)
Record emission : Type := {
  em_event : string;
  em_payload : list value;
  em_listeners : nat
}.

Record EventChannel : Type := {
  name : string;                      (* [#name] *)
  listenerCount : Z;                  (* [#listenerCount] *)
  subscription : option nat;          (* [#subscription], [None] for [null] *)
  registered : list (nat * string);   (* the listeners of the emitter: handle and event *)
  handles : nat;                      (* the subscriptions [super.addListener] has returned *)
  native : list native_call;
  emitted : list emission;
  warnings : list js_error            (* [console.warn] *)
}.

Definition new_EventChannel (name : string) : EventChannel :=
  {| name := name; listenerCount := 0; subscription := None; registered := [];
     handles := O; native := []; emitted := []; warnings := [] |}.

Definition is_add (c : native_call) : bool :=
  match c with NativeAddListener _ => true | _ => false end.

Definition is_remove (c : native_call) : bool :=
  match c with NativeRemove _ => true | _ => false end.

(** The native subscriptions started and stopped so far. *)
Definition activations (this : EventChannel) : nat :=
  List.length (filter is_add (native this)).

Definition deactivations (this : EventChannel) : nat :=
  List.length (filter is_remove (native this)).

(** [#startNativeSubscription()] *)
Definition startNativeSubscription (this : EventChannel) : EventChannel :=
  match subscription this with
  | Some _ => this
  | None =>
      {| name := name this; listenerCount := listenerCount this;
         subscription := Some (activations this);
         registered := registered this; handles := handles this;
         native := (native this ++ [NativeAddListener EVENT_NAME])%list;
         emitted := emitted this; warnings := warnings this |}
  end.

(** [#stopNativeSubscription()] *)
Definition stopNativeSubscription (this : EventChannel) : EventChannel :=
  match subscription this with
  | None => this
  | Some s =>
      {| name := name this; listenerCount := listenerCount this;
         subscription := None;
         registered := registered this; handles := handles this;
         native := (native this ++ [NativeRemove s])%list;
         emitted := emitted this; warnings := warnings this |}
  end.

(** [addListener(event, listener)]: the state after the call and the handle of
    the subscription it returns. *)
Definition addListener (event : string) (this : EventChannel) : EventChannel * nat :=
  let handle := handles this in
  let this1 :=
    {| name := name this; listenerCount := listenerCount this + 1;
       subscription := subscription this;
       registered := (registered this ++ [(handle, event)])%list;
       handles := S (handles this);
       native := native this; emitted := emitted this; warnings := warnings this |} in
  (if listenerCount this1 =? 1 then startNativeSubscription this1 else this1, handle).

(** [remove()] of the subscription [addListener] returned with [handle]. *)
Definition remove (handle : nat) (this : EventChannel) : EventChannel :=
  let this1 :=
    {| name := name this; listenerCount := listenerCount this - 1;
       subscription := subscription this;
       registered := filter (fun l => negb (Nat.eqb (fst l) handle)) (registered this);
       handles := handles this;
       native := native this; emitted := emitted this; warnings := warnings this |} in
  if listenerCount this1 =? 0 then stopNativeSubscription this1 else this1.

Definition emit (event : string) (payload : list value) (this : EventChannel) : EventChannel :=
  {| name := name this; listenerCount := listenerCount this;
     subscription := subscription this;
     registered := registered this; handles := handles this;
     native := native this;
     emitted := (emitted this ++
                 [{| em_event := event; em_payload := payload;
                     em_listeners :=
                       List.length (filter (fun l => String.eqb (snd l) event)
                                      (registered this)) |}])%list;
     warnings := warnings this |}.

Definition warn (error : js_error) (this : EventChannel) : EventChannel :=
  {| name := name this; listenerCount := listenerCount this;
     subscription := subscription this;
     registered := registered this; handles := handles this;
     native := native this; emitted := emitted this;
     warnings := (warnings this ++ [error])%list |}.

(** [#processData(data)]: the [try] and its [catch]. *)
Definition processData (data : string) (this : EventChannel) : EventChannel :=
  match MessageCodec.deserialize (VString data) with
  | Normal envelope =>
      emit (MessageCodec.event envelope) (MessageCodec.payload envelope) this
  | Throw error => warn error this
  end.

(** The listener [#startNativeSubscription] gave to the native module; the
    native module calls it while the subscription lives. *)
Definition native_event (channelName message : string) (this : EventChannel) : EventChannel :=
  match subscription this with
  | None => this
  | Some _ =>
      if negb (String.eqb channelName (name this)) then this
      else processData message this
  end.

(** [RNNodeJsMobile.sendMessage(this.#name, text)] *)
Definition call_sendMessage (text : string) (this : EventChannel) : EventChannel :=
  {| name := name this; listenerCount := listenerCount this;
     subscription := subscription this;
     registered := registered this; handles := handles this;
     native := (native this ++ [NativeSendMessage (name this) text])%list;
     emitted := emitted this; warnings := warnings this |}.

(** [post(event, ...msg)] and [send(...msg)] *)
Definition post (event : value) (msg : list value) (this : EventChannel)
  : completion EventChannel :=
  text <- MessageCodec.serialize event msg ;;
  Normal (call_sendMessage text this).

Definition send (msg : list value) (this : EventChannel) : completion EventChannel :=
  post (VString "message") msg this.

(** The calls an application makes on the channel. *)
Inductive call : Type :=
| AddListener (event : string)
| Remove (handle : nat).

Definition apply_call (this : EventChannel) (c : call) : EventChannel :=
  match c with
  | AddListener event => fst (addListener event this)
  | Remove handle => remove handle this
  end.

(** *** The Android module (the companion object and the lifecycle
    handlers) *)

Record module : Type := {
  nodeIsReadyForAppEvents : bool;
  instance : bool;                          (* [instance != null] *)
  main_queue : list (string * string);      (* blocks launched on [Dispatchers.Main] *)
  to_node : list (string * string)          (* calls of [sendMessageToNodeChannel] *)
}.

Definition created : module :=
  {| nodeIsReadyForAppEvents := false; instance := false; main_queue := []; to_node := [] |}.

Definition handleAppChannelMessage (msg : string) (m : module) : module :=
  if String.eqb msg "ready-for-app-events"
  then {| nodeIsReadyForAppEvents := true; instance := instance m;
          main_queue := main_queue m; to_node := to_node m |}
  else m.

Definition sendMessageBackToReact (channelName msg : string) (m : module) : module :=
  if instance m
  then {| nodeIsReadyForAppEvents := nodeIsReadyForAppEvents m; instance := instance m;
          main_queue := (main_queue m ++ [(channelName, msg)])%list; to_node := to_node m |}
  else m.

(** [sendMessageToApplication(channelName, msg)], called from JNI. *)
Definition sendMessageToApplication (channelName msg : string) (m : module) : module :=
  if String.eqb channelName SYSTEM_CHANNEL
  then handleAppChannelMessage msg m
  else sendMessageBackToReact channelName msg m.

Definition sendMessage (channel msg : string) (m : module) : module :=
  {| nodeIsReadyForAppEvents := nodeIsReadyForAppEvents m; instance := instance m;
     main_queue := main_queue m; to_node := (to_node m ++ [(channel, msg)])%list |}.

Definition OnActivityEntersBackground (m : module) : module :=
  if nodeIsReadyForAppEvents m then sendMessage SYSTEM_CHANNEL "pause" m else m.

Definition OnActivityEntersForeground (m : module) : module :=
  if nodeIsReadyForAppEvents m then sendMessage SYSTEM_CHANNEL "resume" m else m.

(** [startNodeProject] and its two siblings, as far as the module state goes. *)
Definition startNode (m : module) : module :=
  {| nodeIsReadyForAppEvents := nodeIsReadyForAppEvents m; instance := true;
     main_queue := main_queue m; to_node := to_node m |}.

(** *** The host as a whole *)

Record host : Type := {
  android : module;
  channel : EventChannel
}.

Definition booted : host :=
  {| android := created; channel := new_EventChannel EVENT_CHANNEL |}.

(** What happens to the host: the embedded side sends a message, the main
    dispatcher takes a turn, the activity changes state, the application starts
    the runtime or uses the channel ([Post] is [post] on the channel, whose
    call of the native [sendMessage] function reaches [sendMessage] of the
    module; a call that throws leaves the host as it was). *)
Inductive input : Type :=
| FromNode (channelName msg : string)
| MainTurn
| EntersBackground
| EntersForeground
| StartNode
| Call (c : call)
| Post (event : value) (msg : list value).

Definition step (h : host) (i : input) : host :=
  match i with
  | FromNode channelName msg =>
      {| android := sendMessageToApplication channelName msg (android h);
         channel := channel h |}
  | MainTurn =>
      match main_queue (android h) with
      | [] => h
      | (channelName, msg) :: q =>
          {| android := {| nodeIsReadyForAppEvents := nodeIsReadyForAppEvents (android h);
                           instance := instance (android h);
                           main_queue := q; to_node := to_node (android h) |};
             channel := native_event channelName msg (channel h) |}
      end
  | EntersBackground =>
      {| android := OnActivityEntersBackground (android h); channel := channel h |}
  | EntersForeground =>
      {| android := OnActivityEntersForeground (android h); channel := channel h |}
  | StartNode => {| android := startNode (android h); channel := channel h |}
  | Call c => {| android := android h; channel := apply_call (channel h) c |}
  | Post event msg =>
      match MessageCodec.serialize event msg with
      | Normal text =>
          {| android := sendMessage (name (channel h)) text (android h);
             channel := call_sendMessage text (channel h) |}
      | Throw _ => h
      end
  end.

Definition run (h : host) (trace : list input) : host := fold_left step trace h.

End Host.

(** ** The attachment cache of [native-lib.cpp] *)

Module AttachmentCache.

Definition MAX_ATTACHED_THREADS : Z := 32.

(** What [GetEnv] answers for a thread. *)
Inductive jni_status : Type := JNI_OK | JNI_EDETACHED | JNI_EVERSION.

(** How a call of [get_jni_env] ends: with an environment, or with [nullptr]
    for one of three reasons. *)
Inductive result : Type :=
| Env (env : nat)
| NoJavaVM
| AttachmentRefused
| AttachmentFailed.

(** Where a thread stands in [get_jni_env]: one constructor per access to the
    two atomic counters, with the locals [env], [current_count] and
    [current_peak]. *)
Inductive position : Type :=
| Outside                                    (* not in the function *)
| BeforeAttach                               (* the limit check passed *)
| BeforeFetchAdd (env : nat)
| BeforePeakLoad (env : nat) (current_count : Z)
| BeforeCas (env : nat) (current_count current_peak : Z)
| Returned (r : result).

Record thread : Type := {
  tls_env : option nat;
  tls_attached : bool;
  status : jni_status;        (* the answer of [GetEnv] *)
  attach_succeeds : bool;     (* the answer of [AttachCurrentThread] *)
  at_ : position
}.

Record cache : Type := {
  cached_jvm : bool;
  attached_thread_count : Z;
  peak_attached_threads : Z;
  threads : list thread
}.

Definition move (t : thread) (p : position) : thread :=
  {| tls_env := tls_env t; tls_attached := tls_attached t; status := status t;
     attach_succeeds := attach_succeeds t; at_ := p |}.

(** [get_jni_env()] on thread [id], one atomic step at a time; the
    environment of thread [id] is called [id] too.
    The counters are C++ [int]s; the counts of this model stay far from the
    ends of that range.  A spurious failure of [compare_exchange_weak] would
    repeat the last step with nothing changed, and is left out. *)
Definition get_jni_env (id : nat) (t : thread) (c : cache) : thread * cache :=
  match at_ t with
  | Outside | Returned _ =>
      (* the call begins: the thread-local checks, up to the load of the count *)
      match tls_env t with
      | Some env => (move t (Returned (Env env)), c)
      | None =>
          if negb (cached_jvm c) then (move t (Returned NoJavaVM), c)
          else
            match status t with
            | JNI_OK =>
                ({| tls_env := Some id; tls_attached := false; status := status t;
                    attach_succeeds := attach_succeeds t; at_ := Returned (Env id) |}, c)
            | JNI_EDETACHED =>
                let current_count := attached_thread_count c in
                if current_count >=? MAX_ATTACHED_THREADS
                then (move t (Returned AttachmentRefused), c)
                else (move t BeforeAttach, c)
            | JNI_EVERSION => (move t (Returned AttachmentFailed), c)
            end
      end
  | BeforeAttach =>
      if attach_succeeds t
      then ({| tls_env := Some id; tls_attached := true; status := JNI_OK;
               attach_succeeds := attach_succeeds t; at_ := BeforeFetchAdd id |}, c)
      else (move t (Returned AttachmentFailed), c)
  | BeforeFetchAdd env =>
      let current_count := attached_thread_count c + 1 in
      (move t (BeforePeakLoad env current_count),
       {| cached_jvm := cached_jvm c; attached_thread_count := current_count;
          peak_attached_threads := peak_attached_threads c; threads := threads c |})
  | BeforePeakLoad env current_count =>
      (move t (BeforeCas env current_count (peak_attached_threads c)), c)
  | BeforeCas env current_count current_peak =>
      if current_count >? current_peak then
        if peak_attached_threads c =? current_peak
        then (move t (Returned (Env env)),
              {| cached_jvm := cached_jvm c;
                 attached_thread_count := attached_thread_count c;
                 peak_attached_threads := current_count; threads := threads c |})
        else (move t (BeforeCas env current_count (peak_attached_threads c)), c)
      else (move t (Returned (Env env)), c)
  end.

Fixpoint set_thread (id : nat) (t : thread) (l : list thread) : list thread :=
  match l, id with
  | [], _ => []
  | _ :: r, O => t :: r
  | x :: r, S id' => x :: set_thread id' t r
  end.

(** The scheduler lets thread [id] take its next step. *)
Definition sched (c : cache) (id : nat) : cache :=
  match nth_error (threads c) id with
  | None => c
  | Some t =>
      let (t', c') := get_jni_env id t c in
      {| cached_jvm := cached_jvm c'; attached_thread_count := attached_thread_count c';
         peak_attached_threads := peak_attached_threads c';
         threads := set_thread id t' (threads c') |}
  end.

Definition run (c : cache) (schedule : list nat) : cache := fold_left sched schedule c.

(** [thread_cleanup_callback], when thread [id] exits. *)
Definition thread_cleanup_callback (id : nat) (c : cache) : cache :=
  match nth_error (threads c) id with
  | None => c
  | Some t =>
      let t' := {| tls_env := None; tls_attached := false;
                   status := if (tls_attached t && cached_jvm c)%bool
                             then JNI_EDETACHED else status t;
                   attach_succeeds := attach_succeeds t; at_ := Outside |} in
      {| cached_jvm := cached_jvm c;
         attached_thread_count :=
           if (tls_attached t && cached_jvm c)%bool
           then attached_thread_count c - 1 else attached_thread_count c;
         peak_attached_threads := peak_attached_threads c;
         threads := set_thread id t' (threads c) |}
  end.

(** A native thread the Java VM has not seen. *)
Definition fresh_thread : thread :=
  {| tls_env := None; tls_attached := false; status := JNI_EDETACHED;
     attach_succeeds := true; at_ := Outside |}.

(** The cache after [startNodeWithArguments] stored the Java VM, with [n]
    native threads that have not crossed the boundary yet. *)
Definition started (n : nat) : cache :=
  {| cached_jvm := true; attached_thread_count := 0; peak_attached_threads := 0;
     threads := repeat fresh_thread n |}.

Definition returned (c : cache) (id : nat) : bool :=
  match nth_error (threads c) id with
  | Some t => match at_ t with Returned _ => true | _ => false end
  | None => true
  end.

Fixpoint call (steps : nat) (c : cache) (id : nat) : cache :=
  match steps with
  | O => c
  | S steps' =>
      let c' := sched c id in
      if returned c' id then c' else call steps' c' id
  end.

(** The whole call of [get_jni_env] by thread [id] with no other thread in
    between: the steps of the thread up to its return, five at most when the
    exchange meets no other writer. *)
Definition acquire (c : cache) (id : nat) : cache := call 5 c id.

(** Calls that do not overlap: a thread crosses the boundary, or exits. *)
Inductive event : Type :=
| Acquire (id : nat)
| Exit (id : nat).

Definition happen (c : cache) (e : event) : cache :=
  match e with
  | Acquire id => acquire c id
  | Exit id => thread_cleanup_callback id c
  end.

Definition succeeded (t : thread) : bool :=
  match at_ t with Returned (Env _) => true | _ => false end.

Definition refused (t : thread) : bool :=
  match at_ t with Returned AttachmentRefused => true | _ => false end.

End AttachmentCache.

(** ** The two sides together *)

Module Bridge.

Record bridge : Type := {
  host : Host.host;
  node : RnBridge.runtime
}.

(** Something happens on one side, or the transport hands over a message one
    side has sent: the message number [k] of the log of the sender.  The
    messages of [FromNode] and [Deliver] come from the transport only, so
    as events of a side they are left out. *)
Inductive event : Type :=
| AtHost (i : Host.input)
| AtNode (i : RnBridge.input)
| ToNode (k : nat)
| ToHost (k : nat).

Definition step (b : bridge) (e : event) : bridge :=
  match e with
  | AtHost (Host.FromNode _ _) => b
  | AtHost i => {| host := Host.step (host b) i; node := node b |}
  | AtNode (RnBridge.Deliver _ _) => b
  | AtNode i => {| host := host b; node := RnBridge.after (node b) i |}
  | ToNode k =>
      match nth_error (Host.to_node (Host.android (host b))) k with
      | Some (channelName, msg) =>
          {| host := host b;
             node := RnBridge.after (node b) (RnBridge.Deliver channelName msg) |}
      | None => b
      end
  | ToHost k =>
      match nth_error (RnBridge.sent (node b)) k with
      | Some (channelName, msg) =>
          {| host := Host.step (host b) (Host.FromNode channelName msg); node := node b |}
      | None => b
      end
  end.

Definition run (b : bridge) (events : list event) : bridge := fold_left step events b.

Definition start : bridge := {| host := Host.booted; node := RnBridge.loaded |}.

End Bridge.

(** ** Starting the runtime: [nodejs.start] and its siblings
    ([src/RNNodeJsMobileModule.ts]) and the three start functions of the
    Android module *)

Module Launcher.
Import JS.

(** [NodeJsOptions] of [RNNodeJsMobile.types.ts]: the field is optional. *)
Record NodeJsOptions : Type := {
  redirectOutputToLogcat : option bool
}.

(** The Kotlin record [NodeJsOptions] made of the object: a field the object
    does not have takes the default of the class, [true]. *)
Definition record_of (options : NodeJsOptions) : bool :=
  match redirectOutputToLogcat options with
  | Some b => b
  | None => true
  end.

(** A call of the native [startNodeWithArguments]. *)
Record native_start : Type := {
  arguments : list string;
  modulesPath : string;
  option_redirectOutputToLogcat : bool
}.

(** A coroutine of a start function, launched on [moduleScope] of the module
    instance [scope]: it waits for the initialisation of that instance and
    then makes the native call [body].  A module instance is known by its
    number. *)
Record coroutine : Type := {
  scope : nat;
  body : native_start
}.

(** The companion object, as far as starting goes, and the coroutines the
    start functions have launched so far. *)
Record companion : Type := {
  instance : option nat;
  startedNodeAlready : bool;
  launched : list coroutine
}.

Definition created : companion :=
  {| instance := None; startedNodeAlready := false; launched := [] |}.

Definition set_instance (this : nat) (c : companion) : companion :=
  {| instance := Some this; startedNodeAlready := startedNodeAlready c;
     launched := launched c |}.

Definition set_startedNodeAlready (c : companion) : companion :=
  {| instance := instance c; startedNodeAlready := true; launched := launched c |}.

(** What [throw new Error(message)] carries. *)
Inductive thrown : Type :=
| Error (message : string).

(** The calls on the [nodejs] object. *)
Inductive js_call : Type :=
| Start (mainFileName : value) (options : option NodeJsOptions)
| StartWithArgs (command : value) (options : option NodeJsOptions)
| StartWithScript (script : value) (options : option NodeJsOptions).

Section Directories.

(** The absolute paths of [nodeJsProjectDir] and [builtinModulesDir], and
    [File(nodeJsProjectDir, child).absolutePath]. *)
Variables nodeJsProjectDir builtinModulesDir : string.
Variable project_file : string -> string.

(** [moduleScope.launch { waitForInit(); startNodeWithArguments(...) }] on
    the module instance [this]: nothing of the block runs in the call. *)
Definition launch (this : nat) (command : list string) (redirect : bool) (c : companion)
  : companion :=
  {| instance := instance c; startedNodeAlready := startedNodeAlready c;
     launched := (launched c
                    ++ [{| scope := this;
                           body := {| arguments := command;
                                      modulesPath :=
                                        nodeJsProjectDir ++ ":" ++ builtinModulesDir;
                                      option_redirectOutputToLogcat := redirect |} |}])%list |}.

(** [startNodeWithScript(script, options)] on the module instance [this]. *)
Definition startNodeWithScript (this : nat) (script : string) (options : bool)
    (c : companion) : companion :=
  let c := set_instance this c in
  if negb (startedNodeAlready c) then
    let c := set_startedNodeAlready c in
    let redirectOutputToLogcat := options in
    launch this ["node"; "-e"; script] redirectOutputToLogcat c
  else c.

(** [startNodeProject(mainFileName, options)] *)
Definition startNodeProject (this : nat) (mainFileName : string) (options : bool)
    (c : companion) : companion :=
  let c := set_instance this c in
  if negb (startedNodeAlready c) then
    let c := set_startedNodeAlready c in
    let redirectOutputToLogcat := options in
    launch this ["node"; project_file mainFileName] redirectOutputToLogcat c
  else c.

(** [startNodeProjectWithArgs(input, options)].  [input.split(" ")] keeps the
    empty parts, like the [split] of the embedded side, and has one part at
    least, so that [args[0]] is there. *)
Definition startNodeProjectWithArgs (this : nat) (input : string) (options : bool)
    (c : companion) : companion :=
  let c := set_instance this c in
  if negb (startedNodeAlready c) then
    let c := set_startedNodeAlready c in
    let args := RnBridge.split " " input in
    let absoluteScriptPath := project_file (nth 0 args EmptyString) in
    let args := tl args in
    let command := ("node" :: absoluteScriptPath :: args)%list in
    let redirectOutputToLogcat := options in
    launch this command redirectOutputToLogcat c
  else c.

(** [options || { redirectOutputToLogcat: true }], as the record the native
    function receives. *)
Definition options_or_default (options : option NodeJsOptions) : bool :=
  match options with
  | Some o => record_of o
  | None => record_of {| redirectOutputToLogcat := Some true |}
  end.

Definition start_message : string :=
  "nodejs-mobile-react-native's start expects to receive the main .js "
    ++ "entrypoint filename, e.g.: nodejs.start("
    ++ String JSON.dquote ("main.js" ++ String JSON.dquote ");").

Definition startWithArgs_message : string :=
  "nodejs-mobile-react-native's startWithArgs expects to receive the main .js "
    ++ "entrypoint filename and arguments, e.g.: nodejs.startWithArgs("
    ++ String JSON.dquote ("main.js arg1 arg2" ++ String JSON.dquote ");").

Definition startWithScript_message : string :=
  "nodejs-mobile-react-native's startWithScript expects to receive the script "
    ++ "as a string, e.g.: nodejs.startWithScript("
    ++ String JSON.dquote ("console.log('Hello World');" ++ String JSON.dquote ");").

(** [nodejs.start], [nodejs.startWithArgs] and [nodejs.startWithScript], which
    reach the module instance [this]: the companion after the call, and what
    the call threw. *)
Definition nodejs (this : nat) (call : js_call) (c : companion) : companion * option thrown :=
  match call with
  | Start mainFileName options =>
      if negb (String.eqb (typeof mainFileName) "string")
      then (c, Some (Error start_message))
      else
        match mainFileName with
        | VString name => (startNodeProject this name (options_or_default options) c, None)
        | _ => (c, None)
        end
  | StartWithArgs command options =>
      if negb (String.eqb (typeof command) "string")
      then (c, Some (Error startWithArgs_message))
      else
        match command with
        | VString input =>
            (startNodeProjectWithArgs this input (options_or_default options) c, None)
        | _ => (c, None)
        end
  | StartWithScript script options =>
      if negb (String.eqb (typeof script) "string")
      then (c, Some (Error startWithScript_message))
      else
        match script with
        | VString text => (startNodeWithScript this text (options_or_default options) c, None)
        | _ => (c, None)
        end
  end.

(** The calls of an application, each on the module instance of its time (a
    hot reload makes a new one). *)
Definition run (c : companion) (calls : list (nat * js_call)) : companion :=
  fold_left (fun c x => fst (nodejs (fst x) (snd x) c)) calls c.

End Directories.

End Launcher.

(** ** The arguments of the runtime in one block of memory
    ([startNodeWithArguments] of [native-lib.cpp]) *)

Module Argv.

Definition NUL : Byte.byte := Byte.x00.
Definition INT_MAX : Z := 2147483647.

(** A block of memory is the list of its bytes; a pointer into it is an
    offset.  An access outside the block has no defined result: [None].  The
    strings are the modified UTF-8 the Java VM hands out, one [NUL] after the
    last Byte.byte. *)

(** [strlen(p)] *)
Fixpoint strlen (block : list Byte.byte) (p : nat) : option nat :=
  match block, p with
  | [], _ => None
  | _ :: r, S p' => strlen r p'
  | b :: r, O => if Byte.eqb b NUL then Some O else option_map S (strlen r O)
  end.

(** [*p = b] *)
Fixpoint store (block : list Byte.byte) (p : nat) (b : Byte.byte) : option (list Byte.byte) :=
  match block, p with
  | [], _ => None
  | _ :: r, O => Some (b :: r)
  | x :: r, S p' => option_map (cons x) (store r p' b)
  end.

(** [strncpy(dest, src, n)]: [n] bytes are written, those of the source up to
    its terminator and [NUL] from there on; no terminator is added. *)
Fixpoint strncpy (block : list Byte.byte) (dest : nat) (src : list Byte.byte) (n : nat)
  : option (list Byte.byte) :=
  match n with
  | O => Some block
  | S n' =>
      match src with
      | [] => None
      | b :: src' =>
          match store block dest b with
          | None => None
          | Some block' =>
              strncpy block' (S dest) (if Byte.eqb b NUL then src else src') n'
          end
      end
  end.

(** [GetStringUTFChars]: the bytes of the string and a terminator. *)
Definition GetStringUTFChars (s : list Byte.byte) : list Byte.byte := (s ++ [NUL])%list.

(** The first loop: the bytes all arguments take, each with its terminator,
    summed in an [int]; a sum that leaves the range of [int] has no defined
    value. *)
Fixpoint arguments_size (string_refs : list (list Byte.byte)) (c_arguments_size : Z) : option Z :=
  match string_refs with
  | [] => Some c_arguments_size
  | s :: rest =>
      match strlen s O with
      | None => None
      | Some n =>
          let c_arguments_size := c_arguments_size + Z.of_nat n in
          if c_arguments_size >? INT_MAX then None
          else
            let c_arguments_size := c_arguments_size + 1 in
            if c_arguments_size >? INT_MAX then None
            else arguments_size rest c_arguments_size
      end
  end.

(** The second loop: the buffer and [argv] once every argument is copied. *)
Fixpoint populate (string_refs : list (list Byte.byte)) (args_buffer : list Byte.byte)
    (current_args_position : nat) : option (list Byte.byte * list nat) :=
  match string_refs with
  | [] => Some (args_buffer, [])
  | current_argument :: rest =>
      match strlen current_argument O with
      | None => None
      | Some n =>
          match strncpy args_buffer current_args_position current_argument n with
          | None => None
          | Some args_buffer =>
              match strlen args_buffer current_args_position with
              | None => None
              | Some len =>
                  match populate rest args_buffer (current_args_position + len + 1) with
                  | None => None
                  | Some (args_buffer, argv) =>
                      Some (args_buffer, current_args_position :: argv)
                  end
              end
          end
      end
  end.

(** The buffer and [argv] that [startNodeWithArguments] hands to
    [callintoNode]; [calloc] gives a block of zero bytes. *)
Definition startNodeWithArguments (arguments : list (list Byte.byte))
  : option (list Byte.byte * list nat) :=
  let string_refs := map GetStringUTFChars arguments in
  match arguments_size string_refs 0 with
  | None => None
  | Some c_arguments_size =>
      let args_buffer := repeat NUL (Z.to_nat c_arguments_size) in
      populate string_refs args_buffer O
  end.

End Argv.

(** ** Copying the project when the application was updated ([asyncInit] of
    the Android module) *)

Module Assets.

(** What the module reads from the device and writes to it: the time stored
    under [LAST_UPDATED_TIME] in the shared preferences (none before the first
    copy), the time of the last update of the package ([None] when the package
    manager throws [NameNotFoundException]), and the copies of the project
    made so far. *)
Record device : Type := {
  stored : option Z;
  packageInfo_lastUpdateTime : option Z;
  copies : nat
}.

(** The two fields of a module instance; the times are [Long]s, compared as
    numbers. *)
Record fields : Type := {
  lastUpdateTime : Z;
  previousLastUpdateTime : Z
}.

Definition new_module : fields := {| lastUpdateTime := 1; previousLastUpdateTime := 0 |}.

(** How [initCompletionDeferred] ends. *)
Inductive completion : Type := Completed | CompletedExceptionally.

(** [wasAPKUpdated()] *)
Definition wasAPKUpdated (d : device) (m : fields) : fields * bool :=
  let previousLastUpdateTime := match stored d with Some v => v | None => 0 end in
  let lastUpdateTime :=
    match packageInfo_lastUpdateTime d with
    | Some t => t
    | None => lastUpdateTime m
    end in
  ({| lastUpdateTime := lastUpdateTime; previousLastUpdateTime := previousLastUpdateTime |},
   negb (lastUpdateTime =? previousLastUpdateTime)).

(** [saveLastUpdateTime()] *)
Definition saveLastUpdateTime (m : fields) (d : device) : device :=
  {| stored := Some (lastUpdateTime m);
     packageInfo_lastUpdateTime := packageInfo_lastUpdateTime d;
     copies := copies d |}.

(** [copyNodeJsAssets()]: the copy, then the time is saved; [None] when the
    copy throws an [IOException], which leaves the time as it was. *)
Definition copyNodeJsAssets (throws : bool) (m : fields) (d : device) : option device :=
  if throws then None
  else Some (saveLastUpdateTime m
               {| stored := stored d;
                  packageInfo_lastUpdateTime := packageInfo_lastUpdateTime d;
                  copies := S (copies d) |}).

(** [asyncInit()] on a module instance. *)
Definition asyncInit (throws : bool) (m : fields) (d : device) : device * fields * completion :=
  let (m, updated) := wasAPKUpdated d m in
  if updated then
    match copyNodeJsAssets throws m d with
    | None => (d, m, CompletedExceptionally)
    | Some d => (d, m, Completed)
    end
  else (d, m, Completed).

(** The application is launched: a new module instance initialises. *)
Definition launch (throws : bool) (d : device) : device * completion :=
  let '(d, _, result) := asyncInit throws new_module d in (d, result).

End Assets.

(** ** The coroutines of the start functions ([waitForInit],
    [initCompletionDeferred], [moduleScope] and [OnDestroy] of the Android
    module) *)

Module Startup.
Import Launcher.

(** The process, as far as starting the runtime goes: the companion object
    with the coroutines launched; [initCompletionDeferred] of the module
    instances that have completed it; the module instances whose [moduleScope]
    was cancelled; the coroutines (by their place in [launched]) that have
    left [waitForInit]; and the calls of [startNodeWithArguments]. *)
Record process : Type := {
  companion_object : companion;
  completed : list (nat * Assets.completion);
  cancelled : list nat;
  resumed : list nat;
  started : list native_start
}.

Definition booted : process :=
  {| companion_object := created; completed := []; cancelled := []; resumed := [];
     started := [] |}.

(** [initCompletionDeferred] of a module instance: [None] while it is not
    completed. *)
Fixpoint initCompletionDeferred (this : nat) (l : list (nat * Assets.completion))
  : option Assets.completion :=
  match l with
  | [] => None
  | (m, result) :: r => if Nat.eqb m this then Some result else initCompletionDeferred this r
  end.

Definition is_cancelled (this : nat) (p : process) : bool :=
  existsb (Nat.eqb this) (cancelled p).

Definition has_resumed (k : nat) (p : process) : bool :=
  existsb (Nat.eqb k) (resumed p).

(** What happens in the process: the application calls a start function of
    the [nodejs] object, which reaches a module instance; [asyncInit] of a
    module instance completes or fails the deferred; a module instance is
    destroyed; the dispatcher runs a coroutine. *)
Inductive event : Type :=
| Call (this : nat) (call : js_call)
| InitEnds (this : nat) (result : Assets.completion)
| Destroy (this : nat)
| Resume (k : nat).

Section Directories.

Variables nodeJsProjectDir builtinModulesDir : string.
Variable project_file : string -> string.

(** The coroutine number [k] gets to run.  Cancelled with its scope, it
    never runs; while the deferred is not completed it stays in [await];
    when the deferred was completed with [Unit] it calls
    [startNodeWithArguments]; when the deferred was completed exceptionally,
    [await] throws and the coroutine ends there (the scope has a
    [SupervisorJob] and no exception handler: the exception goes to the
    handler of the thread, and the other coroutines of the scope go on). *)
Definition resume (k : nat) (p : process) : process :=
  match nth_error (launched (companion_object p)) k with
  | None => p
  | Some co =>
      if (has_resumed k p || is_cancelled (scope co) p)%bool then p
      else
        match initCompletionDeferred (scope co) (completed p) with
        | None => p
        | Some Assets.Completed =>
            {| companion_object := companion_object p; completed := completed p;
               cancelled := cancelled p; resumed := (resumed p ++ [k])%list;
               started := (started p ++ [body co])%list |}
        | Some Assets.CompletedExceptionally =>
            {| companion_object := companion_object p; completed := completed p;
               cancelled := cancelled p; resumed := (resumed p ++ [k])%list;
               started := started p |}
        end
  end.

Definition step (p : process) (e : event) : process :=
  match e with
  | Call this call =>
      {| companion_object :=
           fst (nodejs nodeJsProjectDir builtinModulesDir project_file this call
                  (companion_object p));
         completed := completed p; cancelled := cancelled p; resumed := resumed p;
         started := started p |}
  | InitEnds this result =>
      match initCompletionDeferred this (completed p) with
      | Some _ => p
      | None =>
          {| companion_object := companion_object p;
             completed := (completed p ++ [(this, result)])%list;
             cancelled := cancelled p; resumed := resumed p; started := started p |}
      end
  | Destroy this =>
      {| companion_object := companion_object p; completed := completed p;
         cancelled := (cancelled p ++ [this])%list; resumed := resumed p;
         started := started p |}
  | Resume k => resume k p
  end.

Definition run (p : process) (events : list event) : process := fold_left step events p.

End Directories.

End Startup.

(** * The vocabulary of the properties *)

Import JS.

(** ** Reading back what [JSON.stringify] printed *)

Definition is_digit (c : ascii) : bool :=
  match JSON.digit_value c with Some _ => true | None => false end.

(** A string of digits. *)
Fixpoint all_digits (d : string) : bool :=
  match d with
  | EmptyString => true
  | String c r => (is_digit c && all_digits r)%bool
  end.

(** No digit comes first in [rest]. *)
Definition no_digit_ahead (rest : string) : Prop :=
  match rest with
  | EmptyString => True
  | String c _ => is_digit c = false
  end.

(** Where a number begins. *)
Definition number_start (c : ascii) : bool := (is_digit c || Ascii.eqb c "-")%bool.

(** Where a printed value begins: no white space and no closing bracket. *)
Definition value_start (c : ascii) : bool :=
  (negb (JSON.is_ws c) && negb (Ascii.eqb c "]") && negb (Ascii.eqb c "}"))%bool.

(** The text that may follow a value printed by [JSON.stringify]: nothing, or
    one of the three separators. *)
Definition delimited (rest : string) : Prop :=
  match rest with
  | EmptyString => True
  | String c _ => c = ","%char \/ c = "]"%char \/ c = "}"%char
  end.

(** The calls of the descent that reading a value back takes. *)
Fixpoint cost (v : value) : nat :=
  match v with
  | VArray elems =>
      S ((fix sum (l : list value) : nat :=
            match l with
            | [] => O
            | x :: r => S (cost x + sum r)
            end) elems)
  | VObject props =>
      S ((fix sum (l : list (string * value)) : nat :=
            match l with
            | [] => O
            | kv :: r => S (cost (snd kv) + sum r)
            end) props)
  | _ => 1%nat
  end.

Fixpoint cost_elements (l : list value) : nat :=
  match l with
  | [] => O
  | x :: r => S (cost x + cost_elements r)
  end.

Fixpoint cost_members (l : list (string * value)) : nat :=
  match l with
  | [] => O
  | kv :: r => S (cost (snd kv) + cost_members r)
  end.

(** [t] is a text of [v] that the descent reads back, whatever separator
    follows it. *)
Definition printed (v : value) (t : string) : Prop :=
  (exists c r, t = String c r /\ value_start c = true)
  /\ (cost v <= String.length t)%nat
  /\ forall fuel rest, (cost v <= fuel)%nat -> delimited rest ->
       JSON.parse_value fuel (t ++ rest) = Some (v, rest).

Definition printed_member (kv : string * value) (part : string) : Prop :=
  exists t, part = JSON.quote (fst kv) ++ ":" ++ t /\ printed (snd kv) t.

Definition prints_back (v : value) : Prop :=
  JSON.representable v = true ->
  exists t, JSON.SerializeJSONProperty v = Normal (Some t) /\ printed v t.

(** ** The event lock and the pause event *)

(** The barrier whose callback counts its own calls: constructed with [N]
    locks, then released [k] times. *)
Definition counting_barrier (N : Z) (k : nat) : RnBridge.SystemEventLock nat * nat :=
  let (this, calls) := RnBridge.new_SystemEventLock S N O in RnBridge.releases k this calls.

(** The part of [s] before its first bar, and the part after it when there is
    a bar. *)
Fixpoint before_bar (s : string) : string :=
  match s with
  | EmptyString => EmptyString
  | String c r => if Ascii.eqb c "|" then EmptyString else String c (before_bar r)
  end.

Fixpoint after_bar (s : string) : option string :=
  match s with
  | EmptyString => None
  | String c r => if Ascii.eqb c "|" then Some r else after_bar r
  end.

(** ** The host channel *)

(** The channel after a sequence of calls. *)
Definition after_calls (name : string) (calls : list Host.call) : Host.EventChannel :=
  fold_left Host.apply_call calls (Host.new_EventChannel name).

(** The subscription lives exactly while the count is positive. *)
Definition subscribed_iff_counted (this : Host.EventChannel) : Prop :=
  match Host.subscription this with
  | Some _ => 1 <= Host.listenerCount this
  | None => Host.listenerCount this <= 0
  end.

(** Every [remove()] is the first one on a subscription that was handed out. *)
Fixpoint disciplined (this : Host.EventChannel) (calls : list Host.call) : bool :=
  match calls with
  | [] => true
  | c :: rest =>
      match c with
      | Host.AddListener _ => true
      | Host.Remove handle =>
          existsb (fun l => Nat.eqb (fst l) handle) (Host.registered this)
      end && disciplined (Host.apply_call this c) rest
  end.

(** The count is the number of the listeners of the emitter, whose handles are
    distinct and below the next handle. *)
Definition counted (this : Host.EventChannel) : Prop :=
  Host.listenerCount this = Z.of_nat (List.length (Host.registered this))
  /\ NoDup (map fst (Host.registered this))
  /\ (forall h, In h (map fst (Host.registered this)) -> (h < Host.handles this)%nat).

(** ** What the listeners hear, and in which order *)

Module Deferred.



Section Embedded.
Import RnBridge.







End Embedded.


Section OnHost.
Import Host.

Definition host_heard_of (e : emission) : string * list value :=
  (em_event e, em_payload e).




(** The host listens all along [trace]: each message of the embedded side
    arrives when the runtime was started from a module instance, and each turn
    of the main dispatcher finds the native subscription active. *)
Fixpoint attentive (h : host) (trace : list input) : bool :=
  match trace with
  | [] => true
  | i :: rest =>
      match i with
      | FromNode _ _ => instance (android h)
      | MainTurn => match subscription (channel h) with Some _ => true | None => false end
      | _ => true
      end && attentive (step h i) rest
  end.


End OnHost.

End Deferred.

(** ** Readiness *)

Definition ready (h : Host.host) : bool := Host.nodeIsReadyForAppEvents (Host.android h).

(** What the host has sent on the system channel of the embedded side. *)
Definition system_traffic (h : Host.host) : list (string * string) :=
  filter (fun m => String.eqb (fst m) Host.SYSTEM_CHANNEL) (Host.to_node (Host.android h)).

(** The channel a queued closure emits on. *)
Definition closure_channel (f : RnBridge.closure) : string :=
  match f with
  | RnBridge.EmitClosure channel _ _ => channel
  | RnBridge.PauseClosure channel _ => channel
  end.

(** Nothing of the system channel is emitted or queued on the embedded side. *)
Definition lifecycle_quiet (st : RnBridge.runtime) : Prop :=
  Forall (fun e => RnBridge.em_channel e <> RnBridge.SYSTEM_CHANNEL) (RnBridge.emitted st)
  /\ Forall (fun f => closure_channel f <> RnBridge.SYSTEM_CHANNEL) (RnBridge.immediates st).

(** While the host is not ready: it has sent nothing on the system channel,
    and the embedded side has heard and queued nothing of it. *)
Definition gated (b : Bridge.bridge) : Prop :=
  Host.name (Host.channel (Bridge.host b)) = Host.EVENT_CHANNEL
  /\ (ready (Bridge.host b) = false ->
      system_traffic (Bridge.host b) = [] /\ lifecycle_quiet (Bridge.node b)).

(** ** The attachment cache *)

Section AttachmentVocabulary.
Import AttachmentCache.

(** The threads the cache has attached. *)
Definition attached (c : cache) : nat := List.length (filter tls_attached (threads c)).

(** Between two calls: no thread is inside the function, and a thread the
    cache attached has its environment cached. *)
Definition at_rest (t : thread) : Prop :=
  match at_ t with Outside | Returned _ => True | _ => False end
  /\ (tls_attached t = true -> tls_env t <> None).

Definition bounded (c : cache) : Prop :=
  cached_jvm c = true
  /\ Forall at_rest (threads c)
  /\ attached_thread_count c = Z.of_nat (attached c)
  /\ 0 <= attached_thread_count c <= MAX_ATTACHED_THREADS
  /\ attached_thread_count c <= peak_attached_threads c.

(** What a whole call makes of a thread at rest and of the two counters. *)
Definition outcome (id : nat) (t : thread) (c : cache) : thread * Z * Z :=
  let count := attached_thread_count c in
  let peak := peak_attached_threads c in
  match tls_env t with
  | Some env => (move t (Returned (Env env)), count, peak)
  | None =>
      if negb (cached_jvm c) then (move t (Returned NoJavaVM), count, peak)
      else
        match status t with
        | JNI_OK =>
            ({| tls_env := Some id; tls_attached := false; status := JNI_OK;
                attach_succeeds := attach_succeeds t; at_ := Returned (Env id) |},
             count, peak)
        | JNI_EDETACHED =>
            if count >=? MAX_ATTACHED_THREADS
            then (move t (Returned AttachmentRefused), count, peak)
            else if attach_succeeds t
            then ({| tls_env := Some id; tls_attached := true; status := JNI_OK;
                     attach_succeeds := attach_succeeds t; at_ := Returned (Env id) |},
                  count + 1, Z.max peak (count + 1))
            else (move t (Returned AttachmentFailed), count, peak)
        | JNI_EVERSION => (move t (Returned AttachmentFailed), count, peak)
        end
  end.

End AttachmentVocabulary.

(** Forty threads enter [get_jni_env] and read the count before any of them
    has added to it; then each goes on to the end. *)
Definition racing_schedule : list nat :=
  (seq 0 40 ++ flat_map (fun id => repeat id 4) (seq 0 40))%list.

(** The count, the peak, the calls that returned an environment and the calls
    that were refused. *)
Definition tally (c : AttachmentCache.cache) : Z * Z * nat * nat :=
  (AttachmentCache.attached_thread_count c, AttachmentCache.peak_attached_threads c,
   List.length (filter AttachmentCache.succeeded (AttachmentCache.threads c)),
   List.length (filter AttachmentCache.refused (AttachmentCache.threads c))).

(** ** What the codec prints and what it keeps *)

(** No [BigInt] anywhere in the value. *)
Fixpoint bigint_free (v : value) : bool :=
  match v with
  | VBigInt _ => false
  | VArray elems => forallb bigint_free elems
  | VObject props => forallb (fun kv => bigint_free (snd kv)) props
  | _ => true
  end.

(** A value [JSON.stringify] prints, with or without loss: as
    [JSON.representable], but [undefined] and every number may occur. *)
Fixpoint printable (v : value) : bool :=
  match v with
  | VUndefined => true
  | VNull => true
  | VBool _ => true
  | VNumber n => canonical n
  | VBigInt _ => false
  | VString _ => true
  | VArray elems => forallb printable elems
  | VObject props =>
      JSON.distinct (map fst props) && JSON.enumerated (map fst props)
      && forallb (fun kv => printable (snd kv)) props
  end.

(** What JSON text keeps of a value: [undefined] becomes [null] as an element
    of an array, and a property that holds [undefined] is left out; a number
    that is not finite becomes [null], and the negative zero becomes zero. *)
Fixpoint kept (v : value) : value :=
  match v with
  | VUndefined => VNull
  | VNumber n =>
      if is_finite n then (if is_zero n then VNumber (Finite false 0 (-1074)) else v)
      else VNull
  | VArray elems => VArray (map kept elems)
  | VObject props =>
      VObject (flat_map (fun kv => match snd kv with
                                   | VUndefined => []
                                   | _ => [(fst kv, kept (snd kv))]
                                   end) props)
  | _ => v
  end.

Definition kept_members (props : list (string * value)) : list (string * value) :=
  flat_map (fun kv => match snd kv with
                      | VUndefined => []
                      | _ => [(fst kv, kept (snd kv))]
                      end) props.

(** A printable value is printed, and the text is read back as what is kept
    of it; [undefined] alone has no text of its own. *)
Definition prints_kept (v : value) : Prop :=
  printable v = true ->
  match v with
  | VUndefined => JSON.SerializeJSONProperty v = Normal None
  | _ => exists t, JSON.SerializeJSONProperty v = Normal (Some t) /\ printed (kept v) t
  end.

(** ** The embedded runtime over time *)

(** Two states of the runtime that differ in the console at most. *)
Definition same_but_console (a b : RnBridge.runtime) : Prop :=
  RnBridge.channels a = RnBridge.channels b
  /\ RnBridge.listeners a = RnBridge.listeners b
  /\ RnBridge.immediates a = RnBridge.immediates b
  /\ RnBridge.locks a = RnBridge.locks b
  /\ RnBridge.sent a = RnBridge.sent b
  /\ RnBridge.emitted a = RnBridge.emitted b
  /\ RnBridge.uncaught a = RnBridge.uncaught b.

(** What the embedded side has sent on the system channel. *)
Definition system_sent (st : RnBridge.runtime) : list (string * string) :=
  filter (fun m => String.eqb (fst m) RnBridge.SYSTEM_CHANNEL) (RnBridge.sent st).

(** The event locks that have called their callback. *)
Definition released_locks (st : RnBridge.runtime)
  : list (RnBridge.SystemEventLock RnBridge.outbox) :=
  filter (@RnBridge._hasReleased RnBridge.outbox) (RnBridge.locks st).

(** The emissions of [pause] that carried an event lock. *)
Definition carries_lock (e : RnBridge.emission) : bool :=
  match RnBridge.em_args e with RnBridge.LockArg _ => true | RnBridge.Args _ => false end.

(** What holds of the runtime at any time after loading. *)
Definition accounted (st : RnBridge.runtime) : Prop :=
  RnBridge.channels st = RnBridge.channels RnBridge.loaded
  /\ Forall (fun f => match f with
                      | RnBridge.PauseClosure name _ => name = RnBridge.SYSTEM_CHANNEL
                      | RnBridge.EmitClosure _ _ _ => True
                      end) (RnBridge.immediates st)
  /\ Forall (fun l => exists message,
                 RnBridge._callback l = RnBridge.sendMessage RnBridge.SYSTEM_CHANNEL message)
       (RnBridge.locks st)
  /\ List.length (system_sent st) = S (List.length (released_locks st))
  /\ List.length (RnBridge.locks st)
     = List.length (filter carries_lock (RnBridge.emitted st)).

(** ** The calls on the host channel, counted *)

Definition is_addListener (c : Host.call) : bool :=
  match c with Host.AddListener _ => true | Host.Remove _ => false end.

(** The calls of [addListener] and the calls of [remove()] among [calls]. *)
Definition added (calls : list Host.call) : Z :=
  Z.of_nat (List.length (filter is_addListener calls)).

Definition removed (calls : list Host.call) : Z :=
  Z.of_nat (List.length (filter (fun c => negb (is_addListener c)) calls)).

(** ** Starting the runtime *)

(** The character [c] occurs in [s]. *)
Fixpoint occurs (c : ascii) (s : string) : bool :=
  match s with
  | EmptyString => false
  | String x r => (Ascii.eqb x c || occurs c r)%bool
  end.

(** The argument of a call on the [nodejs] object. *)
Definition argument (call : Launcher.js_call) : value :=
  match call with
  | Launcher.Start mainFileName _ => mainFileName
  | Launcher.StartWithArgs command _ => command
  | Launcher.StartWithScript script _ => script
  end.

Definition options_of (call : Launcher.js_call) : option Launcher.NodeJsOptions :=
  match call with
  | Launcher.Start _ options => options
  | Launcher.StartWithArgs _ options => options
  | Launcher.StartWithScript _ options => options
  end.

(** The calls of the start functions among the events of the process. *)
Definition calls_of (events : list Startup.event) : list (nat * Launcher.js_call) :=
  flat_map (fun e => match e with
                     | Startup.Call this call => [(this, call)]
                     | _ => []
                     end) events.

(** The coroutines and the native starts of a process agree: before the first
    launch nothing has resumed or started; afterwards there is the one
    coroutine, which either has not left [waitForInit], or has left it after
    the initialisation of its module instance completed and has made its
    native call, or has left it with the exception of the initialisation and
    has made no call. *)
Definition started_in_order (p : Startup.process) : Prop :=
  let c := Startup.companion_object p in
  match Launcher.launched c with
  | [] => Launcher.startedNodeAlready c = false
          /\ Startup.resumed p = [] /\ Startup.started p = []
  | [co] =>
      Launcher.startedNodeAlready c = true
      /\ ((Startup.resumed p = [] /\ Startup.started p = [])
          \/ (Startup.resumed p = [O]
              /\ match Startup.initCompletionDeferred (Launcher.scope co) (Startup.completed p) with
                 | Some Assets.Completed => Startup.started p = [Launcher.body co]
                 | Some Assets.CompletedExceptionally => Startup.started p = []
                 | None => False
                 end))
  | _ => False
  end.

(** ** The block of the arguments *)

(** The string a pointer points to: the bytes up to the terminator. *)
Fixpoint c_string (block : list Byte.byte) (p : nat) : option (list Byte.byte) :=
  match block, p with
  | [], _ => None
  | _ :: r, S p' => c_string r p'
  | b :: r, O => if Byte.eqb b Argv.NUL then Some [] else option_map (cons b) (c_string r O)
  end.

(** The bytes of [s] before its first [NUL]. *)
Fixpoint until_nul (s : list Byte.byte) : list Byte.byte :=
  match s with
  | [] => []
  | b :: r => if Byte.eqb b Argv.NUL then [] else b :: until_nul r
  end.

(** The bytes the arguments take, each with its terminator. *)
Definition laid_out (arguments : list (list Byte.byte)) : list Byte.byte :=
  flat_map (fun s => until_nul s ++ [Argv.NUL])%list arguments.

(** Where each argument begins when the first begins at [p]. *)
Fixpoint starts (p : nat) (arguments : list (list Byte.byte)) : list nat :=
  match arguments with
  | [] => []
  | s :: rest => p :: starts (p + List.length (until_nul s) + 1) rest
  end.

(** No byte of [s] is the terminator. *)
Definition nul_free (s : list Byte.byte) : Prop :=
  Forall (fun b => Byte.eqb b Argv.NUL = false) s.

(** The bytes all arguments take. *)
Definition size_of (arguments : list (list Byte.byte)) : Z :=
  Z.of_nat (List.length (laid_out arguments)).

(** ** The attachment cache over time *)

(** The largest count on the way from [c] along [events]. *)
Fixpoint high_water (c : AttachmentCache.cache) (events : list AttachmentCache.event) : Z :=
  match events with
  | [] => AttachmentCache.attached_thread_count c
  | e :: rest =>
      Z.max (AttachmentCache.attached_thread_count c)
            (high_water (AttachmentCache.happen c e) rest)
  end.

(** A native thread as the cache meets it: detached until the cache attaches
    it, attached and cached from then on until it exits. *)
Definition native_thread (t : AttachmentCache.thread) : Prop :=
  AttachmentCache.attach_succeeds t = true
  /\ match AttachmentCache.tls_env t with
     | None => AttachmentCache.status t = AttachmentCache.JNI_EDETACHED
               /\ AttachmentCache.tls_attached t = false
     | Some _ => AttachmentCache.status t = AttachmentCache.JNI_OK
                 /\ AttachmentCache.tls_attached t = true
     end.

(** The cache after whole calls and exits of [n] native threads. *)
Definition in_turn (n : nat) (events : list AttachmentCache.event) : AttachmentCache.cache :=
  fold_left AttachmentCache.happen events (AttachmentCache.started n).

(** A thread the cache attached and whose [fetch_add] has run. *)
Definition counted_in (t : AttachmentCache.thread) : bool :=
  (AttachmentCache.tls_attached t
   && match AttachmentCache.at_ t with
      | AttachmentCache.BeforeFetchAdd _ => false
      | _ => true
      end)%bool.

(** What holds of a thread wherever it stands in [get_jni_env], when the
    count is [count]: it is attached only with an environment, it has none
    before the attachment and is attached after it, and the count it holds in
    a local is not above the count. *)
Definition placed (count : Z) (t : AttachmentCache.thread) : Prop :=
  (AttachmentCache.tls_env t = None -> AttachmentCache.tls_attached t = false)
  /\ match AttachmentCache.at_ t with
     | AttachmentCache.BeforeAttach => AttachmentCache.tls_env t = None
     | AttachmentCache.BeforeFetchAdd _ => AttachmentCache.tls_attached t = true
     | AttachmentCache.BeforePeakLoad _ current_count => current_count <= count
     | AttachmentCache.BeforeCas _ current_count _ => current_count <= count
     | _ => True
     end.

(** The count is the number of the threads counted in, whatever the
    interleaving, and the peak is not above it while no thread exits. *)
Definition tallied (c : AttachmentCache.cache) : Prop :=
  AttachmentCache.attached_thread_count c
  = Z.of_nat (List.length (filter counted_in (AttachmentCache.threads c)))
  /\ Forall (placed (AttachmentCache.attached_thread_count c)) (AttachmentCache.threads c)
  /\ AttachmentCache.peak_attached_threads c <= AttachmentCache.attached_thread_count c.

(** * Properties *)

(** ** JSON text is read back *)

(** *** Strings *)

Lemma append_assoc (a b c : string) : (a ++ b) ++ c = a ++ (b ++ c).
Proof. induction a as [|x a IH]; simpl; [reflexivity | now rewrite IH]. Qed.

Lemma length_append (a b : string) :
  String.length (a ++ b) = (String.length a + String.length b)%nat.
Proof. induction a as [|x a IH]; simpl; [reflexivity | now rewrite IH]. Qed.

(** One escaped code unit is read back as that code unit. *)
Lemma parse_escape_char (c : ascii) (tail : string) :
  JSON.parse_string_body (JSON.escape_char c ++ tail)
  = JSON.cons_char c (JSON.parse_string_body tail).
Proof.
  destruct c as [[] [] [] [] [] [] [] []]; reflexivity.
Qed.

Lemma parse_escape (s rest : string) :
  JSON.parse_string_body (JSON.escape s ++ String JSON.dquote rest) = Some (s, rest).
Proof.
  induction s as [|c s IH]; simpl.
  - reflexivity.
  - rewrite append_assoc, parse_escape_char, IH. reflexivity.
Qed.

(** *** Numbers: the nearest value *)

Lemma canonical_bounds (s : bool) (m e : Z) :
  canonical (Finite s m e) = true ->
  0 <= m < 2 ^ 53 /\ -1074 <= e <= 971 /\ (2 ^ 52 <= m \/ e = -1074).
Proof.
  unfold canonical. rewrite !andb_true_iff, orb_true_iff.
  rewrite !Z.leb_le, Z.ltb_lt, Z.eqb_eq. tauto.
Qed.

Lemma max_sub (e : Z) : Z.max 0 e - Z.max 0 (- e) = e.
Proof. lia. Qed.

(** A value that a binary64 holds is its own nearest value, whatever the
    fraction that writes it. *)
Lemma nearest_exact (m e p q : Z) :
  canonical (Finite false m e) = true -> 0 < m -> 0 < q ->
  p * 2 ^ Z.max 0 (- e) = m * 2 ^ Z.max 0 e * q ->
  nearest_magnitude p q = Some (m, e).
Proof.
  intros Hcan Hm Hq Hpq.
  apply canonical_bounds in Hcan as (Hm53 & He & Hnorm).
  set (a := Z.max 0 (- e)) in *. set (b := Z.max 0 e) in *.
  assert (Ha : 0 <= a) by lia. assert (Hb : 0 <= b) by lia.
  assert (Hab : b - a = e) by (unfold a, b; lia).
  assert (H2a : 0 < 2 ^ a) by (apply Z.pow_pos_nonneg; lia).
  assert (H2b : 0 < 2 ^ b) by (apply Z.pow_pos_nonneg; lia).
  assert (Hp : 0 < p) by nia.
  (* the logarithms *)
  assert (Hlog : Z.log2 m + e <= Z.log2 p - Z.log2 q <= Z.log2 m + e + 1).
  { assert (H1 : Z.log2 (p * 2 ^ a) = a + Z.log2 p) by (apply Z.log2_mul_pow2; lia).
    assert (H2 : Z.log2 (m * 2 ^ b) = b + Z.log2 m) by (apply Z.log2_mul_pow2; lia).
    assert (H3 : Z.log2 (m * 2 ^ b) + Z.log2 q <= Z.log2 (m * 2 ^ b * q))
      by (apply Z.log2_mul_below; nia).
    assert (H4 : Z.log2 (m * 2 ^ b * q) <= Z.log2 (m * 2 ^ b) + Z.log2 q + 1)
      by (apply Z.log2_mul_above; nia).
    rewrite <- Hpq, H1 in H3, H4. lia. }
  assert (Hlm : Z.log2 m <= 52).
  { assert (Z.log2 m < 53) by (apply Z.log2_lt_pow2; lia). lia. }
  assert (Hlm0 : 0 <= Z.log2 m) by apply Z.log2_nonneg.
  unfold nearest_magnitude.
  replace (p =? 0) with false by (symmetry; apply Z.eqb_neq; lia).
  set (k := Z.max 0 (Z.log2 q - Z.log2 p + 56)).
  assert (Hk : 0 <= k) by lia.
  assert (Hek : 3 <= e + k) by lia.
  assert (H2k : 0 < 2 ^ k) by (apply Z.pow_pos_nonneg; lia).
  assert (H2ek : 0 < 2 ^ (e + k)) by (apply Z.pow_pos_nonneg; lia).
  assert (Hunits : p * 2 ^ k = m * 2 ^ (e + k) * q).
  { apply (Z.mul_reg_r _ _ (2 ^ a)); [lia|].
    replace (p * 2 ^ k * 2 ^ a) with (p * 2 ^ a * 2 ^ k) by ring.
    rewrite Hpq.
    replace (m * 2 ^ (e + k) * q * 2 ^ a) with (m * (2 ^ (e + k) * 2 ^ a) * q) by ring.
    rewrite <- Z.pow_add_r by lia. replace (e + k + a) with (b + k) by lia.
    rewrite Z.pow_add_r by lia. ring. }
  rewrite Hunits. rewrite Z.div_mul by lia. rewrite Z.mod_mul by lia.
  cbv zeta.
  assert (Hlu : Z.log2 (m * 2 ^ (e + k)) = e + k + Z.log2 m) by (apply Z.log2_mul_pow2; lia).
  rewrite Hlu.
  assert (HE : Z.max (e + k + Z.log2 m - 52) (k - 1074) = e + k).
  { destruct Hnorm as [Hn | ->]; [|lia].
    assert (52 <= Z.log2 m) by (apply Z.log2_le_pow2; lia). lia. }
  rewrite HE. rewrite Z.div_mul by lia. rewrite Z.mod_mul by lia.
  assert (Hhalf : 0 < 2 ^ (e + k - 1)) by (apply Z.pow_pos_nonneg; lia).
  replace (0 <? 2 ^ (e + k - 1)) with true by (symmetry; apply Z.ltb_lt; lia).
  replace (m =? 2 ^ 53) with false by (symmetry; apply Z.eqb_neq; lia).
  replace (971 <? e + k - k) with false by (symmetry; apply Z.ltb_ge; lia).
  f_equal. f_equal. lia.
Qed.

Lemma number_eqb_eq (x y : number) : number_eqb x y = true -> x = y.
Proof.
  destruct x as [|a|a m e], y as [|b|b m' e']; simpl; try discriminate; try reflexivity.
  - intros H. apply Bool.eqb_prop in H. now subst.
  - rewrite !andb_true_iff, !Z.eqb_eq. intros [[H ->] ->].
    apply Bool.eqb_prop in H. now subst.
Qed.

(** The sign of the nearest value is the sign given. *)
Lemma nearest_sign (s : bool) (p q m e : Z) :
  nearest false p q = Finite false m e -> nearest s p q = Finite s m e.
Proof.
  unfold nearest. destruct (nearest_magnitude p q) as [[m' e']|]; [|discriminate].
  intros H. injection H as -> ->. reflexivity.
Qed.

Lemma reads_as_nearest (m e s q : Z) :
  JSON.reads_as m e s q = true ->
  nearest false (s * 10 ^ Z.max 0 q) (10 ^ Z.max 0 (- q)) = Finite false m e.
Proof. unfold JSON.reads_as. apply number_eqb_eq. Qed.

Lemma reads_as_positive (m e s q : Z) :
  0 < m -> 0 <= s -> JSON.reads_as m e s q = true -> 0 < s.
Proof.
  intros Hm Hs H. destruct (Z.eq_dec s 0) as [->|]; [|lia].
  apply reads_as_nearest in H. unfold nearest, nearest_magnitude in H. simpl in H.
  injection H as <- _. lia.
Qed.

Lemma pow10_split (n : Z) : 0 <= n -> 10 ^ n = 2 ^ n * 5 ^ n.
Proof. intros H. rewrite <- Z.pow_mul_l. reflexivity. Qed.

(** Where the decimal expansion of [m * 2^e] ends, the quotient is exact. *)
Lemma over_power_of_ten_exact (m e q : Z) :
  0 < m -> q <= Z.min 0 e ->
  let (num, den) := JSON.over_power_of_ten m e q in
  0 < den /\ num = num / den * den /\ 0 < num
  /\ num = m * 2 ^ Z.max 0 e * 10 ^ Z.max 0 (- q)
  /\ den = 2 ^ Z.max 0 (- e).
Proof.
  intros Hm Hq. unfold JSON.over_power_of_ten.
  replace (Z.max 0 q) with 0 by lia. rewrite Z.pow_0_r, Z.mul_1_r.
  assert (H2 : 0 < 2 ^ Z.max 0 (- e)) by (apply Z.pow_pos_nonneg; lia).
  assert (H2' : 0 < 2 ^ Z.max 0 e) by (apply Z.pow_pos_nonneg; lia).
  assert (H10 : 0 < 10 ^ Z.max 0 (- q)) by (apply Z.pow_pos_nonneg; lia).
  split; [exact H2|]. split; [|split; [nia | split; reflexivity]].
  assert (Hdiv : exists c, m * 2 ^ Z.max 0 e * 10 ^ Z.max 0 (- q) = c * 2 ^ Z.max 0 (- e)).
  { destruct (Z.le_gt_cases 0 e) as [He | He].
    - replace (Z.max 0 (- e)) with 0 by lia. rewrite Z.pow_0_r. eexists. now rewrite Z.mul_1_r.
    - replace (Z.max 0 e) with 0 by lia. replace (Z.max 0 (- e)) with (- e) by lia.
      replace (Z.max 0 (- q)) with (- e + (e - q)) by lia.
      rewrite Z.pow_add_r by lia. rewrite (pow10_split (- e)) by lia.
      exists (m * 5 ^ (- e) * 10 ^ (e - q)). rewrite Z.pow_0_r. ring. }
  destruct Hdiv as (c & ->). rewrite Z.div_mul by lia. reflexivity.
Qed.

(** The search of Number::toString ends with digits that are read back as
    the number. *)
Lemma shortest_reads (m e : Z) (fuel : nat) (q0 : Z) :
  canonical (Finite false m e) = true -> 0 < m ->
  q0 - Z.of_nat fuel <= Z.min 0 e ->
  let (s, q) := JSON.shortest fuel m e q0 in
  0 < s /\ JSON.reads_as m e s q = true.
Proof.
  intros Hcan Hm. revert q0.
  assert (Hbelow : forall q, 0 <= fst (JSON.over_power_of_ten m e q)
                                   / snd (JSON.over_power_of_ten m e q)).
  { intros q. unfold JSON.over_power_of_ten. cbn [fst snd].
    apply Z.div_pos.
    - apply Z.mul_nonneg_nonneg; [apply Z.mul_nonneg_nonneg|]; try lia;
        apply Z.pow_nonneg; lia.
    - apply Z.mul_pos_pos; apply Z.pow_pos_nonneg; lia. }
  induction fuel as [|fuel IH]; intros q0 Hq0.
  - (* the decimal expansion is exact here *)
    pose proof (over_power_of_ten_exact m e q0 Hm ltac:(lia)) as Hex.
    cbn [JSON.shortest]. destruct (JSON.over_power_of_ten m e q0) as [num den].
    destruct Hex as (Hden & Hnum & Hpos & En & Ed).
    assert (Hs : 0 < num / den).
    { destruct (Z.le_gt_cases (num / den) 0) as [H|H]; [|exact H].
      assert (num / den * den <= 0) by nia. lia. }
    split; [exact Hs|].
    unfold JSON.reads_as.
    replace (Z.max 0 q0) with 0 by lia. rewrite Z.pow_0_r, Z.mul_1_r.
    unfold nearest.
    rewrite (nearest_exact m e (num / den) (10 ^ Z.max 0 (- q0)) Hcan Hm).
    + simpl. now rewrite !Z.eqb_refl.
    + apply Z.pow_pos_nonneg; lia.
    + rewrite <- Ed, <- Hnum, En. reflexivity.
  - specialize (Hbelow q0). cbn [JSON.shortest].
    destruct (JSON.over_power_of_ten m e q0) as [num den]. cbn [fst snd] in Hbelow.
    destruct (JSON.reads_as m e (num / den) q0) eqn:Elo;
      destruct (JSON.reads_as m e (num / den + 1) q0) eqn:Ehi; cbn [andb].
    + destruct (2 * (num mod den) ?= den).
      * destruct (Z.even (num / den)); (split; [|assumption]);
          eauto using reads_as_positive; lia.
      * split; [eauto using reads_as_positive | assumption].
      * split; [lia | assumption].
    + split; [eauto using reads_as_positive | assumption].
    + split; [lia | assumption].
    + apply IH. lia.
Qed.

(** *** Numbers: digits *)

Lemma scan_digits_app (d rest : string) :
  all_digits d = true -> no_digit_ahead rest -> JSON.scan_digits (d ++ rest) = (d, rest).
Proof.
  intros Hd Hrest. induction d as [|c d IH]; simpl.
  - destruct rest as [|c r]; [reflexivity|]. simpl in *. unfold is_digit in Hrest.
    destruct (JSON.digit_value c); [discriminate | reflexivity].
  - simpl in Hd. apply andb_true_iff in Hd as [Hc Hd]. unfold is_digit in Hc.
    destruct (JSON.digit_value c); [|discriminate]. now rewrite IH.
Qed.

Lemma delimited_no_digit (rest : string) : delimited rest -> no_digit_ahead rest.
Proof.
  destruct rest as [|c r]; simpl; [trivial|]. intros [-> | [-> | ->]]; reflexivity.
Qed.

Lemma all_digits_app (a b : string) :
  all_digits (a ++ b) = (all_digits a && all_digits b)%bool.
Proof. induction a as [|c a IH]; simpl; [reflexivity | now rewrite IH, andb_assoc]. Qed.

Lemma all_digits_digits (u : uint) : all_digits (JSON.digits u) = true.
Proof. induction u; simpl; auto. Qed.

Lemma all_digits_decimal (n : Z) : all_digits (JSON.decimal n) = true.
Proof. apply all_digits_digits. Qed.

Lemma all_digits_zeros (j : nat) : all_digits (JSON.zeros j) = true.
Proof. induction j; simpl; auto. Qed.

Lemma length_zeros (j : nat) : String.length (JSON.zeros j) = j.
Proof. induction j; simpl; auto. Qed.

Lemma read_digits_app (sofar : Z) (a b : string) :
  JSON.read_digits sofar (a ++ b) = JSON.read_digits (JSON.read_digits sofar a) b.
Proof. revert sofar. induction a as [|c a IH]; intros sofar; simpl; [reflexivity | apply IH]. Qed.

Ltac digit_values :=
  repeat match goal with
         | |- context [JSON.digit_value ?c] =>
             let v := eval vm_compute in (JSON.digit_value c) in
             change (JSON.digit_value c) with v
         end;
  cbv beta iota.

Lemma read_digits_zeros (sofar : Z) (j : nat) :
  JSON.read_digits sofar (JSON.zeros j) = sofar * 10 ^ Z.of_nat j.
Proof.
  revert sofar. induction j as [|j IH]; intros sofar.
  - simpl. lia.
  - cbn [JSON.zeros JSON.read_digits]. rewrite IH. digit_values.
    rewrite Nat2Z.inj_succ, Z.pow_succ_r by lia. ring.
Qed.

Lemma read_digits_positive (acc : positive) (u : uint) :
  JSON.read_digits (Zpos acc) (JSON.digits u) = Zpos (Pos.of_uint_acc u acc).
Proof.
  revert acc. induction u; intros acc; cbn [JSON.digits JSON.read_digits Pos.of_uint_acc];
    try reflexivity; digit_values; rewrite <- IHu; f_equal; lia.
Qed.

Lemma natural_digits (u : uint) : JSON.natural (JSON.digits u) = Z.of_N (N.of_uint u).
Proof.
  unfold JSON.natural, N.of_uint.
  induction u; cbn [JSON.digits JSON.read_digits Pos.of_uint]; try reflexivity;
    digit_values; try exact IHu;
    match goal with |- JSON.read_digits ?z _ = _ =>
      change z with (Zpos (Z.to_pos z)) end; rewrite read_digits_positive; reflexivity.
Qed.

Lemma natural_decimal (n : Z) : 0 <= n -> JSON.natural (JSON.decimal n) = n.
Proof.
  intros H. unfold JSON.decimal. rewrite natural_digits, Unsigned.of_to. lia.
Qed.

Lemma natural_app_zeros (d : string) (j : nat) :
  JSON.natural (d ++ JSON.zeros j) = JSON.natural d * 10 ^ Z.of_nat j.
Proof. unfold JSON.natural. now rewrite read_digits_app, read_digits_zeros. Qed.

Lemma natural_zeros_app (d : string) (j : nat) :
  JSON.natural (String "0" (JSON.zeros j ++ d)) = JSON.natural d.
Proof.
  unfold JSON.natural. cbn [JSON.read_digits]. digit_values.
  rewrite read_digits_app, read_digits_zeros. reflexivity.
Qed.

Lemma take_drop (j : nat) (s : string) : JSON.take j s ++ JSON.drop j s = s.
Proof.
  revert s. induction j as [|j IH]; intros [|c r]; simpl; try reflexivity. now rewrite IH.
Qed.

Lemma length_drop (j : nat) (s : string) :
  String.length (JSON.drop j s) = (String.length s - j)%nat.
Proof.
  revert s. induction j as [|j IH]; intros [|c r]; simpl; try reflexivity; try lia. apply IH.
Qed.

Lemma all_digits_take (j : nat) (s : string) :
  all_digits s = true -> all_digits (JSON.take j s) = true.
Proof.
  revert s. induction j as [|j IH]; intros [|c r]; simpl; try reflexivity.
  intros H. apply andb_true_iff in H as [-> H]. now apply IH.
Qed.

Lemma all_digits_drop (j : nat) (s : string) :
  all_digits s = true -> all_digits (JSON.drop j s) = true.
Proof.
  revert s. induction j as [|j IH]; intros [|c r]; simpl; try reflexivity; try (intros H; exact H).
  intros H. apply andb_true_iff in H as [_ H]. now apply IH.
Qed.

(** The digits of a number that is not zero begin with a digit that is not
    zero. *)
Lemma decimal_head (n : Z) :
  0 < n ->
  exists c r, JSON.decimal n = String c r /\ is_digit c = true /\ Ascii.eqb c "0" = false.
Proof.
  intros H. unfold JSON.decimal. destruct n as [|p|p]; try lia.
  change (Z.to_N (Z.pos p)) with (N.pos p). change (N.to_uint (N.pos p)) with (Pos.to_uint p).
  pose proof (DecimalPos.Unsigned.to_uint_nonzero p) as Hnz.
  pose proof (DecimalPos.Unsigned.to_of (Pos.to_uint p)) as Hto.
  rewrite DecimalPos.Unsigned.of_to in Hto. change (N.to_uint (N.pos p)) with (Pos.to_uint p) in Hto.
  destruct (Pos.to_uint p) as [|u|u|u|u|u|u|u|u|u|u] eqn:E;
    try (eexists; eexists; repeat split; reflexivity).
  - exfalso. cbn in Hto. discriminate.
  - exfalso. rewrite DecimalFacts.unorm_D0 in Hto. unfold unorm in Hto.
    destruct (nzhead u) eqn:Eu; try discriminate Hto.
    + injection Hto as Hu. subst u. apply Hnz. reflexivity.
    + now apply DecimalFacts.nzhead_nonzero in Eu.
Qed.

Lemma decimal_nonempty (n : Z) :
  exists c r, JSON.decimal n = String c r /\ is_digit c = true.
Proof.
  destruct (Z.lt_ge_cases 0 n) as [H|H].
  - destruct (decimal_head n H) as (c & r & E & Hc & _). eauto.
  - unfold JSON.decimal. replace (Z.to_N n) with 0%N by lia.
    eexists; eexists; split; reflexivity.
Qed.

(** *** Numbers: the text is read back *)

Lemma parse_int_app (c : ascii) (d rest : string) :
  all_digits (String c d) = true -> Ascii.eqb c "0" = false \/ d = EmptyString ->
  no_digit_ahead rest ->
  JSON.parse_int (String c d ++ rest) = Some (String c d, rest).
Proof.
  intros Hd Hc Hrest. unfold JSON.parse_int. rewrite scan_digits_app by assumption.
  destruct d as [|c' d]; [reflexivity|].
  destruct Hc as [-> | Hc]; [reflexivity | discriminate Hc].
Qed.

Lemma parse_fraction_none (rest : string) :
  delimited rest -> JSON.parse_fraction rest = Some (EmptyString, rest).
Proof.
  destruct rest as [|c r]; simpl; [reflexivity|]. intros [-> | [-> | ->]]; reflexivity.
Qed.

Lemma parse_fraction_app (c : ascii) (f rest : string) :
  all_digits (String c f) = true -> no_digit_ahead rest ->
  JSON.parse_fraction (String "." (String c f ++ rest)) = Some (String c f, rest).
Proof.
  intros Hf Hrest. unfold JSON.parse_fraction. change (Ascii.eqb "." ".") with true. cbv iota.
  rewrite scan_digits_app by assumption. reflexivity.
Qed.

Lemma parse_exponent_none (rest : string) :
  delimited rest -> JSON.parse_exponent rest = Some (0, rest).
Proof.
  destruct rest as [|c r]; simpl; [reflexivity|]. intros [-> | [-> | ->]]; reflexivity.
Qed.

Lemma parse_exponent_app (x : Z) (rest : string) :
  delimited rest -> JSON.parse_exponent (JSON.exponent_part x ++ rest) = Some (x, rest).
Proof.
  intros Hrest. unfold JSON.exponent_part.
  destruct (decimal_nonempty (Z.abs x)) as (c & r & E & Hc).
  pose proof (all_digits_decimal (Z.abs x)) as Hall.
  pose proof (natural_decimal (Z.abs x) ltac:(lia)) as Hnat.
  rewrite E in *.
  assert (Hscan : JSON.scan_digits (String c r ++ rest) = (String c r, rest))
    by (apply scan_digits_app; [assumption | now apply delimited_no_digit]).
  destruct (x <? 0) eqn:Ex; cbn [append JSON.parse_exponent];
    change (Ascii.eqb "e" "e") with true; cbn [orb];
    [change (Ascii.eqb "-" "-") with true
    | change (Ascii.eqb "+" "-") with false; change (Ascii.eqb "+" "+") with true];
    cbv iota; change (String c (r ++ rest)) with (String c r ++ rest);
    rewrite Hscan, Hnat; f_equal; f_equal.
  - apply Z.ltb_lt in Ex. lia.
  - apply Z.ltb_ge in Ex. lia.
Qed.

Lemma is_digit_not_point (c : ascii) : is_digit c = true -> Ascii.eqb c "." = false.
Proof. destruct c as [[] [] [] [] [] [] [] []]; simpl; intros H; try reflexivity; discriminate H. Qed.

Lemma length_take (j : nat) (s : string) :
  (j <= String.length s)%nat -> String.length (JSON.take j s) = j.
Proof.
  revert s. induction j as [|j IH]; intros [|c r]; simpl; try reflexivity; try lia.
  intros H. rewrite IH; lia.
Qed.

(** The text Number::toString writes for [s * 10^q] is read back as the
    Number value for [s * 10^q]. *)
Lemma parse_notation (negative : bool) (s q : Z) (rest : string) :
  0 < s -> delimited rest ->
  JSON.parse_unsigned negative (JSON.notation s q ++ rest)
  = Some (VNumber (nearest negative (s * 10 ^ Z.max 0 q) (10 ^ Z.max 0 (- q))), rest).
Proof.
  intros Hs Hrest. unfold JSON.notation.
  destruct (decimal_head s Hs) as (c & r & E & Hc & Hc0).
  pose proof (all_digits_decimal s) as Hall.
  pose proof (natural_decimal s ltac:(lia)) as Hnat.
  pose proof (delimited_no_digit rest Hrest) as Hnd.
  rewrite E in *. set (ds := String c r) in *.
  set (k := Z.of_nat (String.length ds)).
  assert (Hk : 1 <= k) by (unfold k, ds; simpl; lia).
  destruct ((k <=? q + k) && (q + k <=? 21))%bool eqn:EA.
  - (* the digits, then zeros *)
    apply andb_true_iff in EA as [Hq _]. apply Z.leb_le in Hq.
    unfold JSON.parse_unsigned.
    assert (Hint : JSON.parse_int ((ds ++ JSON.zeros (Z.to_nat (q + k - k))) ++ rest)
                   = Some (ds ++ JSON.zeros (Z.to_nat (q + k - k)), rest)).
    { unfold ds. change (String c r ++ ?z) with (String c (r ++ z)).
      apply parse_int_app; [|now left | assumption].
      change (String c (r ++ ?z)) with (String c r ++ z).
      rewrite all_digits_app, all_digits_zeros. fold ds. now rewrite Hall. }
    rewrite Hint, parse_fraction_none, parse_exponent_none by assumption.
    cbn [String.length Z.of_nat]. f_equal. f_equal. f_equal.
    replace (Z.max 0 (0 - 0)) with 0 by lia. replace (Z.max 0 (- (0 - 0))) with 0 by lia.
    replace (Z.max 0 (- q)) with 0 by lia.
    f_equal. rewrite Z.pow_0_r, Z.mul_1_r.
    assert (Eapp : forall t : string, t ++ EmptyString = t)
      by (induction t; simpl; [reflexivity | now f_equal]).
    rewrite Eapp, natural_app_zeros, Hnat. f_equal. f_equal. lia.
  - destruct ((0 <? q + k) && (q + k <=? 21))%bool eqn:EB.
    + (* the point inside the digits *)
      apply andb_true_iff in EB as [Hn Hn21]. apply Z.ltb_lt in Hn.
      assert (Hq : q < 0).
      { apply andb_false_iff in EA as [H | H]; [apply Z.leb_gt in H; lia | congruence]. }
      set (j := Z.to_nat (q + k)).
      assert (Hj : (1 <= j < String.length ds)%nat). { unfold j, k in *. lia. }
      assert (Htake : exists t, JSON.take j ds = String c t).
      { unfold ds. destruct j as [|j']; [lia|]. simpl. eauto. }
      destruct Htake as (t & Et).
      assert (Hdrop : exists c' f, JSON.drop j ds = String c' f).
      { pose proof (length_drop j ds) as Hl.
        destruct (JSON.drop j ds) as [|c' f]; [|eauto].
        change (String.length EmptyString) with O in Hl. lia. }
      destruct Hdrop as (c' & f & Ef).
      pose proof (all_digits_take j ds Hall) as Htd.
      pose proof (all_digits_drop j ds Hall) as Hdd.
      pose proof (take_drop j ds) as Htdeq.
      pose proof (length_drop j ds) as Hld.
      rewrite Et in *. rewrite Ef in *.
      unfold JSON.parse_unsigned.
      rewrite append_assoc.
      rewrite parse_int_app; [|assumption | now left | reflexivity].
      cbn [append].
      change (String "." (String c' (f ++ rest))) with (String "." (String c' f ++ rest)).
      rewrite parse_fraction_app by assumption.
      rewrite parse_exponent_none by assumption.
      f_equal. f_equal. f_equal.
      change (String c (t ++ String c' f)) with (String c t ++ String c' f).
      rewrite Htdeq, Hnat.
      replace (0 - Z.of_nat (String.length (String c' f))) with q by (unfold k, j in *; lia).
      reflexivity.
    + destruct ((-6 <? q + k) && (q + k <=? 0))%bool eqn:EC.
      * (* zero, the point, zeros and the digits *)
        apply andb_true_iff in EC as [_ Hn]. apply Z.leb_le in Hn.
        unfold JSON.parse_unsigned. cbn [append].
        assert (Hint : JSON.parse_int
                         (String "0" (String "." ((JSON.zeros (Z.to_nat (- (q + k))) ++ ds)
                                                    ++ rest)))
                       = Some ("0", String "." ((JSON.zeros (Z.to_nat (- (q + k))) ++ ds)
                                                  ++ rest))).
        { change (String "0" ?x) with ("0" ++ x).
          apply parse_int_app; [reflexivity | now right | reflexivity]. }
        rewrite Hint.
        assert (Hfrac : exists c' f, JSON.zeros (Z.to_nat (- (q + k))) ++ ds = String c' f).
        { destruct (Z.to_nat (- (q + k))); simpl; unfold ds; eauto. }
        destruct Hfrac as (c' & f & Ef).
        assert (Hfd : all_digits (String c' f) = true)
          by (rewrite <- Ef, all_digits_app, all_digits_zeros; exact Hall).
        assert (Hlen : Z.of_nat (String.length (String c' f)) = - (q + k) + k).
        { rewrite <- Ef, length_append, length_zeros. unfold k. lia. }
        assert (Hval : JSON.natural ("0" ++ String c' f) = s).
        { rewrite <- Ef. cbn [append]. now rewrite natural_zeros_app. }
        rewrite Ef.
        rewrite parse_fraction_app by assumption.
        rewrite parse_exponent_none by assumption.
        f_equal. f_equal. f_equal. rewrite Hval.
        replace (0 - Z.of_nat (String.length (String c' f))) with q by lia.
        reflexivity.
      * (* the scientific notation *)
        unfold ds. destruct r as [|c' f].
        -- unfold JSON.parse_unsigned. cbn [append].
           assert (Hint : JSON.parse_int (String c (JSON.exponent_part (q + k - 1) ++ rest))
                          = Some (String c EmptyString, JSON.exponent_part (q + k - 1) ++ rest)).
           { change (String c ?x) with (String c EmptyString ++ x).
             apply parse_int_app; [assumption | now right | reflexivity]. }
           rewrite Hint.
           change (JSON.parse_fraction (JSON.exponent_part (q + k - 1) ++ rest))
             with (Some (EmptyString, JSON.exponent_part (q + k - 1) ++ rest)).
           cbv iota beta. rewrite parse_exponent_app by assumption.
           f_equal. f_equal. f_equal.
           cbn [append]. fold ds. rewrite Hnat.
           replace (q + k - 1 - Z.of_nat (String.length EmptyString)) with q
             by (unfold k, ds; simpl; lia).
           reflexivity.
        -- unfold JSON.parse_unsigned. cbn [append].
           assert (Hint : JSON.parse_int
                            (String c (String "." ((String c' f ++ JSON.exponent_part (q + k - 1))
                                                     ++ rest)))
                          = Some (String c EmptyString,
                                  String "." ((String c' f ++ JSON.exponent_part (q + k - 1))
                                                ++ rest))).
           { change (String c ?x) with (String c EmptyString ++ x).
             apply parse_int_app; [|now right | reflexivity].
             simpl in Hall. simpl. apply andb_true_iff in Hall as [-> _]. reflexivity. }
           cbn [append] in Hint. rewrite Hint.
           change (String c' (f ++ JSON.exponent_part (q + k - 1)) ++ rest)
             with ((String c' f ++ JSON.exponent_part (q + k - 1)) ++ rest).
           rewrite append_assoc.
           change (String c' (f ++ JSON.exponent_part (q + k - 1) ++ rest))
             with (String c' f ++ (JSON.exponent_part (q + k - 1) ++ rest)).
           rewrite parse_fraction_app;
             [| simpl in Hall; apply andb_true_iff in Hall as [_ Hall]; exact Hall | reflexivity].
           rewrite parse_exponent_app by assumption.
           f_equal. f_equal. f_equal.
           change (String c EmptyString ++ String c' f) with ds. rewrite Hnat.
           replace (q + k - 1 - Z.of_nat (String.length (String c' f))) with q
             by (unfold k, ds; cbn [String.length]; lia).
           reflexivity.
Qed.

Lemma notation_head (s q : Z) :
  0 < s -> exists c r, JSON.notation s q = String c r /\ is_digit c = true.
Proof.
  intros Hs. unfold JSON.notation.
  destruct (decimal_head s Hs) as (c & r & E & Hc & _). rewrite E.
  set (k := Z.of_nat (String.length (String c r))).
  destruct ((k <=? q + k) && (q + k <=? 21))%bool; [simpl; eauto|].
  destruct ((0 <? q + k) && (q + k <=? 21))%bool eqn:EB.
  - apply andb_true_iff in EB as [Hn _]. apply Z.ltb_lt in Hn.
    destruct (Z.to_nat (q + k)) as [|j] eqn:Ej; [lia|]. simpl. eauto.
  - destruct ((-6 <? q + k) && (q + k <=? 0))%bool; [eexists; eexists; split; reflexivity|].
    destruct r; eauto.
Qed.

Lemma is_digit_not_minus (c : ascii) : is_digit c = true -> Ascii.eqb c "-" = false.
Proof. destruct c as [[] [] [] [] [] [] [] []]; simpl; intros H; try reflexivity; discriminate H. Qed.

Lemma representable_number (x : number) :
  JSON.representable (VNumber x) = true ->
  exists negative m e,
    x = Finite negative m e /\ canonical (Finite false m e) = true
    /\ (0 < m \/ (m = 0 /\ e = -1074 /\ negative = false)).
Proof.
  cbn [JSON.representable]. rewrite !andb_true_iff, negb_true_iff.
  intros [[Hcan Hfin] Hzero]. destruct x as [| |negative m e]; try discriminate Hfin.
  exists negative, m, e. split; [reflexivity|]. split; [exact Hcan|].
  pose proof (canonical_bounds _ _ _ Hcan) as (Hm & He & Hn).
  destruct (Z.eq_dec m 0) as [-> | Hne]; [right | left; lia].
  simpl in Hzero. split; [reflexivity|]. split; [lia|]. exact Hzero.
Qed.

(** The text of a number is read back as the number. *)
Lemma parse_number_app (x : number) (rest : string) :
  JSON.representable (VNumber x) = true -> delimited rest ->
  JSON.parse_number (JSON.number_to_string x ++ rest) = Some (VNumber x, rest).
Proof.
  intros Hrep Hrest.
  destruct (representable_number x Hrep) as (negative & m & e & -> & Hcan & Hm).
  unfold JSON.number_to_string.
  destruct Hm as [Hm | (-> & -> & ->)].
  - replace (m =? 0) with false by (symmetry; apply Z.eqb_neq; lia).
    set (n := JSON.decimal_exponent m e).
    pose proof (shortest_reads m e (Z.to_nat (n - Z.min 0 e)) n Hcan Hm ltac:(lia)) as Hs.
    destruct (JSON.shortest _ m e n) as [s q]. destruct Hs as [Hs Hreads].
    apply reads_as_nearest in Hreads.
    destruct negative.
    + cbn [append]. unfold JSON.parse_number. change (Ascii.eqb "-" "-") with true. cbv iota.
      rewrite parse_notation by assumption.
      now rewrite (nearest_sign true _ _ _ _ Hreads).
    + destruct (notation_head s q Hs) as (c & r & E & Hc).
      pose proof (parse_notation false s q rest Hs Hrest) as Hp. rewrite E in *.
      cbn [append] in *. unfold JSON.parse_number.
      rewrite (is_digit_not_minus c Hc), Hp, Hreads. reflexivity.
  - change (0 =? 0) with true. cbv iota. cbn [append]. unfold JSON.parse_number.
    change (Ascii.eqb "0" "-") with false. cbv iota. unfold JSON.parse_unsigned.
    change (String "0" rest) with (String "0" EmptyString ++ rest).
    rewrite parse_int_app; [|reflexivity | now right | now apply delimited_no_digit].
    rewrite parse_fraction_none, parse_exponent_none by assumption.
    reflexivity.
Qed.

Lemma number_to_string_head (x : number) :
  JSON.representable (VNumber x) = true ->
  exists c r, JSON.number_to_string x = String c r /\ number_start c = true.
Proof.
  intros Hrep.
  destruct (representable_number x Hrep) as (negative & m & e & -> & Hcan & Hm).
  unfold JSON.number_to_string.
  destruct Hm as [Hm | (-> & -> & ->)]; [|eexists; eexists; split; reflexivity].
  replace (m =? 0) with false by (symmetry; apply Z.eqb_neq; lia).
  set (n := JSON.decimal_exponent m e).
  pose proof (shortest_reads m e (Z.to_nat (n - Z.min 0 e)) n Hcan Hm ltac:(lia)) as Hs.
  destruct (JSON.shortest _ m e n) as [s q]. destruct Hs as [Hs _].
  destruct negative; [eexists; eexists; split; reflexivity|].
  destruct (notation_head s q Hs) as (c & r & E & Hc). exists c, r. split; [exact E|].
  unfold number_start. now rewrite Hc.
Qed.

Lemma parse_value_number (fuel : nat) (c : ascii) (r : string) :
  number_start c = true ->
  JSON.parse_value (S fuel) (String c r) = JSON.parse_number (String c r).
Proof.
  destruct c as [[] [] [] [] [] [] [] []]; simpl; intros H; try discriminate H; reflexivity.
Qed.

Lemma delimited_skip_ws rest : delimited rest -> JSON.skip_ws rest = rest.
Proof.
  destruct rest as [|c r]; simpl; [reflexivity|].
  intros [-> | [-> | ->]]; reflexivity.
Qed.

(** *** Values *)

Lemma cost_array elems : cost (VArray elems) = S (cost_elements elems).
Proof. reflexivity. Qed.

Lemma cost_object props : cost (VObject props) = S (cost_members props).
Proof. reflexivity. Qed.

Lemma serialize_array elems :
  JSON.SerializeJSONProperty (VArray elems)
  = (parts <- JSON.serialize_items elems ;; Normal (Some ("[" ++ JSON.join "," parts ++ "]"))).
Proof. reflexivity. Qed.

Lemma serialize_object props :
  JSON.SerializeJSONProperty (VObject props)
  = (parts <- JSON.serialize_members props ;; Normal (Some ("{" ++ JSON.join "," parts ++ "}"))).
Proof. reflexivity. Qed.

Lemma printed_skip_ws v t rest : printed v t -> JSON.skip_ws (t ++ rest) = t ++ rest.
Proof.
  intros ((c & r & -> & Hc) & _). simpl.
  unfold value_start in Hc. destruct (JSON.is_ws c); [discriminate | reflexivity].
Qed.

Lemma items_printed elems :
  Forall prints_back elems -> forallb JSON.representable elems = true ->
  exists parts, JSON.serialize_items elems = Normal parts /\ Forall2 printed elems parts.
Proof.
  induction 1 as [|x r Hx _ IH]; simpl; intros Hrep.
  - exists []. split; [reflexivity | constructor].
  - apply andb_true_iff in Hrep as [Hx' Hr'].
    destruct (Hx Hx') as (t & Et & Ht). destruct (IH Hr') as (parts & Ep & Hp).
    exists (t :: parts). rewrite Et. simpl.
    fold JSON.serialize_items. rewrite Ep. simpl. split; [reflexivity | now constructor].
Qed.

Lemma members_printed props :
  Forall (fun kv => prints_back (snd kv)) props ->
  forallb (fun kv => JSON.representable (snd kv)) props = true ->
  exists parts, JSON.serialize_members props = Normal parts /\ Forall2 printed_member props parts.
Proof.
  induction 1 as [|kv r Hx _ IH]; simpl; intros Hrep.
  - exists []. split; [reflexivity | constructor].
  - apply andb_true_iff in Hrep as [Hx' Hr'].
    destruct (Hx Hx') as (t & Et & Ht). destruct (IH Hr') as (parts & Ep & Hp).
    exists ((JSON.quote (fst kv) ++ ":" ++ t) :: parts). rewrite Et. simpl.
    fold JSON.serialize_members. rewrite Ep. simpl. split; [reflexivity|].
    constructor; [|assumption]. exists t. split; [reflexivity | assumption].
Qed.

Lemma join_cons (t : string) (parts : list string) :
  parts <> [] -> JSON.join "," (t :: parts) = t ++ String "," (JSON.join "," parts).
Proof. destruct parts; [congruence | reflexivity]. Qed.

Lemma join_single (t : string) : JSON.join "," [t] = t.
Proof. reflexivity. Qed.

Lemma parse_elements_join elems parts :
  Forall2 printed elems parts -> elems <> [] ->
  (cost_elements elems <= S (String.length (JSON.join "," parts)))%nat
  /\ forall fuel rest, (cost_elements elems <= fuel)%nat ->
       JSON.parse_elements fuel (JSON.join "," parts ++ String "]" rest) = Some (elems, rest).
Proof.
  induction 1 as [|x t r ps Hx Hr IH]; [congruence|]. intros _.
  destruct Hx as (Hhead & Hlen & Hparse).
  destruct Hr as [|x' t' r' ps' Hx' Hr'].
  - (* the last element *)
    split; [simpl; lia|].
    intros fuel rest Hfuel. destruct fuel as [|fuel]; [simpl in Hfuel; lia|].
    simpl in Hfuel. simpl JSON.join. simpl JSON.parse_elements.
    rewrite Hparse by (simpl; auto; lia). reflexivity.
  - destruct IH as [IHlen IHparse]; [discriminate|].
    rewrite join_cons by discriminate.
    change (cost_elements (x :: x' :: r')) with (S (cost x + cost_elements (x' :: r'))).
    remember (JSON.join "," (t' :: ps')) as j eqn:Ej.
    remember (cost_elements (x' :: r')) as c eqn:Ec.
    remember (x' :: r') as elems' eqn:Ee. clear Ej Ec.
    split.
    + rewrite length_append. simpl. lia.
    + intros fuel rest Hfuel. destruct fuel as [|fuel]; [simpl in Hfuel; lia|].
      simpl in Hfuel.
      rewrite append_assoc. simpl JSON.parse_elements.
      rewrite Hparse by (simpl; auto; lia). simpl.
      rewrite IHparse by (simpl; lia). reflexivity.
Qed.

Lemma parse_quote (k tail : string) :
  JSON.parse_string_body (JSON.escape k ++ String JSON.dquote tail) = Some (k, tail).
Proof. apply parse_escape. Qed.

Lemma quote_app (k tail : string) :
  JSON.quote k ++ tail = String JSON.dquote (JSON.escape k ++ String JSON.dquote tail).
Proof. unfold JSON.quote. simpl. now rewrite append_assoc. Qed.

Lemma length_quote (k : string) : (2 <= String.length (JSON.quote k))%nat.
Proof. unfold JSON.quote. simpl. rewrite length_append. simpl. lia. Qed.

Lemma parse_members_join props parts :
  Forall2 printed_member props parts -> props <> [] ->
  (cost_members props <= S (String.length (JSON.join "," parts)))%nat
  /\ forall fuel rest, (cost_members props <= fuel)%nat ->
       JSON.parse_members fuel (JSON.join "," parts ++ String "}" rest) = Some (props, rest).
Proof.
  induction 1 as [|[k x] part r ps Hx Hr IH]; [congruence|]. intros _.
  destruct Hx as (t & -> & Hhead & Hlen & Hparse). simpl fst in *. simpl snd in *.
  pose proof (length_quote k) as Hq.
  destruct Hr as [|x' t' r' ps' Hx' Hr'].
  - split.
    + rewrite join_single, !length_append. simpl. lia.
    + intros fuel rest Hfuel. destruct fuel as [|fuel]; [simpl in Hfuel; lia|].
      simpl in Hfuel. rewrite join_single.
      rewrite !append_assoc, quote_app. simpl JSON.parse_members.
      rewrite parse_quote. simpl.
      rewrite Hparse by (simpl; auto; lia). reflexivity.
  - destruct IH as [IHlen IHparse]; [discriminate|].
    rewrite join_cons by discriminate.
    change (cost_members ((k, x) :: x' :: r'))
      with (S (cost x + cost_members (x' :: r'))).
    remember (JSON.join "," (t' :: ps')) as j eqn:Ej.
    remember (cost_members (x' :: r')) as c eqn:Ec.
    remember (x' :: r') as props' eqn:Ee. clear Ej Ec.
    split.
    + rewrite !length_append. simpl. lia.
    + intros fuel rest Hfuel. destruct fuel as [|fuel]; [simpl in Hfuel; lia|].
      simpl in Hfuel.
      rewrite !append_assoc, quote_app. simpl JSON.parse_members.
      rewrite parse_quote. simpl.
      rewrite Hparse by (simpl; auto; lia). simpl.
      rewrite IHparse by (simpl; lia). reflexivity.
Qed.

(** *** Objects with one property per key *)

Lemma obj_set_fresh k v acc :
  existsb (String.eqb k) (map fst acc) = false ->
  forallb (fun k' => before k' k) (map fst acc) = true ->
  obj_set k v acc = (acc ++ [(k, v)])%list.
Proof.
  induction acc as [|[k' v'] acc IH]; simpl; [reflexivity|].
  intros H Hb. apply orb_false_iff in H as [Hk Hacc].
  apply andb_true_iff in Hb as [Hk' Hb].
  rewrite Hk, Hk', IH by assumption. reflexivity.
Qed.

Lemma distinct_middle (a : list string) k r :
  JSON.distinct (a ++ k :: r)%list = true -> existsb (String.eqb k) a = false.
Proof.
  induction a as [|x a IH]; simpl; [reflexivity|].
  intros H. apply andb_true_iff in H as [Hx Ha].
  rewrite IH by assumption. rewrite orb_false_r.
  apply negb_true_iff in Hx. rewrite existsb_app in Hx.
  apply orb_false_iff in Hx as [_ Hx]. simpl in Hx.
  apply orb_false_iff in Hx as [Hx _]. now rewrite String.eqb_sym.
Qed.

Lemma enumerated_middle (a : list string) k r :
  JSON.enumerated (a ++ k :: r)%list = true -> forallb (fun k' => before k' k) a = true.
Proof.
  induction a as [|x a IH]; simpl; [reflexivity|].
  intros H. apply andb_true_iff in H as [Hx Ha].
  rewrite IH by assumption. rewrite andb_true_r.
  rewrite forallb_app in Hx. apply andb_true_iff in Hx as [_ Hx]. simpl in Hx.
  now apply andb_true_iff in Hx as [Hx _].
Qed.

Lemma build_distinct (l acc : list (string * value)) :
  JSON.distinct (map fst (acc ++ l)%list) = true ->
  JSON.enumerated (map fst (acc ++ l)%list) = true ->
  fold_left (fun o kv => obj_set (fst kv) (snd kv) o) l acc = (acc ++ l)%list.
Proof.
  revert acc. induction l as [|[k v] l IH]; intros acc H He; simpl.
  - now rewrite app_nil_r.
  - rewrite obj_set_fresh.
    + rewrite IH; rewrite <- app_assoc; [reflexivity | exact H | exact He].
    + rewrite map_app in H. simpl in H. now apply distinct_middle in H.
    + rewrite map_app in He. simpl in He. now apply enumerated_middle in He.
Qed.

Lemma build_object_distinct (props : list (string * value)) :
  JSON.distinct (map fst props) = true -> JSON.enumerated (map fst props) = true ->
  JSON.build_object props = VObject props.
Proof. intros H He. unfold JSON.build_object. now rewrite build_distinct. Qed.

(** *** Every representable value is printed and read back *)

Lemma value_start_number c : number_start c = true -> value_start c = true.
Proof. destruct c as [[] [] [] [] [] [] [] []]; simpl; intros H; try reflexivity; discriminate H. Qed.

Lemma parse_value_string (fuel : nat) (s rest : string) :
  JSON.parse_value (S fuel) (JSON.quote s ++ rest) = Some (VString s, rest).
Proof.
  rewrite quote_app. simpl. now rewrite parse_quote.
Qed.

Lemma printed_head v t : printed v t -> exists c r, t = String c r /\ value_start c = true.
Proof. now intros [H _]. Qed.

Lemma bracket_app (j rest : string) :
  String "[" (j ++ "]") ++ rest = String "[" (j ++ String "]" rest).
Proof. simpl. now rewrite append_assoc. Qed.

Lemma brace_app (j rest : string) :
  String "{" (j ++ "}") ++ rest = String "{" (j ++ String "}" rest).
Proof. simpl. now rewrite append_assoc. Qed.

Lemma parse_value_array (fuel : nat) (c : ascii) (tl : string) :
  value_start c = true ->
  JSON.parse_value (S fuel) (String "[" (String c tl))
  = match JSON.parse_elements fuel (String c tl) with
    | Some (l, rest) => Some (VArray l, rest)
    | None => None
    end.
Proof.
  unfold value_start. intros H.
  apply andb_true_iff in H as [H _]. apply andb_true_iff in H as [Hws Hc].
  apply negb_true_iff in Hws, Hc.
  simpl. rewrite Hws, Hc. reflexivity.
Qed.

Lemma join_head (c : ascii) (tl : string) (ps : list string) :
  exists tl', JSON.join "," (String c tl :: ps) = String c tl'.
Proof. destruct ps; simpl; eauto. Qed.

Lemma prints_back_all (v : value) : prints_back v.
Proof.
  induction v as [| |b|n|n|s|elems IH|props IH] using value_nested_ind;
    unfold prints_back; intros Hrep; try discriminate Hrep.
  - (* null *)
    exists "null". split; [reflexivity|]. split; [|split].
    + eexists; eexists; split; reflexivity.
    + simpl; lia.
    + intros [|fuel] rest Hf _; [simpl in Hf; lia | reflexivity].
  - (* booleans *)
    destruct b.
    + exists "true". split; [reflexivity|]. split; [|split].
      * eexists; eexists; split; reflexivity.
      * simpl; lia.
      * intros [|fuel] rest Hf _; [simpl in Hf; lia | reflexivity].
    + exists "false". split; [reflexivity|]. split; [|split].
      * eexists; eexists; split; reflexivity.
      * simpl; lia.
      * intros [|fuel] rest Hf _; [simpl in Hf; lia | reflexivity].
  - (* numbers *)
    exists (JSON.number_to_string n). split.
    { cbn [JSON.SerializeJSONProperty].
      destruct (representable_number n Hrep) as (? & ? & ? & -> & _). reflexivity. }
    destruct (number_to_string_head n Hrep) as (c & r & E & Hc).
    split; [|split].
    + exists c, r. split; [assumption | now apply value_start_number].
    + rewrite E. simpl. lia.
    + intros [|fuel] rest Hf Hrest; [simpl in Hf; lia|].
      rewrite <- (parse_number_app n rest Hrep Hrest). rewrite E.
      change (String c r ++ rest) with (String c (r ++ rest)).
      now apply parse_value_number.
  - (* strings *)
    exists (JSON.quote s). split; [reflexivity|]. split; [|split].
    + eexists; eexists; split; reflexivity.
    + pose proof (length_quote s). simpl. lia.
    + intros [|fuel] rest Hf _; [simpl in Hf; lia | apply parse_value_string].
  - (* arrays *)
    simpl in Hrep. destruct (items_printed elems IH Hrep) as (parts & Ep & Hp).
    rewrite serialize_array, Ep. simpl bind.
    eexists. split; [reflexivity|]. unfold printed. rewrite cost_array.
    split; [|split].
    + eexists; eexists; split; reflexivity.
    + destruct elems as [|x r].
      * simpl. lia.
      * destruct (parse_elements_join _ _ Hp) as [Hlen _]; [discriminate|].
        remember (cost_elements (x :: r)) as n eqn:En.
        remember (JSON.join "," parts) as j eqn:Ej. clear En Ej.
        simpl. rewrite length_append. simpl. lia.
    + intros [|fuel] rest Hf _; [lia|]. rewrite bracket_app.
      destruct elems as [|x r].
      * inversion Hp; subst. reflexivity.
      * destruct (parse_elements_join _ _ Hp) as [_ Hparse]; [discriminate|].
        inversion Hp as [|x0 t r0 ps Hx Hr]; subst.
        destruct (printed_head _ _ Hx) as (c & tl & -> & Hc).
        destruct (join_head c tl ps) as (tl' & Hj).
        specialize (Hparse fuel rest). rewrite Hj in *.
        change (String c tl' ++ String "]" rest)
          with (String c (tl' ++ String "]" rest)) in *.
        rewrite parse_value_array by assumption.
        rewrite Hparse by lia. reflexivity.
  - (* objects *)
    simpl in Hrep. apply andb_true_iff in Hrep as [Hkeys Hvals].
    apply andb_true_iff in Hkeys as [Hkeys Henum].
    destruct (members_printed props IH Hvals) as (parts & Ep & Hp).
    rewrite serialize_object, Ep. simpl bind.
    eexists. split; [reflexivity|]. unfold printed. rewrite cost_object.
    split; [|split].
    + eexists; eexists; split; reflexivity.
    + destruct props as [|x r].
      * simpl. lia.
      * destruct (parse_members_join _ _ Hp) as [Hlen _]; [discriminate|].
        remember (cost_members (x :: r)) as n eqn:En.
        remember (JSON.join "," parts) as j eqn:Ej. clear En Ej.
        simpl. rewrite length_append. simpl. lia.
    + intros [|fuel] rest Hf _; [lia|]. rewrite brace_app.
      destruct props as [|x r].
      * inversion Hp; subst. reflexivity.
      * destruct (parse_members_join _ _ Hp) as [_ Hparse]; [discriminate|].
        inversion Hp as [|x0 t r0 ps Hx Hr]; subst.
        destruct Hx as (t0 & -> & _).
        specialize (Hparse fuel rest).
        assert (Hj : exists tl', JSON.join "," ((JSON.quote (fst x) ++ ":" ++ t0) :: ps)
                                 = String JSON.dquote tl').
        { destruct ps; simpl; eauto. }
        destruct Hj as (tl' & Hj). rewrite Hj in *.
        change (String JSON.dquote tl' ++ String "}" rest)
          with (String JSON.dquote (tl' ++ String "}" rest)) in *.
        simpl JSON.parse_value. 
        rewrite Hparse by lia. now rewrite build_object_distinct.
Qed.

(** [JSON.parse (JSON.stringify v)] gives [v] back. *)
Lemma parse_stringify (v : value) :
  JSON.representable v = true ->
  exists text, JSON.stringify v = Normal (VString text) /\ JSON.parse text = Normal v.
Proof.
  intros Hrep. destruct (prints_back_all v Hrep) as (t & Et & _ & Hlen & Hparse).
  exists t. unfold JSON.stringify, JSON.parse. rewrite Et. split; [reflexivity|].
  specialize (Hparse (S (String.length t)) EmptyString).
  assert (E : t ++ EmptyString = t).
  { clear. induction t; simpl; [reflexivity | now f_equal]. }
  rewrite E in Hparse. rewrite Hparse; [reflexivity | lia | exact I].
Qed.

(** ** The codec *)

Lemma stringify_object_property (props : list (string * value)) :
  JSON.SerializeJSONProperty (VObject props)
  = (t <- JSON.stringify_object props ;; Normal (Some t)).
Proof.
  rewrite serialize_object. unfold JSON.stringify_object.
  destruct (JSON.serialize_members props); reflexivity.
Qed.

Lemma length_nonzero (s : string) : s <> EmptyString -> (String.length s =? 0)%nat = false.
Proof. destruct s; [congruence | reflexivity]. Qed.

(** C1. Codec round trip: for every event that is a non-empty string and
    every payload of JSON-representable values (of any length, the empty
    payload included), [serialize] returns a text and [deserialize] of that
    text returns the envelope with the same event and the same payload, value
    by value and in the same order.  The numbers of the payload are any finite
    binary64 values, fractions included, but for the negative zero. *)
Theorem codec_round_trip (event : string) (payload : list value) :
  event <> EmptyString ->
  forallb JSON.representable payload = true ->
  exists text,
    MessageCodec.serialize (VString event) payload = Normal text
    /\ MessageCodec.deserialize (VString text)
       = Normal {| MessageCodec.event := event; MessageCodec.payload := payload |}.
Proof.
  intros Hevent Hpayload.
  set (envelope := VObject [("event", VString event); ("payload", VArray payload)]).
  assert (Hrep : JSON.representable envelope = true).
  { simpl. rewrite Hpayload. reflexivity. }
  destruct (parse_stringify envelope Hrep) as (text & Hprint & Hparse).
  exists text. unfold JSON.stringify in Hprint.
  unfold envelope in Hprint. rewrite stringify_object_property in Hprint.
  unfold MessageCodec.serialize. rewrite length_nonzero by assumption.
  destruct (JSON.stringify_object _) as [t|e]; simpl in Hprint; [|discriminate].
  injection Hprint as ->. split; [reflexivity|].
  unfold MessageCodec.deserialize. rewrite Hparse. reflexivity.
Qed.

(** C1 at one event and a payload of values of different kinds, with the
    numbers 1, 2.5, -3, 0, 0.1 and 1e21 among them. *)
Lemma codec_round_trip_witness :
  exists text,
    MessageCodec.serialize (VString "foo")
      [VString "numbers"; VNumber (of_Z 1); VNumber (nearest false 25 10);
       VNumber (of_Z (-3)); VNumber (of_Z 0); VNumber (nearest false 1 10);
       VNumber (of_Z (10 ^ 21)); VNull; VArray [VBool true];
       VObject [("k", VString (String JSON.dquote "q"))]] = Normal text
    /\ MessageCodec.deserialize (VString text)
       = Normal {| MessageCodec.event := "foo";
                   MessageCodec.payload :=
                     [VString "numbers"; VNumber (of_Z 1); VNumber (nearest false 25 10);
                      VNumber (of_Z (-3)); VNumber (of_Z 0); VNumber (nearest false 1 10);
                      VNumber (of_Z (10 ^ 21)); VNull; VArray [VBool true];
                      VObject [("k", VString (String JSON.dquote "q"))]] |}.
Proof.
  apply codec_round_trip; [discriminate | vm_compute; reflexivity].
Defined.

(** C10. Decode leniency: when the text parses to an object that has an
    [event] property holding a string and a [payload] property holding an
    array, [deserialize] succeeds whatever else the object holds, and what it
    returns has the event and the payload only. *)
Theorem deserialize_ignores_extra_properties
    (text : string) (props : list (string * value)) (event : string) (payload : list value) :
  JSON.parse text = Normal (VObject props) ->
  obj_get "event" props = Some (VString event) ->
  obj_get "payload" props = Some (VArray payload) ->
  MessageCodec.deserialize (VString text)
  = Normal {| MessageCodec.event := event; MessageCodec.payload := payload |}.
Proof.
  intros Hparse Hevent Hpayload.
  unfold MessageCodec.deserialize. rewrite Hparse. simpl.
  unfold MessageCodec.check_envelope. simpl. rewrite Hevent, Hpayload. reflexivity.
Qed.

(** C10 at a text with three properties besides the event and the payload. *)
Lemma deserialize_ignores_extra_properties_witness :
  MessageCodec.deserialize
    (VString (JSON.wire "{'id':7,'event':'x','extra':{'payload':1},'payload':['a'],'z':null}"))
  = Normal {| MessageCodec.event := "x"; MessageCodec.payload := [VString "a"] |}.
Proof.
  apply (deserialize_ignores_extra_properties _
           [("id", VNumber (of_Z 7)); ("event", VString "x");
            ("extra", VObject [("payload", VNumber (of_Z 1))]);
            ("payload", VArray [VString "a"]); ("z", VNull)]);
    reflexivity.
Defined.

(** The literal cases of the codec. *)
Example serialize_foo :
  MessageCodec.serialize (VString "foo") [VString "a"; VString "b"]
  = Normal (JSON.wire "{'event':'foo','payload':['a','b']}").
Proof. reflexivity. Qed.

Example deserialize_foo :
  MessageCodec.deserialize (VString (JSON.wire "{'event':'foo','payload':['a','b']}"))
  = Normal {| MessageCodec.event := "foo";
              MessageCodec.payload := [VString "a"; VString "b"] |}.
Proof. reflexivity. Qed.

Example serialize_rejects_event_names :
  MessageCodec.serialize (VString EmptyString) []
  = Throw (MessageCodec.codec_error "Event name must be a non-empty string")
  /\ MessageCodec.serialize (VNumber (of_Z 123)) []
     = Throw (MessageCodec.codec_error "Event name must be a non-empty string").
Proof. split; reflexivity. Qed.

Example serialize_wraps_the_cause :
  MessageCodec.serialize (VString "e") [VBigInt 1]
  = Throw (MessageCodecError
             ("Failed to serialize message for event " ++ JSON.wire "'e'")
             (Some (TypeError "Do not know how to serialize a BigInt"))).
Proof. reflexivity. Qed.

Example deserialize_rejects :
  map (fun text => MessageCodec.deserialize (VString (JSON.wire text)))
    ["not json"; "null"; "'x'"; "{'event':'x'}"; "{'event':1,'payload':[]}";
     "{'event':'x','payload':1}"]
  = map Throw
      [MessageCodecError "Failed to deserialize message"
         (Some (SyntaxError "Unexpected token or end of JSON input"));
       MessageCodec.codec_error "Invalid message format: expected object";
       MessageCodec.codec_error "Invalid message format: expected object";
       MessageCodec.codec_error
         "Invalid message format: must contain 'event' and 'payload' properties";
       MessageCodec.codec_error "Invalid message format: event must be a string";
       MessageCodec.codec_error "Invalid message format: payload must be an array"]
  /\ MessageCodec.deserialize (VNumber (of_Z 123))
     = Throw (MessageCodec.codec_error "Message must be a string").
Proof. split; reflexivity. Qed.

(** Numbers on the wire: 2.5, 0.1, -3, 1e21, the smallest and the largest
    finite numbers are printed with the shortest digits that read back. *)
Example numbers_on_the_wire :
  MessageCodec.serialize (VString "n")
    [VNumber (nearest false 25 10); VNumber (nearest false 1 10); VNumber (of_Z (-3));
     VNumber (of_Z (10 ^ 21)); VNumber (Finite false 1 (-1074));
     VNumber (Finite false (2 ^ 53 - 1) 971)]
  = Normal (JSON.wire ("{'event':'n','payload':[2.5,0.1,-3,1e+21,5e-324,"
                         ++ "1.7976931348623157e+308]}")).
Proof. vm_compute. reflexivity. Qed.

Example numbers_off_the_wire :
  MessageCodec.deserialize
    (VString (JSON.wire "{'event':'n','payload':[2.5,-0.5E-1,1e2,9007199254740993,-0]}"))
  = Normal {| MessageCodec.event := "n";
              MessageCodec.payload :=
                [VNumber (nearest false 25 10); VNumber (nearest true 5 100);
                 VNumber (of_Z 100); VNumber (of_Z 9007199254740992);
                 VNumber (Finite true 0 (-1074))] |}.
Proof. vm_compute. reflexivity. Qed.

(** Numbers that are not JSON-representable do not come back: not-a-number
    and the infinities are printed as [null], the negative zero as [0]. *)
Example numbers_that_do_not_come_back :
  MessageCodec.serialize (VString "n")
    [VNumber NaN; VNumber (Infinity false); VNumber (Infinity true);
     VNumber (Finite true 0 (-1074))]
  = Normal (JSON.wire "{'event':'n','payload':[null,null,null,0]}").
Proof. vm_compute. reflexivity. Qed.

(** A payload that is not JSON-representable does not come back: [undefined]
    is printed as [null]. *)
Example undefined_comes_back_as_null :
  MessageCodec.serialize (VString "e") [VUndefined]
  = Normal (JSON.wire "{'event':'e','payload':[null]}")
  /\ MessageCodec.deserialize (VString (JSON.wire "{'event':'e','payload':[null]}"))
     = Normal {| MessageCodec.event := "e"; MessageCodec.payload := [VNull] |}.
Proof. split; reflexivity. Qed.

(** ** The event lock *)

Import RnBridge.

Section Barrier.
Context {W : Type}.
Implicit Types (this : SystemEventLock W) (w : W).

Lemma releases_snoc (k : nat) this w :
  releases (S k) this w = let (this', w') := releases k this w in release this' w'.
Proof.
  revert this w. induction k as [|k IH]; intros this w.
  - simpl. destruct (release this w). reflexivity.
  - change (releases (S (S k)) this w)
      with (let (this', w') := release this w in releases (S k) this' w').
    change (releases (S k) this w)
      with (let (this', w') := release this w in releases k this' w').
    destruct (release this w) as [this1 w1]. apply IH.
Qed.

(** The lock and the world after the construction with [N] locks and [k]
    calls of [release()]. *)
Lemma barrier_state (callback : W -> W) (N : Z) (k : nat) w :
  (let (this, w0) := new_SystemEventLock callback N w in releases k this w0)
  = ({| _locksAcquired := if N <=? 0 then N else Z.max (N - Z.of_nat k) 0;
        _callback := callback;
        _hasReleased := N <=? Z.of_nat k |},
     if N <=? Z.of_nat k then callback w else w).
Proof.
  induction k as [|k IH].
  - unfold new_SystemEventLock, _checkRelease. simpl.
    destruct (N <=? 0) eqn:E; simpl; [reflexivity|].
    apply Z.leb_gt in E. rewrite Z.sub_0_r, Z.max_l by lia. reflexivity.
  - destruct (new_SystemEventLock callback N w) as [this0 w0].
    rewrite releases_snoc, IH. rewrite Nat2Z.inj_succ.
    pose proof (Nat2Z.is_nonneg k) as Hk. set (i := Z.of_nat k) in *. clearbody i.
    unfold release. cbn [_hasReleased _locksAcquired _callback].
    destruct (N <=? i) eqn:Ek.
    + apply Z.leb_le in Ek.
      replace (N <=? Z.succ i) with true by (symmetry; apply Z.leb_le; lia).
      destruct (N <=? 0); [reflexivity|].
      rewrite !Z.max_r by lia. reflexivity.
    + apply Z.leb_gt in Ek.
      replace (N <=? 0) with false by (symmetry; apply Z.leb_gt; lia).
      unfold _checkRelease. cbn [_hasReleased _locksAcquired _callback].
      rewrite Z.max_l by lia.
      destruct (N - i - 1 <=? 0) eqn:E1.
      * apply Z.leb_le in E1.
        replace (N <=? Z.succ i) with true by (symmetry; apply Z.leb_le; lia).
        rewrite Z.max_r by lia. do 2 f_equal. lia.
      * apply Z.leb_gt in E1.
        replace (N <=? Z.succ i) with false by (symmetry; apply Z.leb_gt; lia).
        rewrite Z.max_l by lia. do 2 f_equal. lia.
Qed.
End Barrier.

(** C2. The event lock fires exactly once: for every starting count [N], the
    callback has run once after [k] calls of [release()] when [N <= k] and has
    not run before; the call that runs it is the one that brings the count
    to zero or below (the construction itself when [N <= 0]), and the lock
    stays as it is from then on.  With three locks the callback runs in the
    third call and the fourth changes nothing; with no lock it runs in the
    constructor. *)
Theorem barrier_fires_exactly_once :
  (forall (N : Z) (k : nat),
      counting_barrier N k
      = ({| _locksAcquired := if N <=? 0 then N else Z.max (N - Z.of_nat k) 0;
            _callback := S;
            _hasReleased := N <=? Z.of_nat k |},
         if N <=? Z.of_nat k then 1%nat else 0%nat))
  /\ (forall (N : Z) (k : nat),
         snd (counting_barrier N (S k)) = S (snd (counting_barrier N k))
         <-> N = Z.of_nat (S k))
  /\ map (fun k => snd (counting_barrier 3 k)) [0; 1; 2; 3; 4]%nat = [0; 0; 0; 1; 1]%nat
  /\ counting_barrier 3 4 = counting_barrier 3 3
  /\ snd (new_SystemEventLock S 0 O) = 1%nat.
Proof.
  assert (H : forall N k,
             counting_barrier N k
             = ({| _locksAcquired := if N <=? 0 then N else Z.max (N - Z.of_nat k) 0;
                   _callback := S;
                   _hasReleased := N <=? Z.of_nat k |},
                if N <=? Z.of_nat k then 1%nat else 0%nat)).
  { intros N k. unfold counting_barrier. apply barrier_state. }
  split; [exact H|]. split; [|repeat split; reflexivity].
  intros N k. rewrite !H. cbn [snd].
  destruct (N <=? Z.of_nat (S k)) eqn:E1, (N <=? Z.of_nat k) eqn:E0;
    try apply Z.leb_le in E1; try apply Z.leb_gt in E1;
    try apply Z.leb_le in E0; try apply Z.leb_gt in E0; split; intros; try lia; try discriminate.
Qed.

(** ** The pause event *)

Lemma split_bar (s : string) :
  split "|" s
  = before_bar s :: match after_bar s with Some r => split "|" r | None => [] end.
Proof.
  induction s as [|c r IH]; simpl; [reflexivity|].
  destruct (Ascii.eqb c "|"); [reflexivity|].
  rewrite IH. reflexivity.
Qed.

(** The release message in terms of the two parts. *)
Lemma release_message_parts (type : string) :
  release_message type
  = match after_bar type with
    | None => "release-pause-event"
    | Some r => "release-pause-event|" ++ before_bar r
    end.
Proof.
  unfold release_message. rewrite split_bar.
  destruct (after_bar type) as [r|]; [|reflexivity].
  rewrite (split_bar r). reflexivity.
Qed.

Lemma before_bar_no_bar (s : string) : after_bar s = None -> before_bar s = s.
Proof.
  induction s as [|c r IH]; simpl; [reflexivity|].
  destruct (Ascii.eqb c "|"); [discriminate|]. intros H. now rewrite IH.
Qed.

Lemma after_bar_app (a b : string) :
  after_bar a = None -> after_bar (a ++ String "|" b) = Some b.
Proof.
  induction a as [|c r IH]; simpl; [reflexivity|].
  destruct (Ascii.eqb c "|"); [discriminate | exact IH].
Qed.

(** C9, as stated: the event id would be all of the text after the first
    bar.  It is not: of the text [pause|a|b], whose part after the first bar is
    [a|b], the message sent back keeps [a] only. *)
Lemma pause_event_id_counterexample :
  String.prefix "pause" "pause|a|b" = true
  /\ after_bar "pause|a|b" = Some "a|b"
  /\ sent (run loaded [Deliver SYSTEM_CHANNEL "pause|a|b"; Tick])
     = [(SYSTEM_CHANNEL, "ready-for-app-events"); (SYSTEM_CHANNEL, "release-pause-event|a")]
  /\ ~ (forall t id : string,
          String.prefix "pause" t = true -> after_bar t = Some id ->
          release_message t = "release-pause-event|" ++ id).
Proof.
  repeat split.
  intros H. specialize (H "pause|a|b" "a|b" eq_refl eq_refl). discriminate H.
Qed.

(** C9 (amended). For every text [t] received on the system channel: the
    closure queued is the pause closure exactly when [t] begins with
    [pause]; that closure emits under the name [pause] whatever follows the
    prefix; and the event id it sends back is the part of [t] between its
    first bar and the next bar (or the end of [t]), when [t] has a bar. *)
Theorem pause_prefix_matching (name t : string) (st : runtime) :
  immediates (SystemChannel_emitWrapper name t st)
  = (immediates st
       ++ [if String.prefix "pause" t then PauseClosure name t else EmitClosure name t []])%list
  /\ (exists lock n,
         emitted (run_closure (PauseClosure name t) st)
         = (emitted st ++ [{| em_channel := name; em_type := "pause";
                              em_args := LockArg lock; em_listeners := n |}])%list)
  /\ release_message t
     = match after_bar t with
       | None => "release-pause-event"
       | Some r => "release-pause-event|" ++ before_bar r
       end.
Proof.
  split; [|split].
  - unfold SystemChannel_emitWrapper. destruct (String.prefix "pause" t); reflexivity.
  - unfold run_closure.
    destruct (new_SystemEventLock _ _ _) as [eventLock o].
    eexists; eexists. reflexivity.
  - apply release_message_parts.
Qed.

(** *** The barrier of a pause *)

Lemma nth_error_replace_nth {A : Type} (n : nat) (x y : A) (l : list A) :
  nth_error l n = Some y -> nth_error (replace_nth n x l) n = Some x.
Proof.
  revert n. induction l as [|a l IH]; intros [|n]; simpl; try discriminate; auto.
Qed.

Lemma release_lock_at (lock : nat) (this : SystemEventLock outbox) (st : runtime) :
  nth_error (locks st) lock = Some this ->
  nth_error (locks (release_lock lock st)) lock = Some (fst (release this (sent st)))
  /\ sent (release_lock lock st) = snd (release this (sent st)).
Proof.
  intros H. unfold release_lock. rewrite H.
  destruct (release this (sent st)) as [this' o]. simpl.
  split; [|reflexivity]. now apply nth_error_replace_nth with (y := this).
Qed.

(** [k] calls of [release()] on one lock, nothing in between. *)
Lemma run_releases (lock k : nat) (this : SystemEventLock outbox) (st : runtime) :
  nth_error (locks st) lock = Some this ->
  sent (run st (repeat (Release lock) k)) = snd (releases k this (sent st)).
Proof.
  revert this st. induction k as [|k IH]; intros this st H; [reflexivity|].
  change (run st (repeat (Release lock) (S k)))
    with (run (release_lock lock st) (repeat (Release lock) k)).
  destruct (release_lock_at lock this st H) as [Hlock Hsent].
  rewrite (IH _ _ Hlock), Hsent. simpl.
  destruct (release this (sent st)); reflexivity.
Qed.

Lemma nth_error_snoc {A : Type} (l : list A) (x : A) :
  nth_error (l ++ [x])%list (List.length l) = Some x.
Proof. induction l; simpl; auto. Qed.

(** C4, as stated: the message sent back would carry the event id of
    [pause|<eventId>] whatever the id, and the count would be the one at
    receipt.  With no pause listener the barrier fires at once, and for the id
    [a|b] it sends [release-pause-event|a]; and a listener registered after the
    receipt and before the closure runs is counted, so that nothing is sent
    back although there was no listener at receipt. *)
Lemma pause_release_counterexample :
  sent (run loaded [Deliver SYSTEM_CHANNEL ("pause|" ++ "a|b"); Tick])
  = [(SYSTEM_CHANNEL, "ready-for-app-events"); (SYSTEM_CHANNEL, "release-pause-event|a")]
  /\ ~ (forall eventId : string,
          sent (run loaded [Deliver SYSTEM_CHANNEL ("pause|" ++ eventId); Tick])
          = [(SYSTEM_CHANNEL, "ready-for-app-events");
             (SYSTEM_CHANNEL, "release-pause-event|" ++ eventId)])
  /\ listenerCount SYSTEM_CHANNEL "pause" (run loaded [Deliver SYSTEM_CHANNEL "pause"]) = O
  /\ sent (run loaded [Deliver SYSTEM_CHANNEL "pause"; On SYSTEM_CHANNEL "pause"; Tick])
     = [(SYSTEM_CHANNEL, "ready-for-app-events")].
Proof.
  split; [reflexivity|]. split; [|split; reflexivity].
  intros H. specialize (H "a|b"). vm_compute in H. discriminate H.
Qed.

(** C4 (amended). A pause text delivered on the system channel is only queued,
    as a closure at the end of the queue of [setImmediate].  When that closure
    runs, the count [N] of the pause listeners at that moment becomes the count
    of a new event lock, and [pause] is emitted to those [N] listeners with the
    lock.  The lock sends its message once, in the call of [release()] number
    [N], or in its constructor when [N = 0].  The message is
    [release-pause-event] for the text [pause], and
    [release-pause-event|<eventId>] for the text [pause|<eventId>] when the id
    has no bar in it. *)
Theorem pause_barrier_release (received running : runtime) (type : string) :
  lookup_channel SYSTEM_CHANNEL (channels received) = Some IsSystemChannel ->
  String.prefix "pause" type = true ->
  let N := listenerCount SYSTEM_CHANNEL "pause" running in
  let lock := List.length (locks running) in
  let emitting := run_closure (PauseClosure SYSTEM_CHANNEL type) running in
  bridgeListener SYSTEM_CHANNEL type received
  = Normal (setImmediate (PauseClosure SYSTEM_CHANNEL type) received)
  /\ emitted emitting
     = (emitted running ++ [{| em_channel := SYSTEM_CHANNEL; em_type := "pause";
                               em_args := LockArg lock; em_listeners := N |}])%list
  /\ nth_error (locks emitting) lock
     = Some {| _locksAcquired := Z.of_nat N;
               _callback := sendMessage SYSTEM_CHANNEL (release_message type);
               _hasReleased := (N =? 0)%nat |}
  /\ (forall k : nat,
         sent (run emitting (repeat (Release lock) k))
         = (sent running
              ++ if (N <=? k)%nat then [(SYSTEM_CHANNEL, release_message type)] else [])%list)
  /\ (type = "pause" -> release_message type = "release-pause-event")
  /\ (forall eventId, after_bar eventId = None -> type = "pause|" ++ eventId ->
        release_message type = "release-pause-event|" ++ eventId).
Proof.
  intros Hch Hprefix N lock emitting.
  pose proof (barrier_state (sendMessage SYSTEM_CHANNEL (release_message type))
                (Z.of_nat N) O (sent running)) as Hnew.
  simpl releases in Hnew.
  destruct (new_SystemEventLock (sendMessage SYSTEM_CHANNEL (release_message type))
              (Z.of_nat N) (sent running)) as [eventLock o] eqn:Enew.
  assert (Hlocks : locks emitting = (locks running ++ [eventLock])%list /\ sent emitting = o).
  { unfold emitting, run_closure. fold N. rewrite Enew. split; reflexivity. }
  destruct Hlocks as [Hlocks Hsent].
  split; [|split; [|split; [|split; [|split]]]].
  - unfold bridgeListener. rewrite Hch.
    unfold SystemChannel_processData, SystemChannel_emitWrapper. now rewrite Hprefix.
  - unfold emitting, run_closure. fold N. rewrite Enew. reflexivity.
  - rewrite Hlocks. unfold lock. rewrite nth_error_snoc. f_equal.
    injection Hnew as -> _. f_equal.
    + destruct (Z.of_nat N <=? 0) eqn:E; [reflexivity|].
      apply Z.leb_gt in E. rewrite Z.sub_0_r, Z.max_l by lia. reflexivity.
    + change (Z.of_nat 0) with 0. destruct N; reflexivity.
  - intros k.
    rewrite (run_releases lock k eventLock emitting)
      by (rewrite Hlocks; apply nth_error_snoc).
    rewrite Hsent.
    pose proof (barrier_state (sendMessage SYSTEM_CHANNEL (release_message type))
                  (Z.of_nat N) k (sent running)) as Hk.
    rewrite Enew in Hk. rewrite Hk. simpl snd.
    destruct (N <=? k)%nat eqn:E.
    + apply Nat.leb_le in E.
      replace (Z.of_nat N <=? Z.of_nat k) with true by (symmetry; apply Z.leb_le; lia).
      reflexivity.
    + apply Nat.leb_gt in E.
      replace (Z.of_nat N <=? Z.of_nat k) with false by (symmetry; apply Z.leb_gt; lia).
      now rewrite app_nil_r.
  - intros ->. reflexivity.
  - intros eventId Hid ->. rewrite release_message_parts.
    change ("pause|" ++ eventId) with ("pause" ++ String "|" eventId).
    rewrite after_bar_app by reflexivity. now rewrite before_bar_no_bar.
Qed.

(** C4 with two pause listeners and the text [pause|42]: nothing is sent after
    one call of [release()], the message is there after three. *)
Lemma pause_barrier_release_witness :
  let st := run loaded [On SYSTEM_CHANNEL "pause"; On SYSTEM_CHANNEL "pause"] in
  let emitting := run st [Deliver SYSTEM_CHANNEL "pause|42"; Tick] in
  sent (run emitting [Release 0]) = [(SYSTEM_CHANNEL, "ready-for-app-events")]
  /\ sent (run emitting [Release 0; Release 0; Release 0])
     = [(SYSTEM_CHANNEL, "ready-for-app-events"); (SYSTEM_CHANNEL, "release-pause-event|42")].
Proof.
  pose proof (pause_barrier_release
                (run loaded [On SYSTEM_CHANNEL "pause"; On SYSTEM_CHANNEL "pause"])
                (run loaded [On SYSTEM_CHANNEL "pause"; On SYSTEM_CHANNEL "pause"])
                "pause|42" eq_refl eq_refl) as H.
  cbv zeta in H. destruct H as (_ & _ & _ & Hsent & _ & Hid).
  split.
  - exact (Hsent 1%nat).
  - pose proof (Hsent 3%nat) as H3.
    rewrite (Hid "42" eq_refl eq_refl) in H3. exact H3.
Defined.

(** ** The native subscription of the host channel *)

Section HostChannel.
Import Host.

Lemma subscribed_apply_call (this : EventChannel) (c : call) :
  subscribed_iff_counted this -> subscribed_iff_counted (apply_call this c).
Proof.
  unfold subscribed_iff_counted. destruct c as [event|handle]; simpl.
  - unfold addListener. simpl.
    destruct (listenerCount this + 1 =? 1) eqn:E; simpl.
    + apply Z.eqb_eq in E. unfold startNativeSubscription. simpl.
      destruct (subscription this); simpl; lia.
    + apply Z.eqb_neq in E. destruct (subscription this); simpl; lia.
  - unfold remove. simpl.
    destruct (listenerCount this - 1 =? 0) eqn:E; simpl.
    + apply Z.eqb_eq in E. unfold stopNativeSubscription. simpl.
      destruct (subscription this); simpl; lia.
    + apply Z.eqb_neq in E. destruct (subscription this); simpl; lia.
Qed.

Lemma subscribed_after_calls (name : string) (calls : list call) :
  subscribed_iff_counted (after_calls name calls).
Proof.
  unfold after_calls.
  assert (H : subscribed_iff_counted (new_EventChannel name)) by (simpl; unfold subscribed_iff_counted; simpl; lia).
  revert H. generalize (new_EventChannel name).
  induction calls as [|c calls IH]; intros this H; simpl; [assumption|].
  apply IH. now apply subscribed_apply_call.
Qed.

Lemma filter_snoc {A : Type} (f : A -> bool) (l : list A) (x : A) :
  filter f (l ++ [x])%list = (filter f l ++ if f x then [x] else [])%list.
Proof. rewrite filter_app. simpl. destruct (f x); reflexivity. Qed.

(** The native subscription follows the private counter: in every state
    the channel reaches by calls of [addListener] and of [remove], a call of
    [addListener] starts the native subscription exactly when it takes
    [#listenerCount] from 0 to 1 (and never stops it), and a call of [remove]
    stops it exactly when it takes [#listenerCount] from 1 to 0 (and never
    starts it).  Three listeners added and then removed make one activation
    and one deactivation. *)
Lemma subscription_follows_the_counter :
  (forall (name : string) (calls : list call) (event : string),
      let this := after_calls name calls in
      let this' := fst (addListener event this) in
      listenerCount this' = listenerCount this + 1
      /\ activations this'
         = (activations this + if (listenerCount this =? 0)%Z then 1 else 0)%nat
      /\ deactivations this' = deactivations this)
  /\ (forall (name : string) (calls : list call) (handle : nat),
         let this := after_calls name calls in
         let this' := remove handle this in
         listenerCount this' = listenerCount this - 1
         /\ deactivations this'
            = (deactivations this + if (listenerCount this =? 1)%Z then 1 else 0)%nat
         /\ activations this' = activations this)
  /\ (let added := after_calls EVENT_CHANNEL
                     [AddListener "a"; AddListener "b"; AddListener "c"] in
      let removed := fold_left apply_call [Remove 0; Remove 1; Remove 2]%nat added in
      (activations added, deactivations added) = (1, 0)%nat
      /\ (activations removed, deactivations removed) = (1, 1)%nat
      /\ subscription removed = None /\ registered removed = []).
Proof.
  split; [|split].
  - intros name calls event this this'.
    pose proof (subscribed_after_calls name calls) as Hinv. fold this in Hinv.
    unfold subscribed_iff_counted in Hinv.
    unfold this', addListener, activations, deactivations. simpl.
    replace (listenerCount this + 1 =? 1) with (listenerCount this =? 0)
      by (destruct (listenerCount this =? 0) eqn:E;
          [apply Z.eqb_eq in E; symmetry; apply Z.eqb_eq; lia
          | apply Z.eqb_neq in E; symmetry; apply Z.eqb_neq; lia]).
    destruct (listenerCount this =? 0) eqn:E; simpl.
    + apply Z.eqb_eq in E. unfold startNativeSubscription. simpl.
      destruct (subscription this); [lia|]. simpl.
      rewrite !filter_snoc. simpl. rewrite length_app, app_nil_r. simpl. auto.
    + rewrite Nat.add_0_r. auto.
  - intros name calls handle this this'.
    pose proof (subscribed_after_calls name calls) as Hinv. fold this in Hinv.
    unfold subscribed_iff_counted in Hinv.
    unfold this', remove, activations, deactivations. simpl.
    replace (listenerCount this - 1 =? 0) with (listenerCount this =? 1)
      by (destruct (listenerCount this =? 1) eqn:E;
          [apply Z.eqb_eq in E; symmetry; apply Z.eqb_eq; lia
          | apply Z.eqb_neq in E; symmetry; apply Z.eqb_neq; lia]).
    destruct (listenerCount this =? 1) eqn:E; simpl.
    + apply Z.eqb_eq in E. unfold stopNativeSubscription. simpl.
      destruct (subscription this); [|lia]. simpl.
      rewrite !filter_snoc. simpl. rewrite length_app, app_nil_r. simpl. auto.
    + rewrite Nat.add_0_r. auto.
  - repeat split; reflexivity.
Qed.

(** C5. The native subscription does not follow the local listeners when a
    subscription is removed twice.  After [addListener], [remove()] of its
    subscription, the same [remove()] again and a second [addListener], no
    listener was registered before the last call and one is registered after
    it, yet the call does not start the native subscription, since it takes
    [#listenerCount] from -1 to 0: one listener is registered, the counter is 0,
    there is no native subscription, and no message of the native module
    reaches the listener.  The third listener added afterwards, which takes the
    listeners from one to two, is the one that starts the native subscription. *)
Theorem repeated_remove_loses_the_native_subscription :
  let before := after_calls EVENT_CHANNEL [AddListener "e"; Remove 0; Remove 0]%nat in
  let this := fst (addListener "e" before) in
  let next := fst (addListener "e" this) in
  (registered before = [] /\ listenerCount before = -1)
  /\ (registered this = [(1%nat, "e")] /\ listenerCount this = 0)
  /\ subscription this = None
  /\ activations this = activations before
  /\ (forall message, native_event EVENT_CHANNEL message this = this)
  /\ (List.length (registered next) = 2%nat
      /\ subscription next <> None
      /\ activations next = S (activations this)).
Proof.
  cbv zeta. repeat split; try reflexivity. discriminate.
Qed.

End HostChannel.

(** *** The count and the listeners *)

Section Counted.
Import Host.

Lemma remove_one (handle : nat) (l : list (nat * string)) :
  NoDup (map fst l) -> existsb (fun x => Nat.eqb (fst x) handle) l = true ->
  S (List.length (filter (fun x => negb (Nat.eqb (fst x) handle)) l)) = List.length l.
Proof.
  induction l as [|[h e] l IH]; simpl; [discriminate|].
  intros Hnd Hex. inversion Hnd as [|h' l' Hnotin Hnd']; subst.
  destruct (Nat.eqb h handle) eqn:E; simpl.
  - apply Nat.eqb_eq in E. subst h. f_equal.
    assert (Hall : forall x, In x l -> negb (Nat.eqb (fst x) handle) = true).
    { intros x Hx. apply negb_true_iff, Nat.eqb_neq. intros Heq. apply Hnotin.
      rewrite <- Heq. now apply in_map. }
    clear -Hall. induction l as [|x l IH]; simpl; [reflexivity|].
    rewrite (Hall x (or_introl eq_refl)). simpl. f_equal. apply IH.
    intros y Hy. apply Hall. now right.
  - f_equal. apply IH; assumption.
Qed.

Lemma NoDup_filter_fst (f : nat * string -> bool) (l : list (nat * string)) :
  NoDup (map fst l) -> NoDup (map fst (filter f l)).
Proof.
  induction l as [|x l IH]; simpl; [constructor|].
  intros Hnd. inversion Hnd as [|h l' Hnotin Hnd']; subst.
  destruct (f x); simpl; [|now apply IH].
  constructor; [|now apply IH].
  intros Hin. apply Hnotin. apply in_map_iff in Hin as (y & Hy & Hin).
  apply filter_In in Hin as [Hin _]. rewrite <- Hy. now apply in_map.
Qed.

Lemma counted_apply_call this c :
  counted this -> disciplined this [c] = true -> counted (apply_call this c).
Proof.
  intros (Hcount & Hnd & Hlt) Hd. unfold counted.
  destruct c as [event|handle]; simpl.
  - unfold addListener. cbv zeta. cbn [fst].
    assert (E : forall (b : bool) (x : EventChannel),
               registered (if b then startNativeSubscription x else x) = registered x
               /\ listenerCount (if b then startNativeSubscription x else x) = listenerCount x
               /\ handles (if b then startNativeSubscription x else x) = handles x).
    { intros b x. destruct b; [|auto].
      unfold startNativeSubscription. destruct (subscription x); auto. }
    match goal with |- context [if ?b then startNativeSubscription ?x else _] =>
      destruct (E b x) as (-> & -> & ->) end.
    cbn. rewrite length_app, map_app. cbn. repeat split.
    + rewrite Hcount. lia.
    + apply NoDup_app; [assumption | repeat constructor; auto |].
      intros h Hin [<- | []]. apply Hlt in Hin. lia.
    + intros h Hin. apply in_app_or in Hin as [Hin | [<- | []]]; [apply Hlt in Hin|]; lia.
  - simpl in Hd. rewrite andb_true_r in Hd. unfold remove. cbv zeta.
    assert (E : forall (b : bool) (x : EventChannel),
               registered (if b then stopNativeSubscription x else x) = registered x
               /\ listenerCount (if b then stopNativeSubscription x else x) = listenerCount x
               /\ handles (if b then stopNativeSubscription x else x) = handles x).
    { intros b x. destruct b; [|auto].
      unfold stopNativeSubscription. destruct (subscription x); auto. }
    match goal with |- context [if ?b then stopNativeSubscription ?x else _] =>
      destruct (E b x) as (-> & -> & ->) end.
    cbn. pose proof (remove_one handle (registered this) Hnd Hd) as Hone.
    repeat split.
    + rewrite Hcount. lia.
    + now apply NoDup_filter_fst.
    + intros h Hin. apply Hlt. apply in_map_iff in Hin as (y & <- & Hin).
      apply filter_In in Hin as [Hin _]. now apply in_map.
Qed.

(** When every [remove()] is the first one on its subscription, the count is
    the number of listeners the emitter holds. *)
Lemma count_is_registered (name : string) (calls : list call) :
  disciplined (new_EventChannel name) calls = true ->
  listenerCount (after_calls name calls)
  = Z.of_nat (List.length (registered (after_calls name calls))).
Proof.
  unfold after_calls.
  assert (H : counted (new_EventChannel name)).
  { repeat split; simpl; [constructor | intros h []]. }
  revert H. generalize (new_EventChannel name).
  induction calls as [|c calls IH]; intros this H Hd; simpl.
  - apply H.
  - simpl in Hd. apply andb_true_iff in Hd as [Hc Hd].
    apply IH; [|exact Hd]. apply counted_apply_call; [exact H|].
    simpl. now rewrite Hc.
Qed.

End Counted.

(** ** Errors of the codec on the two sides *)

(** An error of [serialize] leaves [post] as it is thrown, on both sides. *)
Lemma post_throws_embedded name event msg st e :
  MessageCodec.serialize event msg = Throw e -> RnBridge.post name event msg st = Throw e.
Proof. intros H. unfold RnBridge.post. now rewrite H. Qed.

Lemma post_throws_host event msg this e :
  MessageCodec.serialize event msg = Throw e -> Host.post event msg this = Throw e.
Proof. intros H. unfold Host.post. now rewrite H. Qed.

(** On the host a message that does not decode is logged and dropped. *)
Lemma host_drops_undecodable data this e :
  MessageCodec.deserialize (VString data) = Throw e ->
  Host.processData data this = Host.warn e this.
Proof. intros H. unfold Host.processData. now rewrite H. Qed.

(** On the embedded side the same error leaves [bridgeListener]. *)
Lemma embedded_throws_undecodable data st e :
  RnBridge.lookup_channel RnBridge.EVENT_CHANNEL (RnBridge.channels st)
  = Some RnBridge.IsEventChannel ->
  MessageCodec.deserialize (VString data) = Throw e ->
  RnBridge.bridgeListener RnBridge.EVENT_CHANNEL data st = Throw e.
Proof.
  intros Hch H. unfold RnBridge.bridgeListener. rewrite Hch.
  unfold RnBridge.EventChannel_processData. now rewrite H.
Qed.

(** C6. Decode-failure isolation fails on the embedded side: the text
    [not json] delivered on the events channel makes [bridgeListener] throw the
    error of [deserialize] to the native code that called it, where the host
    channel, given the same text, logs the error and returns. *)
Theorem decode_failure_leaves_bridgeListener :
  RnBridge.bridgeListener RnBridge.EVENT_CHANNEL "not json" RnBridge.loaded
  = Throw (MessageCodecError "Failed to deserialize message"
             (Some (SyntaxError "Unexpected token or end of JSON input")))
  /\ Host.processData "not json" (Host.new_EventChannel Host.EVENT_CHANNEL)
     = Host.warn (MessageCodecError "Failed to deserialize message"
                    (Some (SyntaxError "Unexpected token or end of JSON input")))
         (Host.new_EventChannel Host.EVENT_CHANNEL).
Proof. split; reflexivity. Qed.

(** ** Deferred emission *)

Import Deferred.

Arguments MessageCodec.deserialize : simpl never.
Arguments MessageCodec.serialize : simpl never.

Section EmbeddedOrder.
Import RnBridge.

(** What the loop adds to the outcome of a closure: the exception on
    record, and nothing else. *)
Lemma to_the_loop_frame (st : runtime) (thrown : option js_error) :
  channels (to_the_loop (st, thrown)) = channels st
  /\ listeners (to_the_loop (st, thrown)) = listeners st
  /\ immediates (to_the_loop (st, thrown)) = immediates st
  /\ locks (to_the_loop (st, thrown)) = locks st
  /\ sent (to_the_loop (st, thrown)) = sent st
  /\ emitted (to_the_loop (st, thrown)) = emitted st
  /\ console (to_the_loop (st, thrown)) = console st
  /\ uncaught (to_the_loop (st, thrown))
     = (uncaught st ++ match thrown with Some e => [e] | None => [] end)%list.
Proof. destruct thrown; simpl; rewrite ?app_nil_r; repeat split. Qed.




End EmbeddedOrder.

Section HostOrder.
Import Host.





Lemma emitted_after_from_node h channelName msg :
  emitted (channel (step h (FromNode channelName msg))) = emitted (channel h).
Proof. reflexivity. Qed.

Lemma name_step h i : name (channel (step h i)) = name (channel h).
Proof.
  destruct i as [channelName msg| | | | |c|event msg]; simpl; try reflexivity.
  - destruct (main_queue (android h)) as [|[channelName msg] q]; [reflexivity|]. simpl.
    unfold native_event. destruct (subscription (channel h)); [|reflexivity].
    destruct (negb _); [reflexivity|]. unfold processData.
    destruct (MessageCodec.deserialize _); reflexivity.
  - destruct c as [event|handle]; simpl.
    + unfold addListener. simpl. destruct (_ =? 1); [|reflexivity].
      unfold startNativeSubscription. simpl. destruct (subscription _); reflexivity.
    + unfold remove. simpl. destruct (_ =? 0); [|reflexivity].
      unfold stopNativeSubscription. simpl. destruct (subscription _); reflexivity.
  - destruct (MessageCodec.serialize event msg); reflexivity.
Qed.




End HostOrder.

Section HostExact.
Import Host.



End HostExact.



(** The host at work: started from a module instance and with a listener on
    the channel, it hears the two events the embedded side posts, in their
    order, each in its own turn of the main dispatcher. *)
Example host_hears_in_order :
  let text event := JSON.wire ("{'event':'" ++ event ++ "','payload':[]}") in
  let trace := [Host.StartNode; Host.Call (Host.AddListener "a");
                Host.FromNode Host.EVENT_CHANNEL (text "a");
                Host.FromNode Host.EVENT_CHANNEL (text "b");
                Host.MainTurn; Host.MainTurn] in
  attentive Host.booted trace = true
  /\ map host_heard_of (Host.emitted (Host.channel (Host.run Host.booted trace)))
     = [("a", []); ("b", [])].
Proof. split; reflexivity. Qed.

(** ** Readiness *)

Section Readiness.
Import Host.

Lemma ready_step (h : host) (i : input) : ready h = true -> ready (step h i) = true.
Proof.
  unfold ready. intros H. destruct i as [channelName msg| | | | |c|event msg]; simpl.
  - unfold sendMessageToApplication, handleAppChannelMessage, sendMessageBackToReact.
    destruct (String.eqb channelName SYSTEM_CHANNEL).
    + destruct (String.eqb msg "ready-for-app-events"); [reflexivity | exact H].
    + destruct (instance (android h)); exact H.
  - destruct (main_queue (android h)) as [|[channelName msg] q]; exact H.
  - unfold OnActivityEntersBackground. rewrite H. exact H.
  - unfold OnActivityEntersForeground. rewrite H. exact H.
  - exact H.
  - exact H.
  - destruct (MessageCodec.serialize event msg); exact H.
Qed.

Lemma ready_only_by_signal (h : host) (i : input) :
  ready h = false -> ready (step h i) = true ->
  i = FromNode SYSTEM_CHANNEL "ready-for-app-events".
Proof.
  unfold ready. intros H H'. destruct i as [channelName msg| | | | |c|event msg]; simpl in H'.
  - unfold sendMessageToApplication, handleAppChannelMessage, sendMessageBackToReact in H'.
    destruct (String.eqb channelName SYSTEM_CHANNEL) eqn:Ec.
    + destruct (String.eqb msg "ready-for-app-events") eqn:Em; [|congruence].
      apply String.eqb_eq in Ec, Em. now subst.
    + destruct (instance (android h)); simpl in H'; congruence.
  - destruct (main_queue (android h)) as [|[channelName msg] q]; simpl in H'; congruence.
  - unfold OnActivityEntersBackground in H'. rewrite H in H'. congruence.
  - unfold OnActivityEntersForeground in H'. rewrite H in H'. congruence.
  - congruence.
  - congruence.
  - destruct (MessageCodec.serialize event msg); simpl in H'; congruence.
Qed.

(** A step from a state that is not ready adds nothing to the traffic of the
    system channel. *)
Lemma silent_step (h : host) (i : input) :
  name (channel h) = EVENT_CHANNEL -> ready h = false ->
  system_traffic (step h i) = system_traffic h.
Proof.
  unfold ready, system_traffic. intros Hname H.
  destruct i as [channelName msg| | | | |c|event msg]; simpl.
  - unfold sendMessageToApplication, handleAppChannelMessage, sendMessageBackToReact.
    destruct (String.eqb channelName SYSTEM_CHANNEL).
    + destruct (String.eqb msg "ready-for-app-events"); reflexivity.
    + destruct (instance (android h)); reflexivity.
  - destruct (main_queue (android h)) as [|[channelName msg] q]; reflexivity.
  - unfold OnActivityEntersBackground. now rewrite H.
  - unfold OnActivityEntersForeground. now rewrite H.
  - reflexivity.
  - reflexivity.
  - destruct (MessageCodec.serialize event msg) as [text|e]; simpl; [|reflexivity].
    rewrite Hname, filter_app. simpl. now rewrite app_nil_r.
Qed.

Lemma silent_until_ready (trace : list input) :
  let h := run booted trace in
  name (channel h) = EVENT_CHANNEL /\ (ready h = false -> system_traffic h = []).
Proof.
  induction trace as [|i trace IH] using rev_ind.
  - split; reflexivity.
  - unfold run in *. rewrite fold_left_app. simpl.
    destruct IH as [Hname Hs]. split; [now rewrite name_step|].
    intros H.
    destruct (ready (fold_left step trace booted)) eqn:E.
    + apply (ready_step _ i) in E. congruence.
    + rewrite silent_step; auto.
Qed.

End Readiness.

(** *** The two sides together *)

Lemma quiet_after (st : RnBridge.runtime) (i : RnBridge.input) :
  match i with
  | RnBridge.Deliver channelName _ => channelName <> RnBridge.SYSTEM_CHANNEL
  | _ => True
  end ->
  lifecycle_quiet st -> lifecycle_quiet (RnBridge.after st i).
Proof.
  intros Hi [He Hq]. unfold lifecycle_quiet, RnBridge.after.
  destruct i as [channelName data| |c t|c t|event msg|lock]; simpl.
  - unfold RnBridge.bridgeListener.
    destruct (RnBridge.lookup_channel channelName (RnBridge.channels st)) as [[|]|]; simpl.
    + unfold RnBridge.SystemChannel_emitWrapper.
      destruct (String.prefix "pause" data); simpl; split; try assumption;
        apply Forall_app; split; try assumption; repeat constructor; exact Hi.
    + unfold RnBridge.EventChannel_processData.
      destruct (MessageCodec.deserialize (VString data)); simpl; split; try assumption.
      apply Forall_app; split; try assumption; repeat constructor; exact Hi.
    + split; assumption.
  - unfold RnBridge.tick.
    destruct (RnBridge.immediates st) as [|f q] eqn:E; [split; [assumption | now rewrite E]|].
    inversion Hq as [|f' q' Hf Hq']; subst.
    destruct f as [channel type msg|channel type]; cbn [RnBridge.run_closure].
    + unfold RnBridge.emitLocal. destruct (RnBridge.unhandled _ _ _ _); simpl;
        (split; [|assumption]); (apply Forall_app; split; [assumption|]);
        repeat constructor; exact Hf.
    + destruct (RnBridge.new_SystemEventLock _ _ _).
      unfold RnBridge.emitLocal. destruct (RnBridge.unhandled _ _ _ _); simpl;
        (split; [|assumption]); (apply Forall_app; split; [assumption|]);
        repeat constructor; exact Hf.
  - split; assumption.
  - split; assumption.
  - unfold RnBridge.post. destruct (MessageCodec.serialize event msg); simpl; split; assumption.
  - unfold RnBridge.release_lock.
    destruct (nth_error (RnBridge.locks st) lock) as [this|]; [|split; assumption].
    destruct (RnBridge.release this (RnBridge.sent st)). split; assumption.
Qed.

Lemma silent_no_system (h : Host.host) (k : nat) channelName msg :
  system_traffic h = [] ->
  nth_error (Host.to_node (Host.android h)) k = Some (channelName, msg) ->
  channelName <> Host.SYSTEM_CHANNEL.
Proof.
  unfold system_traffic. intros Hs Hk Heq. apply nth_error_In in Hk.
  assert (Hin : In (channelName, msg)
                  (filter (fun m => String.eqb (fst m) Host.SYSTEM_CHANNEL)
                     (Host.to_node (Host.android h)))).
  { apply filter_In. split; [assumption|]. simpl. now apply String.eqb_eq. }
  rewrite Hs in Hin. exact Hin.
Qed.

Lemma gated_step (b : Bridge.bridge) (e : Bridge.event) : gated b -> gated (Bridge.step b e).
Proof.
  intros [Hname Hg].
  assert (Hhost : forall i,
             gated {| Bridge.host := Host.step (Bridge.host b) i; Bridge.node := Bridge.node b |}).
  { intros i. split; [simpl; now rewrite name_step|]. simpl. intros Hr.
    destruct (ready (Bridge.host b)) eqn:E.
    - apply (ready_step _ i) in E. congruence.
    - destruct (Hg eq_refl) as [Hs Hq]. split; [|exact Hq].
      rewrite silent_step; auto. }
  assert (Hnode : forall i,
             match i with
             | RnBridge.Deliver channelName _ =>
                 ready (Bridge.host b) = false -> channelName <> RnBridge.SYSTEM_CHANNEL
             | _ => True
             end ->
             gated {| Bridge.host := Bridge.host b;
                      Bridge.node := RnBridge.after (Bridge.node b) i |}).
  { intros i Hi. split; [exact Hname|]. simpl. intros Hr.
    destruct (Hg Hr) as [Hs Hq]. split; [exact Hs|].
    apply quiet_after; [|exact Hq]. destruct i; auto. }
  destruct e as [i|i|k|k]; simpl.
  - destruct i as [c m| | | | |c|ev m];
      [split; assumption
      |exact (Hhost Host.MainTurn)|exact (Hhost Host.EntersBackground)
      |exact (Hhost Host.EntersForeground)|exact (Hhost Host.StartNode)
      |exact (Hhost (Host.Call c))|exact (Hhost (Host.Post ev m))].
  - destruct i as [c d| |c t|c t|ev m|l];
      [split; assumption
      |exact (Hnode RnBridge.Tick I)|exact (Hnode (RnBridge.On c t) I)
      |exact (Hnode (RnBridge.Off c t) I)|exact (Hnode (RnBridge.Post ev m) I)
      |exact (Hnode (RnBridge.Release l) I)].
  - destruct (nth_error _ k) as [[channelName msg]|] eqn:Ek; [|split; assumption].
    apply (Hnode (RnBridge.Deliver channelName msg)). intros Hr. destruct (Hg Hr) as [Hs _].
    exact (silent_no_system _ _ _ _ Hs Ek).
  - destruct (nth_error _ k) as [[channelName msg]|]; [|split; assumption].
    exact (Hhost (Host.FromNode channelName msg)).
Qed.

Lemma gated_run (events : list Bridge.event) : gated (Bridge.run Bridge.start events).
Proof.
  unfold Bridge.run.
  assert (H : gated Bridge.start).
  { split; [reflexivity|]. intros _. split; [reflexivity|]. split; constructor. }
  revert H. generalize Bridge.start.
  induction events as [|e events IH]; intros b H; simpl; [exact H|].
  apply IH. now apply gated_step.
Qed.

(** C8. Readiness gating: along every run of the host, the flag
    [nodeIsReadyForAppEvents] once set stays set; it is set by the message
    [ready-for-app-events] on the system channel and by nothing else; and as
    long as it is not set the host has sent nothing on the system channel, no
    [pause] and no [resume], whatever the next event is.  So, with the two
    sides together and the transport handing over what each side sent, no
    event of the system channel has reached the listeners of the embedded side
    as long as the flag is not set. *)
Theorem readiness_gates_lifecycle_events (trace : list Host.input) (i : Host.input) :
  let h := Host.run Host.booted trace in
  (ready h = true -> ready (Host.step h i) = true)
  /\ (ready h = false -> ready (Host.step h i) = true ->
      i = Host.FromNode Host.SYSTEM_CHANNEL "ready-for-app-events")
  /\ (ready h = false -> system_traffic (Host.step h i) = [])
  /\ (forall events,
         let b := Bridge.run Bridge.start events in
         ready (Bridge.host b) = false ->
         Forall (fun e => RnBridge.em_channel e <> RnBridge.SYSTEM_CHANNEL)
           (RnBridge.emitted (Bridge.node b))).
Proof.
  intros h. split; [|split; [|split]].
  - apply ready_step.
  - apply ready_only_by_signal.
  - intros H. destruct (silent_until_ready trace) as [Hname Hs].
    rewrite silent_step; auto.
  - intros events b Hr. destruct (gated_run events) as [_ Hg].
    destruct (Hg Hr) as [_ [He _]]. exact He.
Qed.

(** C8 on three runs: before the readiness message the lifecycle changes send
    nothing; after it they send [pause] and [resume]; and a pause reaches the
    listeners of the embedded side only after the readiness message has reached
    the host. *)
Lemma readiness_gates_lifecycle_events_witness :
  system_traffic
    (Host.run Host.booted
       [Host.StartNode; Host.EntersBackground; Host.Post (VString "hello") [];
        Host.EntersForeground; Host.EntersBackground]) = []
  /\ Host.to_node (Host.android
       (Host.run Host.booted
          [Host.StartNode; Host.EntersBackground; Host.Post (VString "hello") [];
           Host.FromNode Host.SYSTEM_CHANNEL "ready-for-app-events";
           Host.EntersBackground; Host.EntersForeground]))
     = [(Host.EVENT_CHANNEL, JSON.wire "{'event':'hello','payload':[]}");
        (Host.SYSTEM_CHANNEL, "pause"); (Host.SYSTEM_CHANNEL, "resume")]
  /\ map (fun e => (RnBridge.em_channel e, RnBridge.em_type e))
       (RnBridge.emitted
          (Bridge.node
             (Bridge.run Bridge.start
                [Bridge.AtHost Host.StartNode; Bridge.AtHost Host.EntersBackground;
                 Bridge.ToNode 0; Bridge.AtNode RnBridge.Tick;
                 Bridge.ToHost 0; Bridge.AtHost Host.EntersBackground;
                 Bridge.ToNode 0; Bridge.AtNode RnBridge.Tick])))
     = [(RnBridge.SYSTEM_CHANNEL, "pause")].
Proof.
  split; [|split].
  - exact (proj1 (proj2 (proj2 (readiness_gates_lifecycle_events
                           [Host.StartNode; Host.EntersBackground;
                            Host.Post (VString "hello") []; Host.EntersForeground]
                           Host.EntersBackground))) eq_refl).
  - reflexivity.
  - reflexivity.
Defined.

(** ** The attachment cache *)

Section Attachment.
Import AttachmentCache.

(** A detached thread that reads a count at the limit is refused, and nothing
    changes but its own place in the code. *)
Lemma refused_at_limit (id : nat) (t : thread) (c : cache) :
  at_ t = Outside -> tls_env t = None -> status t = JNI_EDETACHED ->
  cached_jvm c = true -> MAX_ATTACHED_THREADS <= attached_thread_count c ->
  get_jni_env id t c = (move t (Returned AttachmentRefused), c).
Proof.
  intros Hat Henv Hst Hjvm Hc. unfold get_jni_env. rewrite Hat, Henv, Hjvm, Hst. simpl.
  replace (attached_thread_count c >=? MAX_ATTACHED_THREADS) with true; [reflexivity|].
  symmetry. apply Z.geb_le. exact Hc.
Qed.

(** *** Calls that do not overlap *)

Lemma nth_error_set_thread id t l t0 :
  nth_error l id = Some t0 -> nth_error (set_thread id t l) id = Some t.
Proof. revert id. induction l; intros [|id]; simpl; try discriminate; auto. Qed.

Lemma Forall_set_thread (P : thread -> Prop) id t l :
  Forall P l -> P t -> Forall P (set_thread id t l).
Proof.
  intros H Ht. revert id. induction H; intros [|id]; simpl; constructor; auto.
Qed.

Lemma attached_set_thread id t l t0 :
  nth_error l id = Some t0 ->
  (List.length (filter tls_attached (set_thread id t l)) + (if tls_attached t0 then 1 else 0)
   = List.length (filter tls_attached l) + (if tls_attached t then 1 else 0))%nat.
Proof.
  revert id. induction l as [|x l IH]; intros [|id]; simpl; try discriminate.
  - intros [= ->]. destruct (tls_attached t0), (tls_attached t); simpl; lia.
  - intros H. specialize (IH id H). destruct (tls_attached x); simpl; lia.
Qed.

Lemma set_thread_set_thread id t t' l :
  set_thread id t' (set_thread id t l) = set_thread id t' l.
Proof. revert id. induction l; intros [|id]; simpl; try reflexivity. now rewrite IHl. Qed.

Lemma call_S n c id :
  call (S n) c id = let c' := sched c id in if returned c' id then c' else call n c' id.
Proof. reflexivity. Qed.

Lemma sched_set jvm count peak l id t0 t1 :
  nth_error l id = Some t0 ->
  sched {| cached_jvm := jvm; attached_thread_count := count;
           peak_attached_threads := peak; threads := set_thread id t1 l |} id
  = let (t', c') :=
      get_jni_env id t1 {| cached_jvm := jvm; attached_thread_count := count;
                           peak_attached_threads := peak; threads := l |} in
    {| cached_jvm := cached_jvm c'; attached_thread_count := attached_thread_count c';
       peak_attached_threads := peak_attached_threads c';
       threads := set_thread id t' l |}.
Proof.
  intros H. unfold sched. cbn [threads].
  rewrite (nth_error_set_thread id t1 l t0 H).
  assert (Hstart :
            forall r,
              at_ t1 = Outside \/ at_ t1 = Returned r ->
              (let (t', c') :=
                 get_jni_env id t1
                   {| cached_jvm := jvm; attached_thread_count := count;
                      peak_attached_threads := peak; threads := set_thread id t1 l |} in
               {| cached_jvm := cached_jvm c';
                  attached_thread_count := attached_thread_count c';
                  peak_attached_threads := peak_attached_threads c';
                  threads := set_thread id t' (threads c') |})
              = (let (t', c') :=
                   get_jni_env id t1
                     {| cached_jvm := jvm; attached_thread_count := count;
                        peak_attached_threads := peak; threads := l |} in
                 {| cached_jvm := cached_jvm c';
                    attached_thread_count := attached_thread_count c';
                    peak_attached_threads := peak_attached_threads c';
                    threads := set_thread id t' l |})).
  { intros r Hr. unfold get_jni_env.
    assert (E : forall (A : Type) (x y : A),
               match at_ t1 with
               | Outside | Returned _ => x
               | _ => y
               end = x).
    { intros A x y. destruct Hr as [-> | ->]; reflexivity. }
    destruct (at_ t1); try (destruct Hr; discriminate);
      (destruct (tls_env t1); cbn; rewrite ?set_thread_set_thread; [reflexivity|];
       destruct jvm; cbn; rewrite ?set_thread_set_thread; [|reflexivity];
       destruct (status t1); cbn; rewrite ?set_thread_set_thread; try reflexivity;
       destruct (count >=? MAX_ATTACHED_THREADS); cbn; rewrite ?set_thread_set_thread;
       reflexivity). }
  destruct (at_ t1) as [| |env|env cc|env cc cp|r] eqn:Eat.
  - apply (Hstart AttachmentRefused). now left.
  - unfold get_jni_env. rewrite Eat.
    destruct (attach_succeeds t1); cbn; rewrite ?set_thread_set_thread; reflexivity.
  - unfold get_jni_env. rewrite Eat. cbn. rewrite ?set_thread_set_thread. reflexivity.
  - unfold get_jni_env. rewrite Eat. cbn. rewrite ?set_thread_set_thread. reflexivity.
  - unfold get_jni_env. rewrite Eat. cbn.
    destruct (cc >? cp); cbn; rewrite ?set_thread_set_thread; [|reflexivity].
    destruct (peak =? cp); cbn; rewrite ?set_thread_set_thread; reflexivity.
  - apply (Hstart r). now right.
Qed.

Lemma returned_set jvm count peak l id t0 t1 :
  nth_error l id = Some t0 ->
  returned {| cached_jvm := jvm; attached_thread_count := count;
              peak_attached_threads := peak; threads := set_thread id t1 l |} id
  = match at_ t1 with Returned _ => true | _ => false end.
Proof. intros H. unfold returned. cbn [threads]. now rewrite (nth_error_set_thread id t1 l t0 H). Qed.

Lemma cache_eta c :
  c = {| cached_jvm := cached_jvm c; attached_thread_count := attached_thread_count c;
         peak_attached_threads := peak_attached_threads c; threads := threads c |}.
Proof. now destruct c. Qed.

Lemma set_thread_same id t l : nth_error l id = Some t -> set_thread id t l = l.
Proof. revert id. induction l; intros [|id]; simpl; try discriminate; intros H; [now injection H as -> | now rewrite IHl]. Qed.

Ltac take_step H :=
  rewrite call_S; rewrite (sched_set _ _ _ _ _ _ _ H);
  cbn [get_jni_env at_ move tls_env tls_attached status attach_succeeds
       cached_jvm attached_thread_count peak_attached_threads threads];
  cbv zeta.

Lemma acquire_outcome id t c :
  nth_error (threads c) id = Some t ->
  match at_ t with Outside | Returned _ => True | _ => False end ->
  acquire c id
  = let '(t', count, peak) := outcome id t c in
    {| cached_jvm := cached_jvm c; attached_thread_count := count;
       peak_attached_threads := peak; threads := set_thread id t' (threads c) |}.
Proof.
  intros H Hat. unfold acquire, outcome.
  rewrite (cache_eta c) at 1. rewrite <- (set_thread_same id t (threads c) H) at 1.
  take_step H.
  assert (E : forall c0, get_jni_env id t c0
              = match tls_env t with
                | Some env => (move t (Returned (Env env)), c0)
                | None =>
                    if negb (cached_jvm c0) then (move t (Returned NoJavaVM), c0)
                    else
                      match status t with
                      | JNI_OK =>
                          ({| tls_env := Some id; tls_attached := false; status := status t;
                              attach_succeeds := attach_succeeds t;
                              at_ := Returned (Env id) |}, c0)
                      | JNI_EDETACHED =>
                          if attached_thread_count c0 >=? MAX_ATTACHED_THREADS
                          then (move t (Returned AttachmentRefused), c0)
                          else (move t BeforeAttach, c0)
                      | JNI_EVERSION => (move t (Returned AttachmentFailed), c0)
                      end
                end).
  { intros c0. unfold get_jni_env. destruct (at_ t); try contradiction; reflexivity. }
  rewrite E. clear E. cbn [cached_jvm attached_thread_count].
  destruct (tls_env t) as [env|] eqn:Eenv.
  { cbn. rewrite (returned_set _ _ _ _ _ _ _ H). reflexivity. }
  destruct (negb (cached_jvm c)) eqn:Ejvm.
  { cbn. rewrite (returned_set _ _ _ _ _ _ _ H). reflexivity. }
  destruct (status t) eqn:Est.
  - cbn. rewrite (returned_set _ _ _ _ _ _ _ H). reflexivity.
  - destruct (attached_thread_count c >=? MAX_ATTACHED_THREADS) eqn:Elim.
    { cbn. rewrite (returned_set _ _ _ _ _ _ _ H). reflexivity. }
    cbn [cached_jvm attached_thread_count peak_attached_threads threads].
    rewrite (returned_set _ _ _ _ _ _ _ H). cbn [at_ move].
    take_step H.
    destruct (attach_succeeds t) eqn:Eatt.
    + rewrite (returned_set _ _ _ _ _ _ _ H). cbn [at_ move].
      take_step H. rewrite (returned_set _ _ _ _ _ _ _ H). cbn [at_ move].
      take_step H. rewrite (returned_set _ _ _ _ _ _ _ H). cbn [at_ move].
      take_step H.
      destruct (attached_thread_count c + 1 >? peak_attached_threads c) eqn:Egt.
      * rewrite Z.eqb_refl. cbn.
        rewrite Z.max_r by (apply Z.gtb_lt in Egt; lia). 
        rewrite (returned_set _ _ _ _ _ _ _ H). reflexivity.
      * cbn.
        assert (Hle : attached_thread_count c + 1 <= peak_attached_threads c).
        { rewrite Z.gtb_ltb in Egt. apply Z.ltb_ge in Egt. exact Egt. }
        rewrite Z.max_l by lia.
        rewrite (returned_set _ _ _ _ _ _ _ H). reflexivity.
    + cbn. rewrite (returned_set _ _ _ _ _ _ _ H). reflexivity.
  - cbn. rewrite (returned_set _ _ _ _ _ _ _ H). reflexivity.
Qed.

Lemma acquire_nobody c id : nth_error (threads c) id = None -> acquire c id = c.
Proof.
  intros H. unfold acquire. rewrite call_S. unfold sched, returned. rewrite H.
  cbv zeta. now rewrite H.
Qed.

Lemma bounded_started n : bounded (started n).
Proof.
  unfold bounded, attached. simpl.
  assert (E : filter tls_attached (repeat fresh_thread n) = []).
  { induction n; simpl; auto. }
  rewrite E. repeat split; try (unfold MAX_ATTACHED_THREADS; lia).
  apply Forall_forall. intros t Ht. apply repeat_spec in Ht. subst t.
  split; [exact I | discriminate].
Qed.

Lemma bounded_happen c e : bounded c -> bounded (happen c e).
Proof.
  intros (Hjvm & Hrest & Hcount & [Hlo Hhi] & Hpeak). destruct e as [id|id]; simpl.
  - (* a call of get_jni_env *)
    destruct (nth_error (threads c) id) as [t|] eqn:Hn;
      [|rewrite acquire_nobody by assumption; repeat split; assumption].
    assert (Ht : at_rest t).
    { rewrite Forall_forall in Hrest. apply Hrest. eapply nth_error_In; eauto. }
    destruct Ht as [Hat Henv].
    rewrite (acquire_outcome id t c Hn Hat). unfold outcome.
    pose proof (attached_set_thread id) as Hset.
    unfold bounded, attached.
    destruct (tls_env t) as [env|] eqn:Eenv.
    { cbn. specialize (Hset (move t (Returned (Env env))) _ _ Hn). cbn in Hset.
      repeat split; try assumption; try lia.
      - apply Forall_set_thread; [assumption|]. split; [exact I|]. cbn. now rewrite Eenv.
      - unfold attached in Hcount. destruct (tls_attached t); lia. }
    assert (Hoff : tls_attached t = false).
    { destruct (tls_attached t); [exfalso; now apply Henv | reflexivity]. }
    rewrite Hjvm. cbn [negb].
    destruct (status t) eqn:Est.
    + cbn. specialize (Hset {| tls_env := Some id; tls_attached := false; status := JNI_OK;
                               attach_succeeds := attach_succeeds t;
                               at_ := Returned (Env id) |} _ _ Hn).
      cbn in Hset. rewrite Hoff in Hset.
      repeat split; try assumption; try lia.
      * apply Forall_set_thread; [assumption|]. split; [exact I | discriminate].
      * unfold attached in Hcount. lia.
    + destruct (attached_thread_count c >=? MAX_ATTACHED_THREADS) eqn:Elim.
      { cbn. specialize (Hset (move t (Returned AttachmentRefused)) _ _ Hn). cbn in Hset.
        rewrite Hoff in Hset.
        repeat split; try assumption; try lia.
        - apply Forall_set_thread; [assumption|]. split; [exact I|]. cbn. congruence.
        - unfold attached in Hcount. lia. }
      assert (Hlt : attached_thread_count c < MAX_ATTACHED_THREADS).
      { rewrite Z.geb_leb in Elim. apply Z.leb_gt in Elim. exact Elim. }
      destruct (attach_succeeds t) eqn:Eatt.
      * cbn. specialize (Hset {| tls_env := Some id; tls_attached := true; status := JNI_OK;
                                 attach_succeeds := true;
                                 at_ := Returned (Env id) |} _ _ Hn).
        cbn in Hset. rewrite Hoff in Hset.
        repeat split; try assumption; try lia.
        -- apply Forall_set_thread; [assumption|]. split; [exact I | discriminate].
        -- unfold attached in Hcount. lia.
      * cbn. specialize (Hset (move t (Returned AttachmentFailed)) _ _ Hn). cbn in Hset.
        rewrite Hoff in Hset.
        repeat split; try assumption; try lia.
        -- apply Forall_set_thread; [assumption|]. split; [exact I|]. cbn. congruence.
        -- unfold attached in Hcount. lia.
    + cbn. specialize (Hset (move t (Returned AttachmentFailed)) _ _ Hn). cbn in Hset.
      rewrite Hoff in Hset.
      repeat split; try assumption; try lia.
      * apply Forall_set_thread; [assumption|]. split; [exact I|]. cbn. congruence.
      * unfold attached in Hcount. lia.
  - (* the thread exits *)
    unfold thread_cleanup_callback.
    destruct (nth_error (threads c) id) as [t|] eqn:Hn; [|repeat split; assumption].
    rewrite Hjvm, andb_true_r.
    pose proof (attached_set_thread id
                  {| tls_env := None; tls_attached := false;
                     status := if tls_attached t then JNI_EDETACHED else status t;
                     attach_succeeds := attach_succeeds t; at_ := Outside |} _ _ Hn) as Hset.
    cbn in Hset. unfold bounded, attached. cbn. unfold attached in Hcount.
    repeat split; try assumption.
    + apply Forall_set_thread; [assumption|]. split; [exact I | discriminate].
    + destruct (tls_attached t); lia.
    + destruct (tls_attached t); lia.
    + destruct (tls_attached t); lia.
    + destruct (tls_attached t); lia.
Qed.

(** With calls that do not overlap the pool is bounded. *)
Lemma bounded_in_turn (n : nat) (events : list event) :
  let c := fold_left happen events (started n) in
  0 <= attached_thread_count c <= MAX_ATTACHED_THREADS
  /\ attached_thread_count c <= peak_attached_threads c.
Proof.
  intros c.
  assert (H : bounded c).
  { unfold c. pose proof (bounded_started n) as H. revert H. generalize (started n).
    induction events as [|e events IH]; intros c0 H; simpl; [exact H|].
    apply IH. now apply bounded_happen. }
  destruct H as (_ & _ & _ & Hrange & Hpeak). split; assumption.
Qed.

(** With the calls one after the other the limit holds: 32 environments, 8
    refusals, the peak at 32. *)
Lemma forty_calls_in_turn :
  tally (fold_left acquire (seq 0 40) (started 40)) = (32, 32, 32%nat, 8%nat).
Proof. vm_compute. reflexivity. Qed.

(** C3. The bound of the attachment cache does not hold under concurrency:
    the limit is checked on a count read before the attachment and the count is
    added to after it, so forty threads that all read the count before any
    has added to it all pass the check; the count and the peak reach 40, past
    [MAX_ATTACHED_THREADS = 32], and no call is refused. *)
Theorem attachment_limit_is_raced :
  tally (run (started 40) racing_schedule) = (40, 40, 40%nat, 0%nat)
  /\ MAX_ATTACHED_THREADS = 32.
Proof. split; [vm_compute|]; reflexivity. Qed.

End Attachment.

(** * More of the code *)

(** ** The codec outside the round trip *)

Lemma serialize_property_bigint (v : value) :
  JSON.SerializeJSONProperty v
  = if bigint_free v
    then match JSON.SerializeJSONProperty v with
         | Normal o => Normal o
         | Throw _ => Normal None
         end
    else Throw (TypeError "Do not know how to serialize a BigInt").
Proof.
  induction v as [| |b|n|n|s|elems IH|props IH] using value_nested_ind;
    try reflexivity.
  - destruct b; reflexivity.
  - rewrite serialize_array. cbn [bigint_free].
    assert (H : JSON.serialize_items elems
                = if forallb bigint_free elems
                  then match JSON.serialize_items elems with
                       | Normal o => Normal o
                       | Throw _ => Normal []
                       end
                  else Throw (TypeError "Do not know how to serialize a BigInt")).
    { induction IH as [|x r Hx _ IHr]; [reflexivity|].
      cbn [forallb]. simpl JSON.serialize_items. fold JSON.serialize_items.
      rewrite Hx. destruct (bigint_free x); [|reflexivity].
      destruct (JSON.SerializeJSONProperty x) as [o|e]; simpl.
      - rewrite IHr. destruct (forallb bigint_free r); [|reflexivity].
        destruct (JSON.serialize_items r); reflexivity.
      - rewrite IHr. destruct (forallb bigint_free r); [|reflexivity].
        destruct (JSON.serialize_items r); reflexivity. }
    rewrite H. destruct (forallb bigint_free elems); [|reflexivity].
    destruct (JSON.serialize_items elems); reflexivity.
  - rewrite serialize_object. cbn [bigint_free].
    assert (H : JSON.serialize_members props
                = if forallb (fun kv => bigint_free (snd kv)) props
                  then match JSON.serialize_members props with
                       | Normal o => Normal o
                       | Throw _ => Normal []
                       end
                  else Throw (TypeError "Do not know how to serialize a BigInt")).
    { induction IH as [|x r Hx _ IHr]; [reflexivity|].
      cbn [forallb]. simpl JSON.serialize_members. fold JSON.serialize_members.
      rewrite Hx. destruct (bigint_free (snd x)); [|reflexivity].
      destruct (JSON.SerializeJSONProperty (snd x)) as [o|e]; simpl.
      - rewrite IHr. destruct (forallb (fun kv => bigint_free (snd kv)) r); [|reflexivity].
        destruct (JSON.serialize_members r); reflexivity.
      - rewrite IHr. destruct (forallb (fun kv => bigint_free (snd kv)) r); [|reflexivity].
        destruct (JSON.serialize_members r); reflexivity. }
    rewrite H. destruct (forallb (fun kv => bigint_free (snd kv)) props); [|reflexivity].
    destruct (JSON.serialize_members props); reflexivity.
Qed.

Lemma serialize_members_bigint (props : list (string * value)) :
  if forallb (fun kv => bigint_free (snd kv)) props
  then exists parts, JSON.serialize_members props = Normal parts
  else JSON.serialize_members props
       = Throw (TypeError "Do not know how to serialize a BigInt").
Proof.
  pose proof (serialize_property_bigint (VObject props)) as H.
  rewrite serialize_object in H. cbn [bigint_free] in H.
  destruct (forallb (fun kv => bigint_free (snd kv)) props).
  - destruct (JSON.serialize_members props) as [parts|e]; [eauto | discriminate H].
  - destruct (JSON.serialize_members props) as [parts|e]; [discriminate H|].
    simpl in H. injection H as ->. reflexivity.
Qed.

(** X1. What [serialize] refuses of plain data: for an event that is a
    non-empty string and a payload of plain data (finite trees of [undefined],
    [null], booleans, numbers, BigInts, strings, arrays and plain objects: no
    object that holds itself, no [toJSON], no getter), [serialize] returns a
    text when no value of the payload holds a [BigInt], at any depth; when one
    does, it throws a [MessageCodecError] whose message names the event and
    whose [originalError] is the [TypeError] of [JSON.stringify]. *)
Theorem serialize_refuses_exactly_bigints (name : string) (payload : list value) :
  name <> EmptyString ->
  if forallb bigint_free payload
  then exists text, MessageCodec.serialize (VString name) payload = Normal text
  else MessageCodec.serialize (VString name) payload
       = Throw (MessageCodecError
                  ("Failed to serialize message for event "
                     ++ String JSON.dquote (name ++ String JSON.dquote EmptyString))
                  (Some (TypeError "Do not know how to serialize a BigInt"))).
Proof.
  intros Hname. unfold MessageCodec.serialize. rewrite length_nonzero by assumption.
  unfold JSON.stringify_object.
  pose proof (serialize_members_bigint [("event", VString name); ("payload", VArray payload)]) as H.
  cbn [forallb snd bigint_free andb] in H. rewrite andb_true_r in H.
  destruct (forallb bigint_free payload).
  - destruct H as (parts & ->). simpl. eauto.
  - rewrite H. reflexivity.
Qed.

(** X1 at a payload with [undefined], which is printed, and at one with a
    [BigInt] inside an object inside an array. *)
Lemma serialize_refuses_exactly_bigints_witness :
  (exists text, MessageCodec.serialize (VString "e") [VNumber (of_Z 1); VUndefined] = Normal text)
  /\ MessageCodec.serialize (VString "e") [VArray [VObject [("k", VBigInt 1)]]]
     = Throw (MessageCodecError
                ("Failed to serialize message for event " ++ JSON.wire "'e'")
                (Some (TypeError "Do not know how to serialize a BigInt"))).
Proof.
  split.
  - exact (serialize_refuses_exactly_bigints "e" [VNumber (of_Z 1); VUndefined] ltac:(discriminate)).
  - exact (serialize_refuses_exactly_bigints "e" [VArray [VObject [("k", VBigInt 1)]]]
             ltac:(discriminate)).
Defined.

Lemma parse_throws_syntax (text : string) (e : js_error) :
  JSON.parse text = Throw e -> exists m, e = SyntaxError m.
Proof.
  unfold JSON.parse. destruct (JSON.parse_value _ _) as [[v rest]|].
  - destruct (JSON.skip_ws rest); intros H; [discriminate|]. injection H as <-. eauto.
  - intros H. injection H as <-. eauto.
Qed.

Lemma check_envelope_throws (v : value) (e : js_error) :
  MessageCodec.check_envelope v = Throw e -> exists m, e = MessageCodecError m None.
Proof.
  unfold MessageCodec.check_envelope, MessageCodec.codec_error.
  destruct (falsy v || _)%bool; [intros H; injection H as <-; eauto|].
  destruct (negb _ || _)%bool; [intros H; injection H as <-; eauto|].
  destruct (get_property "event" v); try (intros H; injection H as <-; eauto).
  destruct (get_property "payload" v); try (intros H; injection H as <-; eauto).
  discriminate.
Qed.

(** X2. What [deserialize] throws: every failure is a [MessageCodecError],
    and it carries an [originalError] exactly when the message is a string that
    [JSON.parse] refuses; the [originalError] is then the error of
    [JSON.parse]. *)
Theorem deserialize_failures_are_codec_errors (message : value) (e : js_error) :
  MessageCodec.deserialize message = Throw e ->
  exists m o,
    e = MessageCodecError m o
    /\ forall cause,
         o = Some cause
         <-> exists text, message = VString text /\ JSON.parse text = Throw cause.
Proof.
  unfold MessageCodec.deserialize.
  destruct message as [| |b|n|n|text|elems|props];
    try (intros H; injection H as <-; eexists; exists None; split; [reflexivity|];
         intros cause; split; [discriminate | intros (t & Ht & _); discriminate Ht]).
  destruct (JSON.parse text) as [v|cause0] eqn:Eparse; simpl.
  - destruct (MessageCodec.check_envelope v) as [r|e0] eqn:Echeck; [discriminate|].
    destruct (check_envelope_throws _ _ Echeck) as (m & ->).
    intros H. injection H as <-. exists m, None. split; [reflexivity|].
    intros cause. split; [discriminate|].
    intros (t & Ht & Hp). injection Ht as <-. rewrite Eparse in Hp. discriminate Hp.
  - destruct (parse_throws_syntax _ _ Eparse) as (m & ->).
    intros H. injection H as <-. eexists; eexists. split; [reflexivity|].
    intros cause. split.
    + intros H. injection H as <-. eauto.
    + intros (t & Ht & Hp). injection Ht as <-. rewrite Eparse in Hp. congruence.
Qed.

(** X2 at a text that is no JSON. *)
Lemma deserialize_failures_are_codec_errors_witness :
  exists m o,
    MessageCodecError "Failed to deserialize message"
      (Some (SyntaxError "Unexpected token or end of JSON input"))
    = MessageCodecError m o
    /\ forall cause,
         o = Some cause
         <-> exists text, VString "not json" = VString text /\ JSON.parse text = Throw cause.
Proof.
  exact (deserialize_failures_are_codec_errors (VString "not json") _ eq_refl).
Defined.

(** X3. What [deserialize] accepts: it returns an envelope exactly when the
    message is a string whose text parses to an object with a property [event]
    that holds a string and a property [payload] that holds an array; the
    envelope holds that string and that array. *)
Theorem deserialize_accepts_exactly_envelopes
    (message : value) (m : MessageCodec.DeserializedMessage) :
  MessageCodec.deserialize message = Normal m
  <-> exists text props,
        message = VString text
        /\ JSON.parse text = Normal (VObject props)
        /\ obj_get "event" props = Some (VString (MessageCodec.event m))
        /\ obj_get "payload" props = Some (VArray (MessageCodec.payload m)).
Proof.
  split.
  - unfold MessageCodec.deserialize.
    destruct message as [| |b|n|n|text|elems|props]; try discriminate.
    destruct (JSON.parse text) as [v|cause] eqn:Eparse; simpl;
      [|destruct cause; discriminate].
    destruct (MessageCodec.check_envelope v) as [r|e0] eqn:Echeck;
      [|destruct e0; discriminate].
    intros H. injection H as ->.
    unfold MessageCodec.check_envelope in Echeck.
    destruct v as [| |b|n|n|s|elems|props]; simpl in Echeck; try discriminate Echeck.
    + destruct b; discriminate Echeck.
    + destruct n as [| |negative m0 e0]; try destruct (is_zero _); discriminate Echeck.
    + destruct (n =? 0); discriminate Echeck.
    + destruct (String.eqb s ""); discriminate Echeck.
    + exists text, props. split; [reflexivity|]. split; [exact Eparse|].
      destruct (obj_get "event" props) as [ev|]; [|discriminate Echeck].
      destruct (obj_get "payload" props) as [pl|]; [|discriminate Echeck].
      simpl in Echeck.
      destruct ev; try discriminate Echeck. destruct pl; try discriminate Echeck.
      injection Echeck as <-. split; reflexivity.
  - intros (text & props & -> & Hparse & Hevent & Hpayload).
    unfold MessageCodec.deserialize. rewrite Hparse. simpl.
    unfold MessageCodec.check_envelope. simpl. rewrite Hevent, Hpayload.
    destruct m; reflexivity.
Qed.

(** *** What comes back of a payload that holds [undefined] *)

Lemma kept_array elems : kept (VArray elems) = VArray (map kept elems).
Proof. reflexivity. Qed.

Lemma kept_object props : kept (VObject props) = VObject (kept_members props).
Proof. reflexivity. Qed.

Lemma printed_null : printed VNull "null".
Proof.
  split; [|split].
  - eexists; eexists; split; reflexivity.
  - simpl; lia.
  - intros [|fuel] rest Hf _; [simpl in Hf; lia | reflexivity].
Qed.

Lemma items_kept elems :
  Forall prints_kept elems -> forallb printable elems = true ->
  exists parts, JSON.serialize_items elems = Normal parts
                /\ Forall2 printed (map kept elems) parts.
Proof.
  induction 1 as [|x r Hx _ IH]; simpl; intros Hrep.
  - exists []. split; [reflexivity | constructor].
  - apply andb_true_iff in Hrep as [Hx' Hr'].
    destruct (IH Hr') as (parts & Ep & Hp). specialize (Hx Hx').
    fold JSON.serialize_items. 
    destruct x as [| |b|n|n|s|elems|props];
      try (destruct Hx as (t & Et & Ht); rewrite Et; simpl; rewrite Ep; simpl;
           exists (t :: parts); split; [reflexivity | now constructor]).
    rewrite Ep. simpl. exists ("null" :: parts). split; [reflexivity|].
    constructor; [apply printed_null | assumption].
Qed.

Lemma members_kept props :
  Forall (fun kv => prints_kept (snd kv)) props ->
  forallb (fun kv => printable (snd kv)) props = true ->
  exists parts, JSON.serialize_members props = Normal parts
                /\ Forall2 printed_member (kept_members props) parts.
Proof.
  induction 1 as [|[k x] r Hx _ IH]; simpl; intros Hrep.
  - exists []. split; [reflexivity | constructor].
  - apply andb_true_iff in Hrep as [Hx' Hr'].
    destruct (IH Hr') as (parts & Ep & Hp). specialize (Hx Hx').
    fold JSON.serialize_members. simpl snd in *. simpl fst.
    destruct x as [| |b|n|n|s|elems|props];
      try (destruct Hx as (t & Et & Ht); rewrite Et; simpl; rewrite Ep; simpl;
           exists ((JSON.quote k ++ ":" ++ t) :: parts); split; [reflexivity|];
           constructor; [exists t; split; [reflexivity | exact Ht] | exact Hp]).
    rewrite Ep. simpl. exists parts. split; [reflexivity | exact Hp].
Qed.

Lemma existsb_kept_members (k : string) (props : list (string * value)) :
  existsb (String.eqb k) (map fst props) = false ->
  existsb (String.eqb k) (map fst (kept_members props)) = false.
Proof.
  induction props as [|[k' x] r IH]; simpl; [reflexivity|].
  intros H. apply orb_false_iff in H as [Hk Hr].
  unfold kept_members in *. simpl.
  destruct x; simpl; rewrite ?Hk; auto.
Qed.

Lemma forallb_kept_members (f : string -> bool) (props : list (string * value)) :
  forallb f (map fst props) = true ->
  forallb f (map fst (kept_members props)) = true.
Proof.
  induction props as [|[k' x] r IH]; simpl; [reflexivity|].
  intros H. apply andb_true_iff in H as [Hk Hr].
  unfold kept_members in *. simpl.
  destruct x; simpl; rewrite ?Hk; auto.
Qed.

Lemma distinct_kept_members (props : list (string * value)) :
  JSON.distinct (map fst props) = true ->
  JSON.distinct (map fst (kept_members props)) = true.
Proof.
  induction props as [|[k x] r IH]; simpl; [reflexivity|].
  intros H. apply andb_true_iff in H as [Hk Hr]. apply negb_true_iff in Hk.
  specialize (IH Hr). pose proof (existsb_kept_members k r Hk) as Hk'.
  unfold kept_members in *. simpl.
  destruct x; simpl; rewrite ?Hk'; auto.
Qed.

Lemma enumerated_kept_members (props : list (string * value)) :
  JSON.enumerated (map fst props) = true ->
  JSON.enumerated (map fst (kept_members props)) = true.
Proof.
  induction props as [|[k x] r IH]; simpl; [reflexivity|].
  intros H. apply andb_true_iff in H as [Hk Hr].
  specialize (IH Hr). pose proof (forallb_kept_members (before k) r Hk) as Hk'.
  unfold kept_members in *. simpl.
  destruct x; simpl; rewrite ?Hk'; auto.
Qed.

Lemma printed_array (elems : list value) (parts : list string) :
  Forall2 printed elems parts ->
  printed (VArray elems) ("[" ++ JSON.join "," parts ++ "]").
Proof.
  intros Hp. unfold printed. rewrite cost_array.
  change ("[" ++ JSON.join "," parts ++ "]") with (String "[" (JSON.join "," parts ++ "]")).
  split; [|split].
  - eexists; eexists; split; reflexivity.
  - destruct elems as [|x r].
    + simpl. lia.
    + destruct (parse_elements_join _ _ Hp) as [Hlen _]; [discriminate|].
      remember (cost_elements (x :: r)) as n eqn:En.
      remember (JSON.join "," parts) as j eqn:Ej. clear En Ej.
      simpl. rewrite length_append. simpl. lia.
  - intros [|fuel] rest Hf _; [lia|]. rewrite bracket_app.
    destruct elems as [|x r].
    + inversion Hp; subst. reflexivity.
    + destruct (parse_elements_join _ _ Hp) as [_ Hparse]; [discriminate|].
      inversion Hp as [|x0 t r0 ps Hx Hr]; subst.
      destruct (printed_head _ _ Hx) as (c & tl & -> & Hc).
      destruct (join_head c tl ps) as (tl' & Hj).
      specialize (Hparse fuel rest). rewrite Hj in *.
      change (String c tl' ++ String "]" rest)
        with (String c (tl' ++ String "]" rest)) in *.
      rewrite parse_value_array by assumption.
      rewrite Hparse by lia. reflexivity.
Qed.

Lemma printed_object (props : list (string * value)) (parts : list string) :
  Forall2 printed_member props parts ->
  JSON.distinct (map fst props) = true -> JSON.enumerated (map fst props) = true ->
  printed (VObject props) ("{" ++ JSON.join "," parts ++ "}").
Proof.
  intros Hp Hkeys Henum. unfold printed. rewrite cost_object.
  change ("{" ++ JSON.join "," parts ++ "}") with (String "{" (JSON.join "," parts ++ "}")).
  split; [|split].
  - eexists; eexists; split; reflexivity.
  - destruct props as [|x r].
    + simpl. lia.
    + destruct (parse_members_join _ _ Hp) as [Hlen _]; [discriminate|].
      remember (cost_members (x :: r)) as n eqn:En.
      remember (JSON.join "," parts) as j eqn:Ej. clear En Ej.
      simpl. rewrite length_append. simpl. lia.
  - intros [|fuel] rest Hf _; [lia|]. rewrite brace_app.
    destruct props as [|x r].
    + inversion Hp; subst. reflexivity.
    + destruct (parse_members_join _ _ Hp) as [_ Hparse]; [discriminate|].
      inversion Hp as [|x0 t r0 ps Hx Hr]; subst.
      destruct Hx as (t0 & -> & _).
      specialize (Hparse fuel rest).
      assert (Hj : exists tl', JSON.join "," ((JSON.quote (fst x) ++ ":" ++ t0) :: ps)
                               = String JSON.dquote tl').
      { destruct ps; simpl; eauto. }
      destruct Hj as (tl' & Hj). rewrite Hj in *.
      change (String JSON.dquote tl' ++ String "}" rest)
        with (String JSON.dquote (tl' ++ String "}" rest)) in *.
      simpl JSON.parse_value.
      rewrite Hparse by lia. now rewrite build_object_distinct.
Qed.

Lemma prints_kept_all (v : value) : prints_kept v.
Proof.
  induction v as [| |b|n|n|s|elems IH|props IH] using value_nested_ind;
    unfold prints_kept; intros Hrep; try discriminate Hrep.
  - reflexivity.
  - exists "null". split; [reflexivity | apply printed_null].
  - destruct (prints_back_all (VBool b) eq_refl) as (t & Et & Ht). eauto.
  - simpl in Hrep. unfold kept.
    destruct (is_finite n) eqn:Ef.
    + destruct (is_zero n) eqn:Ez.
      * destruct (prints_back_all (VNumber (Finite false 0 (-1074))) eq_refl)
          as (t & Et & Ht).
        exists t. split; [|exact Ht]. rewrite <- Et.
        destruct n as [| |negative m e]; try discriminate Ef. simpl in Ez.
        apply Z.eqb_eq in Ez. subst m. reflexivity.
      * apply prints_back_all. simpl. now rewrite Hrep, Ef, Ez.
    + exists "null". split; [|apply printed_null]. simpl. now rewrite Ef.
  - destruct (prints_back_all (VString s) eq_refl) as (t & Et & Ht). eauto.
  - simpl in Hrep. destruct (items_kept elems IH Hrep) as (parts & Ep & Hp).
    rewrite serialize_array, Ep. simpl bind. rewrite kept_array.
    eexists. split; [reflexivity|]. now apply printed_array.
  - simpl in Hrep. apply andb_true_iff in Hrep as [Hkeys Hvals].
    apply andb_true_iff in Hkeys as [Hkeys Henum].
    destruct (members_kept props IH Hvals) as (parts & Ep & Hp).
    rewrite serialize_object, Ep. simpl bind. rewrite kept_object.
    eexists. split; [reflexivity|].
    apply printed_object;
      [assumption | now apply distinct_kept_members | now apply enumerated_kept_members].
Qed.

(** The text [serialize] returns is read back by [deserialize] as what is kept
    of the payload. *)
Lemma serialize_deserialize_kept (event : string) (payload : list value) :
  event <> EmptyString ->
  forallb printable payload = true ->
  exists text,
    MessageCodec.serialize (VString event) payload = Normal text
    /\ MessageCodec.deserialize (VString text)
       = Normal {| MessageCodec.event := event; MessageCodec.payload := map kept payload |}.
Proof.
  intros Hevent Hpayload.
  set (envelope := VObject [("event", VString event); ("payload", VArray payload)]).
  assert (Hrep : printable envelope = true).
  { simpl. rewrite Hpayload. reflexivity. }
  pose proof (prints_kept_all envelope Hrep) as (t & Et & _ & Hlen & Hparse).
  exists t. unfold envelope in Et. rewrite stringify_object_property in Et.
  unfold MessageCodec.serialize. rewrite length_nonzero by assumption.
  destruct (JSON.stringify_object _) as [t'|e]; simpl in Et; [|discriminate].
  injection Et as ->. split; [reflexivity|].
  unfold MessageCodec.deserialize, JSON.parse.
  specialize (Hparse (S (String.length t)) EmptyString).
  assert (E : t ++ EmptyString = t).
  { clear. induction t; simpl; [reflexivity | now f_equal]. }
  rewrite E in Hparse. rewrite Hparse; [reflexivity | lia | exact I].
Qed.

(** X4. A payload with [undefined] in it: for every event that is a
    non-empty string and every payload of printable values, [serialize] returns
    a text, and [deserialize] of that text returns the event and what JSON keeps
    of each value of the payload: [null] where an array (the payload itself
    included) held [undefined], no property where an object held [undefined],
    [null] for a number that is not finite, [0] for the negative zero,
    everything else as it was. *)
Theorem codec_keeps_the_json_part (event : string) (payload : list value) :
  event <> EmptyString ->
  forallb printable payload = true ->
  exists text,
    MessageCodec.serialize (VString event) payload = Normal text
    /\ MessageCodec.deserialize (VString text)
       = Normal {| MessageCodec.event := event; MessageCodec.payload := map kept payload |}.
Proof. exact (serialize_deserialize_kept event payload). Qed.

(** X4 at a payload that holds [undefined] at the top, in an array and in an
    object. *)
Lemma codec_keeps_the_json_part_witness :
  exists text,
    MessageCodec.serialize (VString "e")
      [VUndefined; VArray [VNumber (of_Z 1); VUndefined];
       VObject [("a", VUndefined); ("b", VNull)]] = Normal text
    /\ MessageCodec.deserialize (VString text)
       = Normal {| MessageCodec.event := "e";
                   MessageCodec.payload :=
                     [VNull; VArray [VNumber (of_Z 1); VNull]; VObject [("b", VNull)]] |}.
Proof.
  apply (codec_keeps_the_json_part "e"
           [VUndefined; VArray [VNumber (of_Z 1); VUndefined];
            VObject [("a", VUndefined); ("b", VNull)]]);
    [discriminate | reflexivity].
Defined.

(** What is kept of a representable value is the value. *)
Lemma kept_representable (v : value) : JSON.representable v = true -> kept v = v.
Proof.
  induction v as [| |b|n|n|s|elems IH|props IH] using value_nested_ind;
    intros Hrep; try reflexivity; try discriminate Hrep.
  - simpl in Hrep. apply andb_true_iff in Hrep as [Hrep Hz].
    apply andb_true_iff in Hrep as [Hc Hf]. unfold kept. rewrite Hf.
    destruct (is_zero n) eqn:Ez; [|reflexivity].
    destruct n as [| |negative m e]; try discriminate Hf.
    simpl in Ez, Hz. apply Z.eqb_eq in Ez. subst m.
    destruct negative; [discriminate Hz|].
    apply canonical_bounds in Hc as (_ & _ & [H|He]); [lia | now subst e].
  - rewrite kept_array. f_equal. simpl in Hrep.
    induction IH as [|x r Hx _ IHr]; [reflexivity|].
    simpl in Hrep. apply andb_true_iff in Hrep as [Hx' Hr'].
    simpl. now rewrite Hx, IHr.
  - rewrite kept_object. f_equal. simpl in Hrep.
    apply andb_true_iff in Hrep as [_ Hvals].
    induction IH as [|[k x] r Hx _ IHr]; [reflexivity|].
    simpl in Hvals. apply andb_true_iff in Hvals as [Hx' Hr'].
    unfold kept_members in *. simpl in *. rewrite IHr by assumption.
    rewrite Hx by assumption. destruct x; try reflexivity. discriminate Hx'.
Qed.

(** *** The text on the wire *)

Lemma serialize_items_length (elems : list value) (parts : list string) :
  JSON.serialize_items elems = Normal parts -> List.length parts = List.length elems.
Proof.
  revert parts. induction elems as [|x r IH]; intros parts; simpl.
  - intros H. injection H as <-. reflexivity.
  - fold JSON.serialize_items.
    destruct (JSON.SerializeJSONProperty x) as [o|e]; simpl; [|discriminate].
    destruct (JSON.serialize_items r) as [rest|e]; simpl; [|discriminate].
    intros H. injection H as <-. simpl. now rewrite (IH rest).
Qed.

(** X5. The text on the wire: whenever [serialize] returns, the text is
    one JSON object with the two properties [event] and [payload], in this
    order and with nothing between them but the comma: the event as a string
    literal, the payload as an array with one item for each value of the
    payload. *)
Theorem serialize_writes_the_envelope (name : string) (payload : list value) (text : string) :
  MessageCodec.serialize (VString name) payload = Normal text ->
  exists items,
    JSON.serialize_items payload = Normal items
    /\ List.length items = List.length payload
    /\ text = "{" ++ JSON.quote "event" ++ ":" ++ JSON.quote name ++ ","
                ++ JSON.quote "payload" ++ ":[" ++ JSON.join "," items ++ "]}".
Proof.
  unfold MessageCodec.serialize.
  destruct (String.length name =? 0)%nat; [discriminate|].
  unfold JSON.stringify_object. cbn [JSON.serialize_members snd fst].
  change (JSON.SerializeJSONProperty (VString name)) with (Normal (Some (JSON.quote name))).
  cbn [bind]. rewrite serialize_array.
  destruct (JSON.serialize_items payload) as [items|e] eqn:E; cbn [bind]; [|discriminate].
  intros H. injection H as <-. exists items. split; [reflexivity|].
  split; [now apply serialize_items_length|].
  unfold JSON.quote. simpl. rewrite !append_assoc. simpl. rewrite !append_assoc. reflexivity.
Qed.

(** X5 at the event [foo] with a string and a number. *)
Lemma serialize_writes_the_envelope_witness :
  exists items,
    JSON.serialize_items [VString "a"; VNumber (of_Z 2)] = Normal items
    /\ List.length items = 2%nat
    /\ JSON.wire "{'event':'foo','payload':['a',2]}"
       = "{" ++ JSON.quote "event" ++ ":" ++ JSON.quote "foo" ++ ","
             ++ JSON.quote "payload" ++ ":[" ++ JSON.join "," items ++ "]}".
Proof.
  exact (serialize_writes_the_envelope "foo" [VString "a"; VNumber (of_Z 2)] _ eq_refl).
Defined.

(** ** The embedded runtime over time *)

Lemma channels_after (st : runtime) (i : input) : channels (after st i) = channels st.
Proof.
  unfold after. destruct i as [channelName data| |channel type|channel type|event msg|lock]; simpl;
    try reflexivity.
  - unfold bridgeListener. destruct (lookup_channel channelName (channels st)) as [[]|].
    + unfold SystemChannel_processData, SystemChannel_emitWrapper.
      destruct (String.prefix "pause" data); reflexivity.
    + unfold EventChannel_processData.
      destruct (MessageCodec.deserialize (VString data)); reflexivity.
    + reflexivity.
  - unfold tick. destruct (immediates st) as [|f q]; [reflexivity|].
    destruct f as [name type msg|name type]; cbn [run_closure].
    + unfold emitLocal. now rewrite (proj1 (to_the_loop_frame _ _)).
    + destruct (new_SystemEventLock _ _ _).
      unfold emitLocal. now rewrite (proj1 (to_the_loop_frame _ _)).
  - unfold post. destruct (MessageCodec.serialize event msg); reflexivity.
  - unfold release_lock. destruct (nth_error (locks st) lock) as [this|]; [|reflexivity].
    destruct (release this (sent st)). reflexivity.
Qed.

Lemma channels_run (st : runtime) (trace : list input) : channels (run st trace) = channels st.
Proof.
  revert st. induction trace as [|i trace IH]; intros st; [reflexivity|].
  change (run st (i :: trace)) with (run (after st i) trace).
  now rewrite IH, channels_after.
Qed.

Lemma lookup_loaded (name : string) :
  lookup_channel name (channels loaded)
  = if String.eqb name SYSTEM_CHANNEL then Some IsSystemChannel
    else if String.eqb name EVENT_CHANNEL then Some IsEventChannel
    else None.
Proof. reflexivity. Qed.

Lemma same_but_console_after (a b : runtime) (i : input) :
  same_but_console a b -> same_but_console (after a i) (after b i).
Proof.
  destruct a as [ca la qa ka sa ea ua oa], b as [cb lb qb kb sb eb ub ob].
  unfold same_but_console. simpl. intros (-> & -> & -> & -> & -> & -> & ->).
  unfold after.
  destruct i as [channelName data| |channel type|channel type|event msg|lock]; simpl.
  - unfold bridgeListener. simpl.
    destruct (lookup_channel channelName cb) as [[]|].
    + unfold SystemChannel_processData, SystemChannel_emitWrapper.
      destruct (String.prefix "pause" data); simpl; repeat split.
    + unfold EventChannel_processData.
      destruct (MessageCodec.deserialize (VString data)); simpl; repeat split.
    + simpl. repeat split.
  - unfold tick. simpl. destruct qb as [|f q]; simpl; [repeat split|].
    destruct f as [name type msg|name type]; cbn [run_closure].
    + unfold emitLocal, unhandled, listenerCount. simpl.
      destruct (_ && _)%bool; simpl; repeat split.
    + unfold listenerCount. simpl.
      destruct (new_SystemEventLock _ _ _).
      unfold emitLocal, unhandled, listenerCount. simpl. repeat split.
  - repeat split.
  - repeat split.
  - unfold post. destruct (MessageCodec.serialize event msg); simpl; repeat split.
  - unfold release_lock. simpl. destruct (nth_error kb lock) as [this|]; simpl; [|repeat split].
    destruct (release this sb). simpl. repeat split.
Qed.

Lemma same_but_console_run (a b : runtime) (trace : list input) :
  same_but_console a b -> same_but_console (run a trace) (run b trace).
Proof.
  revert a b. induction trace as [|i trace IH]; intros a b H; [exact H|].
  change (same_but_console (run (after a i) trace) (run (after b i) trace)).
  apply IH. now apply same_but_console_after.
Qed.

Lemma run_app (st : runtime) (t1 t2 : list input) : run st (t1 ++ t2) = run (run st t1) t2.
Proof. unfold run. apply fold_left_app. Qed.

(** X7. A message for a channel that is not registered: at any time after
    loading, [bridgeListener] with a channel name other than the two built-in
    ones returns normally and writes one line to the console; and whatever
    happens afterwards, the runtime is as if the message had never come, the
    console apart. *)
Theorem unknown_channel_message_changes_nothing
    (past rest : list input) (channelName data : string) :
  channelName <> SYSTEM_CHANNEL -> channelName <> EVENT_CHANNEL ->
  let st := run loaded past in
  step st (Deliver channelName data)
  = Normal (with_console
              (console st ++ [("ERROR: Channel not found: " ++ channelName)%string])%list st)
  /\ same_but_console (run loaded (past ++ Deliver channelName data :: rest))
       (run loaded (past ++ rest)).
Proof.
  intros Hs He st.
  assert (Hstep : step st (Deliver channelName data)
                  = Normal (with_console
                              (console st
                                 ++ [("ERROR: Channel not found: " ++ channelName)%string])%list st)).
  { simpl. unfold bridgeListener. unfold st. rewrite channels_run, lookup_loaded.
    apply String.eqb_neq in Hs, He. rewrite Hs, He. reflexivity. }
  split; [exact Hstep|].
  rewrite !run_app. fold st.
  change (run st (Deliver channelName data :: rest))
    with (run (after st (Deliver channelName data)) rest).
  apply same_but_console_run. unfold after. rewrite Hstep.
  repeat split.
Qed.

(** X7 after one registration of a listener, with one turn of the loop
    afterwards. *)
Lemma unknown_channel_message_changes_nothing_witness :
  let st := run loaded [On EVENT_CHANNEL "x"] in
  step st (Deliver "other" "text")
  = Normal (with_console (console st ++ ["ERROR: Channel not found: other"])%list st)
  /\ same_but_console
       (run loaded ([On EVENT_CHANNEL "x"] ++ Deliver "other" "text" :: [Tick]))
       (run loaded ([On EVENT_CHANNEL "x"] ++ [Tick])).
Proof.
  exact (unknown_channel_message_changes_nothing [On EVENT_CHANNEL "x"] [Tick] "other" "text"
           ltac:(discriminate) ltac:(discriminate)).
Defined.

(** *** One message for each event lock that released *)

Lemma filter_length_snoc {A : Type} (f : A -> bool) (l : list A) (x : A) :
  List.length (filter f (l ++ [x])) = (List.length (filter f l) + (if f x then 1 else 0))%nat.
Proof.
  rewrite filter_app, length_app. simpl. destruct (f x); reflexivity.
Qed.

Lemma filter_length_replace_nth {A : Type} (f : A -> bool) (n : nat) (x y : A) (l : list A) :
  nth_error l n = Some y ->
  (List.length (filter f (replace_nth n x l)) + (if f y then 1 else 0)
   = List.length (filter f l) + (if f x then 1 else 0))%nat.
Proof.
  revert n. induction l as [|a l IH]; intros [|n]; simpl; try discriminate.
  - intros H. injection H as ->. destruct (f x), (f y); simpl; lia.
  - intros H. specialize (IH n H). destruct (f a); simpl; lia.
Qed.

Lemma Forall_replace_nth {A : Type} (P : A -> Prop) (n : nat) (x : A) (l : list A) :
  Forall P l -> P x -> Forall P (replace_nth n x l).
Proof.
  intros Hl Hx. revert n. induction Hl as [|a l Ha Hl IH]; intros [|n]; simpl;
    constructor; auto.
Qed.

Lemma length_replace_nth {A : Type} (n : nat) (x : A) (l : list A) :
  List.length (replace_nth n x l) = List.length l.
Proof. revert n. induction l as [|a l IH]; intros [|n]; simpl; auto. Qed.

Lemma accounted_loaded : accounted loaded.
Proof.
  repeat split; try constructor.
Qed.

Ltac account :=
  unfold accounted, system_sent, released_locks, setImmediate, emitLocal, with_sent,
    sendMessage in *;
  cbn [channels listeners immediates locks sent emitted uncaught console to_the_loop
       with_immediates with_locks with_emitted with_uncaught with_console with_listeners] in *.

Lemma accounted_after (st : runtime) (i : input) : accounted st -> accounted (after st i).
Proof.
  intros H. unfold after.
  destruct i as [channelName data| |channel type|channel type|event msg|lock];
    cbn [step].
  - (* a delivery queues a closure, or nothing *)
    unfold bridgeListener. destruct H as (Hch & Hq & Hcb & Hsent & Hlocks).
    rewrite Hch, lookup_loaded.
    destruct (String.eqb channelName SYSTEM_CHANNEL) eqn:Es.
    + apply String.eqb_eq in Es. subst channelName.
      unfold SystemChannel_processData, SystemChannel_emitWrapper.
      destruct (String.prefix "pause" data); account;
        (split; [assumption|]; split; [|auto]);
        apply Forall_app; split; try assumption; constructor; try constructor; reflexivity.
    + destruct (String.eqb channelName EVENT_CHANNEL).
      * unfold EventChannel_processData.
        destruct (MessageCodec.deserialize (VString data)); cbn [bind].
        -- account. split; [assumption|]. split; [|auto].
           apply Forall_app; split; try assumption. constructor; [exact I | constructor].
        -- account. auto.
      * account. auto.
  - (* a turn of the loop *)
    unfold tick. destruct (immediates st) as [|f q] eqn:Eq; [exact H|].
    destruct H as (Hch & Hq & Hcb & Hsent & Hlocks).
    rewrite Eq in Hq. apply Forall_cons_iff in Hq as [Hf Hq'].
    destruct f as [name type msg|name type]; cbn [run_closure].
    + unfold emitLocal. destruct (unhandled _ _ _ _); account;
        (repeat split; try assumption);
        rewrite filter_length_snoc; cbn [carries_lock em_args]; lia.
    + subst name. unfold new_SystemEventLock, _checkRelease.
      cbn [_locksAcquired _callback _hasReleased].
      unfold emitLocal, unhandled.
      change (String.eqb "pause" "error") with false. cbn [andb].
      destruct (Z.of_nat _ <=? 0); account.
      * repeat split; try assumption.
        -- apply Forall_app; split; [assumption|]. constructor; [|constructor].
           cbn [_callback]. eauto.
        -- rewrite !filter_length_snoc. cbn [fst _hasReleased].
           change (String.eqb SYSTEM_CHANNEL SYSTEM_CHANNEL) with true. cbv iota. lia.
        -- rewrite length_app, filter_length_snoc. cbn [carries_lock em_args List.length]. lia.
      * repeat split; try assumption.
        -- apply Forall_app; split; [assumption|]. constructor; [|constructor].
           cbn [_callback]. eauto.
        -- rewrite filter_length_snoc. cbn [_hasReleased]. lia.
        -- rewrite length_app, filter_length_snoc. cbn [carries_lock em_args List.length]. lia.
  - destruct H as (Hch & Hq & Hcb & Hsent & Hlocks). account. auto.
  - destruct H as (Hch & Hq & Hcb & Hsent & Hlocks). account. auto.
  - (* a post goes to the events channel *)
    destruct H as (Hch & Hq & Hcb & Hsent & Hlocks).
    unfold post. destruct (MessageCodec.serialize event msg); cbn [bind]; [|account; auto].
    account. repeat split; try assumption.
    rewrite filter_length_snoc. cbn [fst].
    change (String.eqb EVENT_CHANNEL SYSTEM_CHANNEL) with false. cbv iota. lia.
  - (* a call of release() *)
    destruct H as (Hch & Hq & Hcb & Hsent & Hlocks).
    unfold release_lock. destruct (nth_error (locks st) lock) as [this|] eqn:Ethis;
      [|account; auto].
    assert (Hthis : exists message, _callback this = sendMessage SYSTEM_CHANNEL message).
    { rewrite Forall_forall in Hcb. apply Hcb. eapply nth_error_In. exact Ethis. }
    destruct Hthis as (message & Hmessage).
    unfold release. destruct (_hasReleased this) eqn:Ereleased.
    + pose proof (filter_length_replace_nth (@_hasReleased outbox) lock this this _ Ethis) as Hf.
      account. rewrite length_replace_nth.
      repeat split; try assumption.
      * apply Forall_replace_nth; [assumption | eauto].
      * lia.
    + unfold _checkRelease. cbn [_locksAcquired _callback _hasReleased].
      destruct (_locksAcquired this - 1 <=? 0).
      * rewrite Hmessage.
        match goal with |- context [replace_nth lock ?x _] =>
          pose proof (filter_length_replace_nth (@_hasReleased outbox) lock x this _ Ethis) as Hf
        end.
        cbn [_hasReleased] in Hf. rewrite Ereleased in Hf.
        account. rewrite length_replace_nth.
        repeat split; try assumption.
        -- apply Forall_replace_nth; [assumption | cbn [_callback]; eauto].
        -- rewrite filter_length_snoc. cbn [fst].
           change (String.eqb SYSTEM_CHANNEL SYSTEM_CHANNEL) with true. cbv iota. lia.
      * match goal with |- context [replace_nth lock ?x _] =>
          pose proof (filter_length_replace_nth (@_hasReleased outbox) lock x this _ Ethis) as Hf
        end.
        cbn [_hasReleased] in Hf. rewrite Ereleased in Hf.
        account. rewrite length_replace_nth.
        repeat split; try assumption.
        -- apply Forall_replace_nth; [assumption | cbn [_callback]; eauto].
        -- lia.
Qed.

Lemma accounted_run (st : runtime) (trace : list input) : accounted st -> accounted (run st trace).
Proof.
  revert st. induction trace as [|i trace IH]; intros st H; [exact H|].
  change (accounted (run (after st i) trace)). apply IH. now apply accounted_after.
Qed.

(** X8. One message for each event lock that released: at any time after
    loading, whatever the listeners did (any number of calls of [release()], on
    any lock, in any order), what the embedded side has sent on the system
    channel is the readiness message and one message for each lock that has
    released; there are as many locks as emissions of [pause] with a lock, so
    there are never more release messages than pause events. *)
Theorem one_message_for_each_released_lock (trace : list input) :
  let st := run loaded trace in
  List.length (system_sent st) = S (List.length (released_locks st))
  /\ List.length (locks st) = List.length (filter carries_lock (emitted st))
  /\ (List.length (system_sent st) <= S (List.length (filter carries_lock (emitted st))))%nat.
Proof.
  intros st. destruct (accounted_run loaded trace accounted_loaded) as (_ & _ & _ & Hs & Hl).
  fold st in Hs, Hl. split; [exact Hs|]. split; [exact Hl|].
  rewrite Hs, <- Hl. unfold released_locks.
  pose proof (filter_length_le (@_hasReleased outbox) (locks st)). lia.
Qed.

(** ** From one side to the listeners of the other *)

Lemma channels_bridge_step (b : Bridge.bridge) (e : Bridge.event) :
  channels (Bridge.node (Bridge.step b e)) = channels (Bridge.node b).
Proof.
  destruct e as [i|i|k|k]; simpl.
  - destruct i; reflexivity.
  - destruct i; try reflexivity; simpl; apply channels_after.
  - destruct (nth_error _ k) as [[channelName msg]|]; [|reflexivity].
    simpl. apply channels_after.
  - destruct (nth_error _ k) as [[channelName msg]|]; reflexivity.
Qed.

Lemma channels_bridge_run (b : Bridge.bridge) (events : list Bridge.event) :
  channels (Bridge.node (Bridge.run b events)) = channels (Bridge.node b).
Proof.
  revert b. induction events as [|e events IH]; intros b; [reflexivity|].
  change (Bridge.run b (e :: events)) with (Bridge.run (Bridge.step b e) events).
  now rewrite IH, channels_bridge_step.
Qed.

(** X9. From the host to the listeners of the embedded side: in any state
    the two sides reach together, when the application posts an event (a
    non-empty string) with a printable payload on the host channel and the
    transport hands the message over, the embedded side queues the emission of
    that event with what JSON keeps of the payload; with nothing queued before,
    the next turn of the loop makes the call of [emitLocal] for it, with the
    listeners the event has; and the call throws into the loop, with the first
    value of the payload as its context, exactly when the event is [error] and
    has no listener. *)
Theorem host_post_is_heard_on_node
    (events : list Bridge.event) (event : string) (payload : list value) :
  event <> EmptyString ->
  forallb printable payload = true ->
  let b := Bridge.run Bridge.start events in
  let k := List.length (Host.to_node (Host.android (Bridge.host b))) in
  let b' := Bridge.run b [Bridge.AtHost (Host.Post (VString event) payload); Bridge.ToNode k] in
  immediates (Bridge.node b')
  = (immediates (Bridge.node b) ++ [EmitClosure EVENT_CHANNEL event (map kept payload)])%list
  /\ (immediates (Bridge.node b) = [] ->
      let turn := Bridge.node (Bridge.step b' (Bridge.AtNode Tick)) in
      emitted turn
      = (emitted (Bridge.node b)
           ++ [{| em_channel := EVENT_CHANNEL; em_type := event;
                  em_args := Args (map kept payload);
                  em_listeners := listenerCount EVENT_CHANNEL event (Bridge.node b) |}])%list
      /\ uncaught turn
         = (uncaught (Bridge.node b)
              ++ if (String.eqb event "error"
                     && (listenerCount EVENT_CHANNEL "error" (Bridge.node b) =? 0)%nat)%bool
                 then [ERR_UNHANDLED_ERROR (hd VUndefined (map kept payload))]
                 else [])%list).
Proof.
  intros Hevent Hpayload b k b'.
  destruct (serialize_deserialize_kept event payload Hevent Hpayload) as (text & Hs & Hd).
  assert (Hname : Host.name (Host.channel (Bridge.host b)) = Host.EVENT_CHANNEL).
  { exact (proj1 (gated_run events)). }
  assert (Hch : lookup_channel EVENT_CHANNEL (channels (Bridge.node b)) = Some IsEventChannel).
  { unfold b. rewrite channels_bridge_run. reflexivity. }
  assert (Hb' : Bridge.node b'
                = setImmediate (EmitClosure EVENT_CHANNEL event (map kept payload))
                    (Bridge.node b)).
  { unfold b'. cbn [Bridge.run fold_left Bridge.step Host.step Bridge.host Bridge.node].
    rewrite Hs. cbn [Bridge.host Bridge.node Host.android Host.sendMessage Host.to_node].
    fold k. unfold k at 1. rewrite nth_error_snoc. rewrite Hname.
    cbn [Bridge.node]. unfold after. cbn [step]. unfold bridgeListener.
    change Host.EVENT_CHANNEL with EVENT_CHANNEL. rewrite Hch.
    unfold EventChannel_processData. rewrite Hd. reflexivity. }
  split.
  - rewrite Hb'. reflexivity.
  - intros Hq turn. unfold turn. cbn [Bridge.step Bridge.node]. rewrite Hb'.
    unfold after. cbn [step]. unfold tick, setImmediate. cbn [immediates with_immediates].
    rewrite Hq, app_nil_l. cbn [run_closure].
    unfold emitLocal, unhandled, listenerCount. cbn [listeners with_immediates].
    destruct (String.eqb event "error") eqn:Ee; cbn [andb].
    + apply String.eqb_eq in Ee. subst event.
      destruct (_ =? 0)%nat; cbn [to_the_loop emitted uncaught with_uncaught with_emitted
                                  with_immediates];
        rewrite ?app_nil_r; split; try reflexivity.
    + cbn [to_the_loop emitted uncaught with_emitted with_immediates].
      rewrite app_nil_r. split; reflexivity.
Qed.

(** X9 with one listener on the embedded side. *)
Lemma host_post_is_heard_on_node_witness :
  let b := Bridge.run Bridge.start [Bridge.AtNode (On EVENT_CHANNEL "greet")] in
  let b' := Bridge.run b [Bridge.AtHost (Host.Post (VString "greet") [VString "hi"; VUndefined]);
                          Bridge.ToNode 0] in
  immediates (Bridge.node b') = [EmitClosure EVENT_CHANNEL "greet" [VString "hi"; VNull]]
  /\ emitted (Bridge.node (Bridge.step b' (Bridge.AtNode Tick)))
     = [{| em_channel := EVENT_CHANNEL; em_type := "greet";
           em_args := Args [VString "hi"; VNull]; em_listeners := 1 |}]
  /\ uncaught (Bridge.node (Bridge.step b' (Bridge.AtNode Tick))) = [].
Proof.
  destruct (host_post_is_heard_on_node [Bridge.AtNode (On EVENT_CHANNEL "greet")] "greet"
              [VString "hi"; VUndefined] ltac:(discriminate) eq_refl) as [Hq He].
  split; [exact Hq | exact (He eq_refl)].
Defined.

(** The event [error] posted by the host while nothing listens to it on the
    embedded side: the turn of the loop that emits it throws. *)
Example host_posts_error_unheard :
  let b' := Bridge.run Bridge.start
              [Bridge.AtHost (Host.Post (VString "error") [VString "boom"]);
               Bridge.ToNode 0; Bridge.AtNode Tick] in
  emitted (Bridge.node b')
  = [{| em_channel := EVENT_CHANNEL; em_type := "error";
        em_args := Args [VString "boom"]; em_listeners := 0 |}]
  /\ uncaught (Bridge.node b') = [ERR_UNHANDLED_ERROR (VString "boom")].
Proof. split; reflexivity. Qed.



(** ** The host channel and the host module over time *)

Section CountedCalls.
Import Host.

Lemma listenerCount_apply_call (this : EventChannel) (c : call) :
  listenerCount (apply_call this c)
  = listenerCount this + if is_addListener c then 1 else -1.
Proof.
  destruct c as [event|handle]; simpl.
  - unfold addListener. cbn [fst listenerCount].
    destruct (listenerCount this + 1 =? 1); [|reflexivity].
    unfold startNativeSubscription. cbn [subscription].
    destruct (subscription this); reflexivity.
  - unfold remove. cbn [listenerCount].
    destruct (listenerCount this - 1 =? 0); [|reflexivity].
    unfold stopNativeSubscription. cbn [subscription].
    destruct (subscription this); reflexivity.
Qed.

Lemma listenerCount_fold (calls : list call) (this : EventChannel) :
  listenerCount (fold_left apply_call calls this)
  = listenerCount this + added calls - removed calls.
Proof.
  revert this. unfold added, removed.
  induction calls as [|c calls IH]; intros this; [simpl; lia|].
  cbn [fold_left]. rewrite IH, listenerCount_apply_call.
  cbn [filter]. destruct (is_addListener c); cbn [negb List.length]; lia.
Qed.

(** X11. [#listenerCount] counts calls, not listeners: after any calls it
    is the number of calls of [addListener] minus the number of calls of
    [remove()], a repeated [remove()] on the same subscription included, and the
    native subscription is off exactly when that difference is zero or less.
    So after add, remove, remove, add a listener is registered and the native
    subscription is off. *)
Theorem listener_count_counts_every_call (name : string) (calls : list call) :
  listenerCount (after_calls name calls) = added calls - removed calls
  /\ (subscription (after_calls name calls) = None <-> added calls <= removed calls)
  /\ (let this := after_calls name [AddListener "e"; Remove 0; Remove 0; AddListener "e"] in
      registered this = [(1%nat, "e")] /\ subscription this = None).
Proof.
  assert (Hcount : listenerCount (after_calls name calls) = added calls - removed calls).
  { unfold after_calls. rewrite listenerCount_fold. reflexivity. }
  split; [exact Hcount|]. split; [|split; reflexivity].
  pose proof (subscribed_after_calls name calls) as H.
  unfold subscribed_iff_counted in H. rewrite Hcount in H.
  destruct (subscription (after_calls name calls)); split; intros; try discriminate; try lia.
  reflexivity.
Qed.

End CountedCalls.

Lemma main_queue_step (h : Host.host) (i : Host.input) :
  Forall (fun m => fst m <> Host.SYSTEM_CHANNEL) (Host.main_queue (Host.android h)) ->
  Forall (fun m => fst m <> Host.SYSTEM_CHANNEL) (Host.main_queue (Host.android (Host.step h i))).
Proof.
  intros H. destruct i as [channelName msg| | | | |c|event msg];
    cbn [Host.step Host.android]; try assumption.
  - unfold Host.sendMessageToApplication.
    destruct (String.eqb channelName Host.SYSTEM_CHANNEL) eqn:E.
    + unfold Host.handleAppChannelMessage. destruct (String.eqb msg _); assumption.
    + unfold Host.sendMessageBackToReact. destruct (Host.instance (Host.android h)); [|assumption].
      cbn [Host.main_queue]. apply Forall_app. split; [assumption|]. constructor; [|constructor].
      cbn [fst]. now apply String.eqb_neq.
  - destruct (Host.main_queue (Host.android h)) as [|[channelName msg] q] eqn:Eq.
    + now rewrite Eq.
    + cbn [Host.android Host.main_queue]. now apply Forall_cons_iff in H as [_ H].
  - unfold Host.OnActivityEntersBackground.
    destruct (Host.nodeIsReadyForAppEvents (Host.android h)); assumption.
  - unfold Host.OnActivityEntersForeground.
    destruct (Host.nodeIsReadyForAppEvents (Host.android h)); assumption.
  - destruct (MessageCodec.serialize event msg); assumption.
Qed.

Lemma system_traffic_step (h : Host.host) (i : Host.input) :
  Host.name (Host.channel h) = Host.EVENT_CHANNEL ->
  Forall (fun m => snd m = "pause" \/ snd m = "resume") (system_traffic h) ->
  Forall (fun m => snd m = "pause" \/ snd m = "resume") (system_traffic (Host.step h i)).
Proof.
  unfold system_traffic. intros Hname H.
  destruct i as [channelName msg| | | | |c|event msg]; cbn [Host.step Host.android].
  - unfold Host.sendMessageToApplication, Host.handleAppChannelMessage,
      Host.sendMessageBackToReact.
    destruct (String.eqb channelName Host.SYSTEM_CHANNEL).
    + destruct (String.eqb msg "ready-for-app-events"); assumption.
    + destruct (Host.instance (Host.android h)); assumption.
  - destruct (Host.main_queue (Host.android h)) as [|[channelName msg] q]; assumption.
  - unfold Host.OnActivityEntersBackground.
    destruct (Host.nodeIsReadyForAppEvents (Host.android h)); [|assumption].
    unfold Host.sendMessage. cbn [Host.to_node]. rewrite filter_app.
    apply Forall_app. split; [assumption|]. repeat constructor.
  - unfold Host.OnActivityEntersForeground.
    destruct (Host.nodeIsReadyForAppEvents (Host.android h)); [|assumption].
    unfold Host.sendMessage. cbn [Host.to_node]. rewrite filter_app.
    apply Forall_app. split; [assumption|]. constructor; [|constructor]. now right.
  - assumption.
  - assumption.
  - destruct (MessageCodec.serialize event msg) as [text|e]; [|assumption].
    cbn [Host.android]. unfold Host.sendMessage. cbn [Host.to_node].
    rewrite Hname, filter_app. cbn [filter fst].
    change (String.eqb Host.EVENT_CHANNEL Host.SYSTEM_CHANNEL) with false. cbv iota.
    now rewrite app_nil_r.
Qed.

(** X12. The system channel on the host: along every run, no message of the
    system channel is handed to React (none is ever queued for the main
    dispatcher), and what the host itself sends on the system channel is [pause]
    or [resume] and nothing else. *)
Theorem the_system_channel_stays_native (trace : list Host.input) :
  let h := Host.run Host.booted trace in
  Forall (fun m => fst m <> Host.SYSTEM_CHANNEL) (Host.main_queue (Host.android h))
  /\ Forall (fun m => snd m = "pause" \/ snd m = "resume") (system_traffic h).
Proof.
  intros h. unfold h, Host.run.
  assert (H : Host.name (Host.channel Host.booted) = Host.EVENT_CHANNEL
              /\ Forall (fun m => fst m <> Host.SYSTEM_CHANNEL)
                   (Host.main_queue (Host.android Host.booted))
              /\ Forall (fun m => snd m = "pause" \/ snd m = "resume")
                   (system_traffic Host.booted)).
  { repeat split; constructor. }
  revert H. generalize Host.booted.
  induction trace as [|i trace IH]; intros h0 (Hname & Hq & Hs); [now split|].
  apply IH. split; [now rewrite name_step|].
  split; [now apply main_queue_step | now apply system_traffic_step].
Qed.

Lemma release_message_is_no_readiness (type : string) :
  String.eqb (release_message type) "ready-for-app-events" = false.
Proof.
  rewrite release_message_parts. destruct (after_bar type); reflexivity.
Qed.

(** X13. The host does not wait for the release of a pause: whatever the
    pause text was, the release message of the embedded side changes nothing
    on the host; of the system channel the host acts on the readiness message
    only. *)
Theorem the_host_ignores_release_messages (h : Host.host) (type : string) :
  Host.step h (Host.FromNode Host.SYSTEM_CHANNEL (release_message type)) = h.
Proof.
  cbn [Host.step]. unfold Host.sendMessageToApplication.
  change (String.eqb Host.SYSTEM_CHANNEL Host.SYSTEM_CHANNEL) with true. cbv iota.
  unfold Host.handleAppChannelMessage. rewrite release_message_is_no_readiness.
  destruct h. reflexivity.
Qed.

(** ** Starting the runtime *)

Lemma split_not_nil (sep : ascii) (s : string) : split sep s <> [].
Proof.
  destruct s as [|c r]; simpl; [discriminate|].
  destruct (Ascii.eqb c sep); [discriminate|]. destruct (split sep r); discriminate.
Qed.

Lemma concat_split (sep : ascii) (s : string) :
  String.concat (String sep EmptyString) (split sep s) = s.
Proof.
  induction s as [|c r IH]; [reflexivity|].
  simpl split. destruct (Ascii.eqb c sep) eqn:E.
  - apply Ascii.eqb_eq in E. subst c.
    pose proof (split_not_nil sep r) as Hne.
    destruct (split sep r) as [|x l]; [congruence|].
    change (String.concat (String sep EmptyString) (EmptyString :: x :: l))
      with (String sep (String.concat (String sep EmptyString) (x :: l))).
    now rewrite IH.
  - pose proof (split_not_nil sep r) as Hne.
    destruct (split sep r) as [|x l]; [congruence|].
    destruct l as [|y l].
    + simpl in *. now rewrite IH.
    + change (String.concat (String sep EmptyString) (String c x :: y :: l))
        with (String c (String.concat (String sep EmptyString) (x :: y :: l))).
      now rewrite IH.
Qed.

Lemma split_parts (sep : ascii) (s : string) :
  Forall (fun part => occurs sep part = false) (split sep s).
Proof.
  induction s as [|c r IH]; simpl; [repeat constructor|].
  destruct (Ascii.eqb c sep) eqn:E.
  - constructor; [reflexivity | assumption].
  - destruct (split sep r) as [|x l]; [repeat constructor; simpl; now rewrite E|].
    apply Forall_cons_iff in IH as [Hx Hl].
    constructor; [simpl; now rewrite E, Hx | assumption].
Qed.

Lemma split_no_separator (sep : ascii) (s : string) :
  occurs sep s = false -> split sep s = [s].
Proof.
  induction s as [|c r IH]; simpl; [reflexivity|].
  intros H. apply orb_false_iff in H as [Hc Hr]. rewrite Hc, IH by assumption. reflexivity.
Qed.

Section Starting.
Import Launcher.

(** The two directories, and a file of the project directory. *)
Variables project modules : string.
Variable file : string -> string.
Implicit Types (c : companion) (call : js_call) (calls : list (nat * js_call)).

Lemma nodejs_started (this : nat) call c :
  startedNodeAlready c = true ->
  startedNodeAlready (fst (nodejs project modules file this call c)) = true
  /\ launched (fst (nodejs project modules file this call c)) = launched c.
Proof.
  intros H. destruct call as [v o|v o|v o]; simpl;
    destruct v; simpl; auto;
    unfold startNodeProject, startNodeProjectWithArgs, startNodeWithScript;
    simpl; rewrite H; simpl; auto.
Qed.

Lemma run_started calls c :
  startedNodeAlready c = true -> launched (run project modules file c calls) = launched c.
Proof.
  revert c. induction calls as [|[this call] calls IH]; intros c H; [reflexivity|].
  simpl. destruct (nodejs_started this call c H) as [H1 H2].
  rewrite IH by exact H1. exact H2.
Qed.

Lemma nodejs_fresh (this : nat) call c :
  startedNodeAlready c = false -> launched c = [] ->
  match snd (nodejs project modules file this call c) with
  | Some _ => fst (nodejs project modules file this call c) = c
  | None => startedNodeAlready (fst (nodejs project modules file this call c)) = true
            /\ exists l, launched (fst (nodejs project modules file this call c)) = [l]
  end.
Proof.
  intros H Hl. destruct call as [v o|v o|v o]; simpl;
    destruct v; simpl; auto;
    unfold startNodeProject, startNodeProjectWithArgs, startNodeWithScript;
    simpl; rewrite H; simpl; rewrite Hl; simpl; eauto.
Qed.

Lemma nodejs_launched_created (this : nat) call c :
  startedNodeAlready c = false -> launched c = [] ->
  launched (fst (nodejs project modules file this call c))
  = launched (fst (nodejs project modules file this call created)).
Proof.
  intros H Hl. destruct call as [v o|v o|v o]; simpl;
    destruct v; simpl; auto;
    unfold startNodeProject, startNodeProjectWithArgs, startNodeWithScript;
    simpl; rewrite H; simpl; rewrite Hl; reflexivity.
Qed.

Lemma launched_first calls :
  launched (run project modules file created calls)
  = firstn 1 (flat_map
                (fun x => launched (fst (nodejs project modules file (fst x) (snd x) created)))
                calls).
Proof.
  assert (H : forall c, startedNodeAlready c = false -> launched c = [] ->
              launched (run project modules file c calls)
              = firstn 1
                  (flat_map
                     (fun x => launched (fst (nodejs project modules file (fst x) (snd x)
                                                created)))
                     calls)).
  { induction calls as [|[this call] calls IH]; intros c Hc Hl; [exact Hl|].
    cbn [run fold_left flat_map fst snd].
    pose proof (nodejs_fresh this call c Hc Hl) as Hfresh.
    pose proof (nodejs_launched_created this call c Hc Hl) as Hsame.
    destruct (snd (nodejs project modules file this call c)) as [e|].
    - rewrite Hfresh. rewrite Hfresh, Hl in Hsame. rewrite <- Hsame. simpl. now apply IH.
    - destruct Hfresh as (Hstarted & l & El). rewrite <- Hsame, El.
      change (fold_left _ calls ?c0) with (run project modules file c0 calls).
      rewrite run_started by exact Hstarted. rewrite El. reflexivity. }
  now apply H.
Qed.

Lemma instance_of_the_call (this : nat) call c :
  snd (nodejs project modules file this call c) = None ->
  instance (fst (nodejs project modules file this call c)) = Some this.
Proof.
  destruct call as [v o|v o|v o]; simpl; destruct v; simpl; try discriminate;
    unfold startNodeProject, startNodeProjectWithArgs, startNodeWithScript; simpl;
    destruct (startedNodeAlready c); reflexivity.
Qed.

(** *** The coroutine of the first call *)

Lemma companion_resume (k : nat) (p : Startup.process) :
  Startup.companion_object (Startup.resume k p) = Startup.companion_object p.
Proof.
  unfold Startup.resume.
  destruct (nth_error _ k) as [co|]; [|reflexivity].
  destruct (_ || _)%bool; [reflexivity|].
  destruct (Startup.initCompletionDeferred _ _) as [[|]|]; reflexivity.
Qed.

Lemma companion_step (p : Startup.process) (e : Startup.event) :
  Startup.companion_object (Startup.step project modules file p e)
  = run project modules file (Startup.companion_object p) (calls_of [e]).
Proof.
  destruct e as [this call|this result|this|k]; cbn [Startup.step calls_of flat_map app].
  - reflexivity.
  - destruct (Startup.initCompletionDeferred _ _); reflexivity.
  - reflexivity.
  - apply companion_resume.
Qed.

Lemma calls_of_cons (e : Startup.event) (events : list Startup.event) :
  calls_of (e :: events) = (calls_of [e] ++ calls_of events)%list.
Proof. unfold calls_of. cbn [flat_map]. now rewrite app_nil_r. Qed.

Lemma companion_run (p : Startup.process) (events : list Startup.event) :
  Startup.companion_object (Startup.run project modules file p events)
  = run project modules file (Startup.companion_object p) (calls_of events).
Proof.
  revert p. induction events as [|e events IH]; intros p; [reflexivity|].
  change (Startup.run project modules file p (e :: events))
    with (Startup.run project modules file (Startup.step project modules file p e) events).
  rewrite IH, companion_step, (calls_of_cons e events). unfold run.
  now rewrite fold_left_app.
Qed.

Lemma initCompletionDeferred_app (this : nat) (l l' : list (nat * Assets.completion)) :
  Startup.initCompletionDeferred this (l ++ l')
  = match Startup.initCompletionDeferred this l with
    | Some result => Some result
    | None => Startup.initCompletionDeferred this l'
    end.
Proof.
  induction l as [|[m result] r IH]; [reflexivity|].
  simpl. destruct (Nat.eqb m this); [reflexivity | exact IH].
Qed.

Lemma initCompletionDeferred_step (this : nat) (result : Assets.completion)
    (p : Startup.process) (e : Startup.event) :
  Startup.initCompletionDeferred this (Startup.completed p) = Some result ->
  Startup.initCompletionDeferred this
    (Startup.completed (Startup.step project modules file p e)) = Some result.
Proof.
  intros H. destruct e as [that call|that result'|that|k]; cbn [Startup.step].
  - exact H.
  - destruct (Startup.initCompletionDeferred that _); [exact H|].
    cbn [Startup.completed]. now rewrite initCompletionDeferred_app, H.
  - exact H.
  - unfold Startup.resume. destruct (nth_error _ k) as [co|]; [|exact H].
    destruct (_ || _)%bool; [exact H|].
    destruct (Startup.initCompletionDeferred (scope co) _) as [[|]|]; exact H.
Qed.

Lemma is_cancelled_step (this : nat) (p : Startup.process) (e : Startup.event) :
  Startup.is_cancelled this p = true ->
  Startup.is_cancelled this (Startup.step project modules file p e) = true.
Proof.
  unfold Startup.is_cancelled. intros H.
  destruct e as [that call|that result'|that|k]; cbn [Startup.step].
  - exact H.
  - destruct (Startup.initCompletionDeferred that _); exact H.
  - cbn [Startup.cancelled]. now rewrite existsb_app, H.
  - unfold Startup.resume. destruct (nth_error _ k) as [co|]; [|exact H].
    destruct (_ || _)%bool; [exact H|].
    destruct (Startup.initCompletionDeferred (scope co) _) as [[|]|]; exact H.
Qed.

Lemma started_in_order_booted : started_in_order Startup.booted.
Proof. repeat split. Qed.

Lemma started_in_order_step (p : Startup.process) (e : Startup.event) :
  started_in_order p -> started_in_order (Startup.step project modules file p e).
Proof.
  unfold started_in_order. intros H.
  destruct e as [this call|this result|this|k]; cbn [Startup.step].
  - cbn [Startup.companion_object Startup.resumed Startup.started Startup.completed].
    destruct (launched (Startup.companion_object p)) as [|co [|co' l]] eqn:El; [| |contradiction].
    + destruct H as (Hs & Hr & Hst).
      pose proof (nodejs_fresh this call _ Hs El) as Hfresh.
      destruct (snd (nodejs project modules file this call _)) as [thrown|].
      * rewrite Hfresh, El. auto.
      * destruct Hfresh as (Hs' & co & ->). auto.
    + destruct H as (Hs & H).
      destruct (nodejs_started this call _ Hs) as [Hs' ->]. rewrite El. auto.
  - destruct (Startup.initCompletionDeferred this (Startup.completed p)) eqn:Ei; [exact H|].
    cbn [Startup.companion_object Startup.resumed Startup.started Startup.completed].
    destruct (launched (Startup.companion_object p)) as [|co [|co' l]]; [exact H| |contradiction].
    destruct H as (Hs & [H|[Hr H]]); (split; [exact Hs|]); [now left|right].
    split; [exact Hr|]. rewrite initCompletionDeferred_app.
    destruct (Startup.initCompletionDeferred (scope co) (Startup.completed p)) as [[|]|];
      [exact H | exact H | contradiction].
  - exact H.
  - unfold Startup.resume.
    destruct (launched (Startup.companion_object p)) as [|co [|co' l]] eqn:El; [| |contradiction].
    + destruct k; cbn [nth_error]; rewrite El; exact H.
    + destruct k as [|k]; cbn [nth_error];
        [|destruct k; cbn [nth_error]; rewrite El; exact H].
      destruct (_ || _)%bool eqn:Eb; [rewrite El; exact H|].
      apply orb_false_iff in Eb as [Hres Hcan].
      destruct H as (Hs & [[Hr Hst]|[Hr H]]).
      * destruct (Startup.initCompletionDeferred (scope co) (Startup.completed p))
          as [[|]|] eqn:Ei;
          cbn [Startup.companion_object Startup.resumed Startup.started Startup.completed];
          rewrite El; (split; [exact Hs|]).
        -- right. rewrite Hr, Hst, Ei. split; reflexivity.
        -- right. rewrite Hr, Ei. split; [reflexivity | exact Hst].
        -- left. split; assumption.
      * unfold Startup.has_resumed in Hres. rewrite Hr in Hres. discriminate Hres.
Qed.

Lemma started_in_order_run (p : Startup.process) (events : list Startup.event) :
  started_in_order p -> started_in_order (Startup.run project modules file p events).
Proof.
  revert p. induction events as [|e events IH]; intros p H; [exact H|].
  apply (IH (Startup.step project modules file p e)). now apply started_in_order_step.
Qed.

(** The coroutine of the first call will never make its native call: nothing
    has started, and the initialisation of its module instance completed
    exceptionally or its scope is cancelled. *)
Lemma never_started_step (co : coroutine) (p : Startup.process) (e : Startup.event) :
  started_in_order p ->
  launched (Startup.companion_object p) = [co] -> Startup.started p = [] ->
  Startup.initCompletionDeferred (scope co) (Startup.completed p)
  = Some Assets.CompletedExceptionally
  \/ Startup.is_cancelled (scope co) p = true ->
  let p' := Startup.step project modules file p e in
  launched (Startup.companion_object p') = [co] /\ Startup.started p' = []
  /\ (Startup.initCompletionDeferred (scope co) (Startup.completed p')
      = Some Assets.CompletedExceptionally
      \/ Startup.is_cancelled (scope co) p' = true).
Proof.
  intros Hord Hl Hst Hwhy p'.
  assert (Hwhy' : Startup.initCompletionDeferred (scope co) (Startup.completed p')
                  = Some Assets.CompletedExceptionally
                  \/ Startup.is_cancelled (scope co) p' = true).
  { destruct Hwhy as [H|H]; [left; now apply initCompletionDeferred_step
                            | right; now apply is_cancelled_step]. }
  unfold started_in_order in Hord. rewrite Hl in Hord. destruct Hord as (Hs & Hord).
  split; [|split; [|exact Hwhy']].
  - unfold p'. destruct e as [this call|this result|this|k];
      cbn [Startup.step Startup.companion_object].
    + destruct (nodejs_started this call _ Hs) as [_ ->]. exact Hl.
    + destruct (Startup.initCompletionDeferred this _); exact Hl.
    + exact Hl.
    + now rewrite companion_resume.
  - unfold p'. destruct e as [this call|this result|this|k]; cbn [Startup.step].
    + exact Hst.
    + destruct (Startup.initCompletionDeferred this _); exact Hst.
    + exact Hst.
    + unfold Startup.resume. rewrite Hl.
      destruct k as [|k]; cbn [nth_error]; [|destruct k; exact Hst].
      destruct (_ || _)%bool eqn:Eb; [exact Hst|].
      apply orb_false_iff in Eb as [Hres Hcan].
      destruct Hwhy as [Hi|Hc]; [rewrite Hi; exact Hst | congruence].
Qed.

(** X14. The runtime is started once, and only when the initialisation
    allows it.  In any course of the process (calls of [nodejs.start],
    [nodejs.startWithArgs] and [nodejs.startWithScript] on whatever module
    instances, initialisations that complete or fail, module instances that
    are destroyed, coroutines that get to run): the companion object is what
    the calls alone make of it; only the first call that does not throw
    launches a coroutine, with the command that call alone would launch, so
    there is one coroutine at most; every call that does not throw makes its
    module instance the [instance] of the companion, whether it launched or
    not; [startNodeWithArguments] has been called once at most, with the
    command of that coroutine, and only after the initialisation of the module
    instance of the first call completed; when that initialisation completed
    and the scope of the module instance is not cancelled, the coroutine makes
    the call as soon as it runs; and when that initialisation completed
    exceptionally, or the scope was cancelled before the call was made, the
    runtime is never started afterwards, whatever happens, while
    [startedNodeAlready] stays set and no other coroutine is launched. *)
Theorem node_is_started_once (events : list Startup.event) :
  let p := Startup.run project modules file Startup.booted events in
  let c := Startup.companion_object p in
  c = run project modules file created (calls_of events)
  /\ launched c
     = firstn 1 (flat_map
                   (fun x => launched (fst (nodejs project modules file (fst x) (snd x)
                                              created)))
                   (calls_of events))
  /\ (List.length (launched c) <= 1)%nat
  /\ (forall this call,
         snd (nodejs project modules file this call c) = None ->
         instance (fst (nodejs project modules file this call c)) = Some this)
  /\ (Startup.started p = []
      \/ exists co,
           launched c = [co] /\ Startup.started p = [body co]
           /\ Startup.initCompletionDeferred (scope co) (Startup.completed p)
              = Some Assets.Completed)
  /\ (forall co,
         launched c = [co] ->
         Startup.initCompletionDeferred (scope co) (Startup.completed p)
         = Some Assets.Completed ->
         Startup.is_cancelled (scope co) p = false ->
         Startup.started (Startup.step project modules file p (Startup.Resume 0))
         = [body co])
  /\ (forall co more,
         launched c = [co] ->
         Startup.initCompletionDeferred (scope co) (Startup.completed p)
         = Some Assets.CompletedExceptionally
         \/ (Startup.is_cancelled (scope co) p = true /\ Startup.started p = []) ->
         let p' := Startup.run project modules file p more in
         Startup.started p' = []
         /\ startedNodeAlready (Startup.companion_object p') = true
         /\ launched (Startup.companion_object p') = [co]).
Proof.
  intros p c.
  assert (Hc : c = run project modules file created (calls_of events)).
  { unfold c, p. now rewrite companion_run. }
  pose proof (started_in_order_run Startup.booted events started_in_order_booted) as Hord.
  fold p in Hord.
  split; [exact Hc|]. split; [rewrite Hc; apply launched_first|].
  split; [rewrite Hc, launched_first, length_firstn; lia|].
  split; [intros this call; apply instance_of_the_call|].
  split; [|split].
  - unfold started_in_order in Hord. fold c in Hord.
    destruct (launched c) as [|co [|co' l]]; [| |contradiction].
    + left. apply Hord.
    + destruct Hord as (_ & [[_ Hst]|[_ H]]); [now left|].
      destruct (Startup.initCompletionDeferred (scope co) (Startup.completed p)) as [[|]|]
        eqn:Ei; [|now left|contradiction].
      right. exists co. auto.
  - intros co Hl Hi Hcan. unfold started_in_order in Hord. fold c in Hord.
    rewrite Hl, Hi in Hord. destruct Hord as (_ & [[Hr Hst]|[Hr Hst]]);
      cbn [Startup.step]; unfold Startup.resume; fold c; rewrite Hl; cbn [nth_error];
      unfold Startup.has_resumed; rewrite Hr, Hcan; cbn [existsb Nat.eqb orb].
    + rewrite Hi. cbn [Startup.started]. now rewrite Hst.
    + exact Hst.
  - intros co more Hl Hwhy.
    assert (Hst : Startup.started p = []).
    { destruct Hwhy as [Hi|[_ Hst]]; [|exact Hst].
      unfold started_in_order in Hord. fold c in Hord. rewrite Hl, Hi in Hord.
      destruct Hord as (_ & [[_ Hst]|[_ Hst]]); exact Hst. }
    assert (Hwhy' : Startup.initCompletionDeferred (scope co) (Startup.completed p)
                    = Some Assets.CompletedExceptionally
                    \/ Startup.is_cancelled (scope co) p = true) by tauto.
    clear Hwhy Hc. unfold c in Hl. clearbody p. clear c.
    revert p Hord Hl Hst Hwhy'. induction more as [|e more IH]; intros p Hord Hl Hst Hwhy p'.
    + unfold p'. cbn [Startup.run fold_left]. split; [exact Hst|]. split; [|exact Hl].
      unfold started_in_order in Hord. rewrite Hl in Hord. apply Hord.
    + destruct (never_started_step co p e Hord Hl Hst Hwhy) as (Hl' & Hst' & Hwhy').
      apply (IH (Startup.step project modules file p e));
        [now apply started_in_order_step | assumption..].
Qed.

(** The first call reaches a module instance whose initialisation fails: the
    flag is set, the coroutine ends in [waitForInit], and the calls that follow
    start nothing. *)
Example failed_initialisation_blocks_the_start :
  let p := Startup.run project modules file Startup.booted
             [Startup.Call 1 (Start (VString "main.js") None);
              Startup.InitEnds 1 Assets.CompletedExceptionally;
              Startup.Resume 0;
              Startup.InitEnds 2 Assets.Completed;
              Startup.Call 2 (Start (VString "main.js") None);
              Startup.Resume 0; Startup.Resume 1] in
  Startup.started p = []
  /\ startedNodeAlready (Startup.companion_object p) = true
  /\ List.length (launched (Startup.companion_object p)) = 1%nat.
Proof. repeat split. Qed.

(** The first call reaches a module instance that initialises: its
    coroutine starts the runtime with the command of the call. *)
Example completed_initialisation_starts :
  let p := Startup.run project modules file Startup.booted
             [Startup.Call 1 (Start (VString "main.js") None);
              Startup.Resume 0;
              Startup.InitEnds 1 Assets.Completed;
              Startup.Resume 0; Startup.Resume 0] in
  Startup.started p
  = [{| arguments := ["node"; file "main.js"];
        modulesPath := project ++ ":" ++ modules;
        option_redirectOutputToLogcat := true |}].
Proof. reflexivity. Qed.

(** X15. The command of [startNodeProjectWithArgs]: the input is cut at
    every space; the first part names the script inside the project directory,
    the other parts follow as arguments, the empty ones included; joined with
    spaces the parts give the input back, and no part holds a space; an input
    with no space starts the command [startNodeProject] starts. *)
Theorem start_with_args_keeps_every_part (this : nat) (input : string) (redirect : bool) :
  exists script rest,
    launched (startNodeProjectWithArgs project modules file this input redirect created)
    = [{| scope := this;
          body := {| arguments := "node" :: file script :: rest;
                     modulesPath := project ++ ":" ++ modules;
                     option_redirectOutputToLogcat := redirect |} |}]
    /\ String.concat " " (script :: rest) = input
    /\ Forall (fun part => occurs " " part = false) (script :: rest)
    /\ (occurs " " input = false ->
        startNodeProjectWithArgs project modules file this input redirect created
        = startNodeProject project modules file this input redirect created).
Proof.
  pose proof (split_not_nil " " input) as Hne.
  pose proof (concat_split " " input) as Hcat.
  pose proof (split_parts " " input) as Hparts.
  pose proof (split_no_separator " " input) as Hone.
  unfold startNodeProjectWithArgs, startNodeProject. simpl.
  destruct (split " " input) as [|script rest]; [congruence|].
  exists script, rest. split; [reflexivity|]. split; [exact Hcat|]. split; [exact Hparts|].
  intros H. specialize (Hone H). injection Hone as -> ->. reflexivity.
Qed.

(** X16. The argument check of the [nodejs] object: a call whose argument
    is not a string throws and changes nothing (the module instance is not
    recorded either); a call with a string does not throw, and the launch it
    makes, on the scope of its module instance, redirects the output to logcat
    unless the options say [redirectOutputToLogcat: false]. *)
Theorem start_checks_its_argument (this : nat) call c :
  match argument call with
  | VString _ =>
      snd (nodejs project modules file this call c) = None
      /\ (startedNodeAlready c = false ->
          map (fun co => (scope co, option_redirectOutputToLogcat (body co)))
            (launched (fst (nodejs project modules file this call c)))
          = (map (fun co => (scope co, option_redirectOutputToLogcat (body co))) (launched c)
               ++ [(this,
                    match options_of call with
                    | Some {| redirectOutputToLogcat := Some false |} => false
                    | _ => true
                    end)])%list)
  | _ => fst (nodejs project modules file this call c) = c
         /\ snd (nodejs project modules file this call c) <> None
  end.
Proof.
  destruct call as [v o|v o|v o]; simpl; destruct v; simpl;
    try (split; [reflexivity | discriminate]);
    (split; [reflexivity|]); intros H;
    unfold startNodeProject, startNodeProjectWithArgs, startNodeWithScript; simpl;
    rewrite H; simpl; rewrite map_app; simpl;
    destruct o as [[[[]|]]|]; reflexivity.
Qed.

End Starting.

(** X14 at a first call on a module instance whose initialisation fails: the
    coroutine of the call ends in [waitForInit], and neither it nor the call
    on the next module instance, which initialises, starts the runtime. *)
Lemma node_is_started_once_witness :
  let file child := "/data/nodejs-project/" ++ child in
  let run := Startup.run "/data/nodejs-project" "/data/builtin_modules" file in
  let p := run Startup.booted [Startup.Call 1 (Launcher.Start (VString "main.js") None);
                               Startup.InitEnds 1 Assets.CompletedExceptionally] in
  let p' := run p [Startup.Resume 0; Startup.InitEnds 2 Assets.Completed;
                   Startup.Call 2 (Launcher.Start (VString "main.js") None);
                   Startup.Resume 0; Startup.Resume 1] in
  Startup.started p' = []
  /\ Launcher.startedNodeAlready (Startup.companion_object p') = true
  /\ Launcher.launched (Startup.companion_object p')
     = [{| Launcher.scope := 1;
           Launcher.body :=
             {| Launcher.arguments := ["node"; "/data/nodejs-project/main.js"];
                Launcher.modulesPath := "/data/nodejs-project:/data/builtin_modules";
                Launcher.option_redirectOutputToLogcat := true |} |}].
Proof.
  intros file run p p'.
  destruct (node_is_started_once "/data/nodejs-project" "/data/builtin_modules" file
              [Startup.Call 1 (Launcher.Start (VString "main.js") None);
               Startup.InitEnds 1 Assets.CompletedExceptionally])
    as (_ & _ & _ & _ & _ & _ & H).
  exact (H _ [Startup.Resume 0; Startup.InitEnds 2 Assets.Completed;
              Startup.Call 2 (Launcher.Start (VString "main.js") None);
              Startup.Resume 0; Startup.Resume 1] eq_refl (or_introl eq_refl)).
Defined.

(** ** The arguments of the runtime *)

Section Marshalling.
Import Argv.

Lemma until_nul_free (s : list Byte.byte) : nul_free (until_nul s).
Proof.
  induction s as [|b r IH]; simpl; [constructor|].
  destruct (Byte.eqb b NUL) eqn:E; constructor; assumption.
Qed.

Lemma until_nul_tail (s : list Byte.byte) :
  exists tail, GetStringUTFChars s = (until_nul s ++ NUL :: tail)%list.
Proof.
  unfold GetStringUTFChars. induction s as [|b r IH]; simpl.
  - exists []. reflexivity.
  - destruct (Byte.eqb b NUL) eqn:E.
    + apply Byte.byte_dec_bl in E. subst b. eexists. reflexivity.
    + destruct IH as (tail & ->). exists tail. reflexivity.
Qed.

Lemma until_nul_of_free (s : list Byte.byte) : nul_free s -> until_nul s = s.
Proof.
  induction 1 as [|b r Hb _ IH]; simpl; [reflexivity|]. now rewrite Hb, IH.
Qed.

Lemma strlen_at (pre body rest : list Byte.byte) :
  nul_free body ->
  strlen (pre ++ body ++ NUL :: rest) (List.length pre) = Some (List.length body).
Proof.
  intros Hbody. induction pre as [|x pre IH]; simpl.
  - induction Hbody as [|b r Hb _ IH]; simpl; [reflexivity|].
    rewrite Hb. simpl in IH. now rewrite IH.
  - destruct (pre ++ body ++ NUL :: rest)%list eqn:E.
    + destruct pre, body; discriminate E.
    + exact IH.
Qed.

Lemma c_string_at (pre body rest : list Byte.byte) :
  nul_free body ->
  c_string (pre ++ body ++ NUL :: rest) (List.length pre) = Some body.
Proof.
  intros Hbody. induction pre as [|x pre IH]; simpl.
  - induction Hbody as [|b r Hb _ IH]; simpl; [reflexivity|].
    rewrite Hb. simpl in IH. now rewrite IH.
  - destruct (pre ++ body ++ NUL :: rest)%list eqn:E.
    + destruct pre, body; discriminate E.
    + exact IH.
Qed.

Lemma store_at (pre rest : list Byte.byte) (x b : Byte.byte) :
  store (pre ++ x :: rest) (List.length pre) b = Some (pre ++ b :: rest)%list.
Proof. induction pre as [|y pre IH]; simpl; [reflexivity | now rewrite IH]. Qed.

Lemma strncpy_at (body : list Byte.byte) :
  nul_free body ->
  forall (pre tail : list Byte.byte) (m : nat) (rest : list Byte.byte),
    (List.length body <= m)%nat ->
    strncpy (pre ++ repeat NUL m ++ rest) (List.length pre) (body ++ NUL :: tail)
      (List.length body)
    = Some (pre ++ body ++ repeat NUL (m - List.length body) ++ rest)%list.
Proof.
  induction 1 as [|b r Hb _ IH]; intros pre tail m rest Hm.
  - simpl. now rewrite Nat.sub_0_r.
  - destruct m as [|m]; [simpl in Hm; lia|].
    cbn [List.length strncpy repeat].
    change ((b :: r) ++ NUL :: tail)%list with (b :: (r ++ NUL :: tail))%list.
    change ((NUL :: repeat NUL m) ++ rest)%list with (NUL :: (repeat NUL m ++ rest))%list.
    cbv beta iota. rewrite store_at, Hb.
    specialize (IH (pre ++ [b])%list tail m rest ltac:(simpl in Hm; lia)).
    rewrite length_app, Nat.add_1_r, <- !app_assoc in IH. exact IH.
Qed.

Lemma size_of_cons (s : list Byte.byte) (rest : list (list Byte.byte)) :
  size_of (s :: rest) = Z.of_nat (List.length (until_nul s)) + 1 + size_of rest.
Proof.
  unfold size_of, laid_out. cbn [flat_map]. rewrite !length_app. cbn [List.length]. lia.
Qed.

Lemma strlen_GetStringUTFChars (s : list Byte.byte) :
  strlen (GetStringUTFChars s) O = Some (List.length (until_nul s)).
Proof.
  destruct (until_nul_tail s) as (tail & ->).
  apply (strlen_at [] (until_nul s) tail (until_nul_free s)).
Qed.

Lemma arguments_size_sum (arguments : list (list Byte.byte)) (acc : Z) :
  0 <= acc -> acc + size_of arguments <= INT_MAX ->
  arguments_size (map GetStringUTFChars arguments) acc = Some (acc + size_of arguments).
Proof.
  revert acc. induction arguments as [|s rest IH]; intros acc Hacc Hmax.
  - unfold size_of. simpl. f_equal. lia.
  - rewrite size_of_cons in *. cbn [map arguments_size].
    rewrite strlen_GetStringUTFChars.
    assert (0 <= size_of rest) by (unfold size_of; lia).
    destruct (acc + Z.of_nat (List.length (until_nul s)) >? INT_MAX) eqn:E1;
      [apply Z.gtb_lt in E1; lia|].
    destruct (acc + Z.of_nat (List.length (until_nul s)) + 1 >? INT_MAX) eqn:E2;
      [apply Z.gtb_lt in E2; lia|].
    rewrite IH by lia. f_equal. lia.
Qed.

Lemma populate_layout (arguments : list (list Byte.byte)) :
  forall (pre : list Byte.byte) (spare : nat),
    populate (map GetStringUTFChars arguments)
      (pre ++ repeat NUL (List.length (laid_out arguments)) ++ repeat NUL spare)
      (List.length pre)
    = Some ((pre ++ laid_out arguments ++ repeat NUL spare)%list,
            starts (List.length pre) arguments).
Proof.
  induction arguments as [|s rest IH]; intros pre spare; [reflexivity|].
  cbn [map populate]. rewrite strlen_GetStringUTFChars.
  destruct (until_nul_tail s) as (tail & ->).
  pose proof (until_nul_free s) as Hfree.
  unfold laid_out. cbn [flat_map]. fold (laid_out rest).
  rewrite !length_app. cbn [List.length].
  rewrite strncpy_at by (assumption || lia).
  replace (List.length (until_nul s) + 1 + List.length (laid_out rest)
           - List.length (until_nul s))%nat
    with (S (List.length (laid_out rest))) by lia.
  cbn [repeat].
  change (pre ++ until_nul s
              ++ (NUL :: repeat NUL (List.length (laid_out rest))) ++ repeat NUL spare)%list
    with (pre ++ until_nul s
              ++ NUL :: (repeat NUL (List.length (laid_out rest)) ++ repeat NUL spare))%list.
  rewrite strlen_at by assumption.
  specialize (IH (pre ++ until_nul s ++ [NUL])%list spare).
  rewrite !length_app, <- !app_assoc in IH. cbn [List.length] in IH.
  change ([NUL] ++ repeat NUL (List.length (laid_out rest)) ++ repeat NUL spare)%list
    with (NUL :: repeat NUL (List.length (laid_out rest)) ++ repeat NUL spare)%list in IH.
  rewrite <- Nat.add_assoc, IH. cbn [starts]. rewrite <- !app_assoc.
  rewrite <- Nat.add_assoc. reflexivity.
Qed.

Lemma starts_read_back (arguments : list (list Byte.byte)) :
  forall pre : list Byte.byte,
    Forall2 (fun p s => c_string (pre ++ laid_out arguments) p = Some (until_nul s))
      (starts (List.length pre) arguments) arguments.
Proof.
  induction arguments as [|s rest IH]; intros pre; [constructor|].
  cbn [starts]. constructor.
  - unfold laid_out. cbn [flat_map]. rewrite <- app_assoc. cbn [app].
    apply c_string_at, until_nul_free.
  - specialize (IH (pre ++ until_nul s ++ [NUL])%list).
    rewrite !length_app, <- !app_assoc in IH. cbn [List.length] in IH.
    rewrite <- Nat.add_assoc.
    unfold laid_out at 1. cbn [flat_map]. fold (laid_out rest).
    rewrite <- !app_assoc. exact IH.
Qed.

Lemma read_back_free (block : list Byte.byte) (ps : list nat) (ss : list (list Byte.byte)) :
  Forall2 (fun p s => c_string block p = Some (until_nul s)) ps ss ->
  Forall nul_free ss ->
  Forall2 (fun p s => c_string block p = Some s) ps ss.
Proof.
  induction 1 as [|p s ps ss Hp _ IH]; intros Hfree; [constructor|].
  apply Forall_cons_iff in Hfree as [Hs Hss].
  constructor; [|now apply IH].
  now rewrite until_nul_of_free in Hp.
Qed.

(** X17. The arguments in one block: when the bytes of all arguments with
    their terminators fit an [int], [startNodeWithArguments] makes a buffer
    that holds the arguments one after the other, each followed by one [NUL],
    and nothing else; [argv[i]] is where argument [i] begins; and the string
    read at [argv[i]] is argument [i] (up to its first [NUL], should it hold
    one).  No access leaves the buffer or a source string. *)
Theorem arguments_are_marshalled (arguments : list (list Byte.byte)) :
  size_of arguments <= INT_MAX ->
  exists args_buffer argv,
    startNodeWithArguments arguments = Some (args_buffer, argv)
    /\ args_buffer = laid_out arguments
    /\ argv = starts O arguments
    /\ Forall2 (fun p s => c_string args_buffer p = Some (until_nul s)) argv arguments
    /\ (Forall nul_free arguments ->
        Forall2 (fun p s => c_string args_buffer p = Some s) argv arguments).
Proof.
  intros Hmax. exists (laid_out arguments), (starts O arguments).
  assert (Hback : Forall2 (fun p s => c_string (laid_out arguments) p = Some (until_nul s))
                    (starts O arguments) arguments).
  { exact (starts_read_back arguments []). }
  split; [|split; [reflexivity|split; [reflexivity|split; [exact Hback|]]]].
  - unfold startNodeWithArguments.
    rewrite arguments_size_sum by (assumption || lia).
    cbn [Z.add]. unfold size_of. rewrite Nat2Z.id.
    pose proof (populate_layout arguments [] O) as H.
    cbn [app List.length repeat] in H. rewrite !app_nil_r in H. exact H.
  - now apply read_back_free.
Qed.

(** X17 at the three arguments of a script start. *)
Lemma arguments_are_marshalled_witness :
  exists args_buffer argv,
    startNodeWithArguments
      [list_byte_of_string "node"; list_byte_of_string "-e"; list_byte_of_string "1+1"]
    = Some (args_buffer, argv)
    /\ args_buffer = (list_byte_of_string "node" ++ [NUL] ++ list_byte_of_string "-e"
                         ++ [NUL] ++ list_byte_of_string "1+1" ++ [NUL])%list
    /\ argv = [0; 5; 8]%nat
    /\ Forall2 (fun p s => c_string args_buffer p = Some s) argv
         [list_byte_of_string "node"; list_byte_of_string "-e"; list_byte_of_string "1+1"].
Proof.
  destruct (arguments_are_marshalled
              [list_byte_of_string "node"; list_byte_of_string "-e";
               list_byte_of_string "1+1"])
    as (args_buffer & argv & Hstart & Hbuffer & Hargv & _ & Hback).
  - vm_compute. discriminate.
  - exists args_buffer, argv. split; [exact Hstart|]. split; [exact Hbuffer|].
    split; [exact Hargv|]. apply Hback. repeat constructor.
Defined.

End Marshalling.

(** ** The attachment cache over time *)

Section AttachmentOverTime.
Import AttachmentCache.

Lemma bounded_fold (events : list event) (c : cache) :
  bounded c -> bounded (fold_left happen events c).
Proof.
  revert c. induction events as [|e events IH]; intros c H; [exact H|].
  apply IH. now apply bounded_happen.
Qed.

Lemma bounded_run_in_turn (n : nat) (events : list event) : bounded (in_turn n events).
Proof. apply bounded_fold, bounded_started. Qed.

Lemma high_water_ge (events : list event) (c : cache) :
  attached_thread_count c <= high_water c events.
Proof. destruct events; simpl; lia. Qed.

(** One event moves the peak to the new count when that is higher. *)
Lemma peak_happen (c : cache) (e : event) :
  bounded c ->
  peak_attached_threads (happen c e)
  = Z.max (peak_attached_threads c) (attached_thread_count (happen c e)).
Proof.
  intros (Hjvm & Hrest & Hcount & [Hlo Hhi] & Hpeak). destruct e as [id|id]; simpl.
  - destruct (nth_error (threads c) id) as [t|] eqn:Hn;
      [|rewrite acquire_nobody by assumption; lia].
    assert (Ht : at_rest t).
    { rewrite Forall_forall in Hrest. apply Hrest. eapply nth_error_In; eauto. }
    destruct Ht as [Hat Henv].
    rewrite (acquire_outcome id t c Hn Hat). unfold outcome.
    destruct (tls_env t); [cbn; lia|].
    rewrite Hjvm. cbn [negb].
    destruct (status t); try (cbn; lia).
    destruct (attached_thread_count c >=? MAX_ATTACHED_THREADS); [cbn; lia|].
    destruct (attach_succeeds t); cbn; lia.
  - unfold thread_cleanup_callback.
    destruct (nth_error (threads c) id) as [t|]; [|lia].
    cbn. destruct (tls_attached t && cached_jvm c)%bool; lia.
Qed.

Lemma peak_fold (events : list event) (c : cache) :
  bounded c ->
  peak_attached_threads (fold_left happen events c)
  = Z.max (peak_attached_threads c) (high_water c events).
Proof.
  revert c. induction events as [|e events IH]; intros c H.
  - destruct H as (_ & _ & _ & _ & Hpeak). simpl. lia.
  - cbn [fold_left high_water]. rewrite IH by now apply bounded_happen.
    rewrite peak_happen by assumption.
    pose proof (high_water_ge events (happen c e)).
    destruct H as (_ & _ & _ & _ & Hpeak). lia.
Qed.

(** X18. With calls that do not overlap, [peak_attached_threads] is the
    historical maximum of [attached_thread_count], the largest value the count
    has had on the way; the count is the number of threads the cache has
    attached and not yet released, and lies between 0 and the limit. *)
Theorem peak_is_the_high_water_mark (n : nat) (events : list event) :
  peak_attached_threads (in_turn n events) = high_water (started n) events
  /\ attached_thread_count (in_turn n events) = Z.of_nat (attached (in_turn n events))
  /\ 0 <= attached_thread_count (in_turn n events) <= MAX_ATTACHED_THREADS.
Proof.
  pose proof (bounded_run_in_turn n events) as (_ & _ & Hcount & Hrange & _).
  split; [|split; assumption].
  unfold in_turn. rewrite peak_fold by apply bounded_started.
  pose proof (high_water_ge events (started n)) as H.
  change (attached_thread_count (started n)) with 0 in H.
  change (peak_attached_threads (started n)) with 0. lia.
Qed.

(** *** Threads that come and go *)

Lemma native_happen (c : cache) (e : event) :
  bounded c -> Forall native_thread (threads c) -> Forall native_thread (threads (happen c e)).
Proof.
  intros (Hjvm & Hrest & Hcount & [Hlo Hhi] & Hpeak) Hnat. destruct e as [id|id]; simpl.
  - destruct (nth_error (threads c) id) as [t|] eqn:Hn;
      [|now rewrite acquire_nobody by assumption].
    assert (Ht : at_rest t).
    { rewrite Forall_forall in Hrest. apply Hrest. eapply nth_error_In; eauto. }
    assert (Hnt : native_thread t).
    { rewrite Forall_forall in Hnat. apply Hnat. eapply nth_error_In; eauto. }
    destruct Ht as [Hat Henv]. destruct Hnt as [Hsucc Hnt].
    rewrite (acquire_outcome id t c Hn Hat). unfold outcome.
    destruct (tls_env t) as [env|] eqn:Eenv.
    { cbn. apply Forall_set_thread; [assumption|]. split; [exact Hsucc|]. cbn.
      now rewrite Eenv. }
    destruct Hnt as [Hst Hoff]. rewrite Hjvm, Hst, Hsucc. cbn [negb].
    destruct (attached_thread_count c >=? MAX_ATTACHED_THREADS); cbn.
    + apply Forall_set_thread; [assumption|]. split; [exact Hsucc|]. cbn.
      rewrite Eenv. now split.
    + apply Forall_set_thread; [assumption|]. split; [reflexivity|]. cbn. now split.
  - unfold thread_cleanup_callback.
    destruct (nth_error (threads c) id) as [t|] eqn:Hn; [|assumption].
    assert (Hnt : native_thread t).
    { rewrite Forall_forall in Hnat. apply Hnat. eapply nth_error_In; eauto. }
    destruct Hnt as [Hsucc Hnt].
    cbn. apply Forall_set_thread; [assumption|]. split; [exact Hsucc|]. cbn.
    rewrite Hjvm, andb_true_r.
    destruct (tls_env t); destruct Hnt as [Hst Hatt]; rewrite Hatt; now split.
Qed.

Lemma native_in_turn (n : nat) (events : list event) :
  Forall native_thread (threads (in_turn n events)).
Proof.
  unfold in_turn.
  assert (H : bounded (started n) /\ Forall native_thread (threads (started n))).
  { split; [apply bounded_started|]. simpl. apply Forall_forall. intros t Ht.
    apply repeat_spec in Ht. subst t. split; [reflexivity | now split]. }
  revert H. generalize (started n).
  induction events as [|e events IH]; intros c [Hb Hn]; [exact Hn|].
  apply IH. split; [now apply bounded_happen | now apply native_happen].
Qed.

Lemma nth_error_set_thread_other id id' t l :
  id <> id' -> nth_error (set_thread id t l) id' = nth_error l id'.
Proof.
  revert id id'. induction l as [|x l IH]; intros [|id] [|id'] H; simpl; try reflexivity.
  - congruence.
  - apply IH. congruence.
Qed.

(** X19. A refusal is not remembered: with the pool at the limit, the call
    of a detached thread is refused and the counters stay as they are; once a
    thread the cache attached has exited, the next call of the refused thread
    attaches it, and the pool is at the limit again. *)
Theorem a_refused_thread_gets_in_after_an_exit (n : nat) (events : list event) (a b : nat) :
  let c := in_turn n events in
  attached_thread_count c = MAX_ATTACHED_THREADS ->
  option_map tls_env (nth_error (threads c) a) = Some None ->
  option_map tls_attached (nth_error (threads c) b) = Some true ->
  let c1 := happen c (Acquire a) in
  let c2 := fold_left happen [Exit b; Acquire a] c1 in
  option_map at_ (nth_error (threads c1) a) = Some (Returned AttachmentRefused)
  /\ attached_thread_count c1 = MAX_ATTACHED_THREADS
  /\ peak_attached_threads c1 = peak_attached_threads c
  /\ option_map at_ (nth_error (threads c2) a) = Some (Returned (Env a))
  /\ attached_thread_count c2 = MAX_ATTACHED_THREADS.
Proof.
  intros c Hfull Ha Hb c1 c2.
  pose proof (bounded_run_in_turn n events) as Hbound. fold c in Hbound.
  pose proof (native_in_turn n events) as Hnative. fold c in Hnative.
  destruct (nth_error (threads c) a) as [ta|] eqn:Ea; [|discriminate Ha].
  destruct (nth_error (threads c) b) as [tb|] eqn:Eb; [|discriminate Hb].
  simpl in Ha, Hb. injection Ha as Ha. injection Hb as Hb.
  assert (Hab : a <> b).
  { intros ->. rewrite Ea in Eb. injection Eb as ->.
    destruct Hbound as (_ & Hrest & _). rewrite Forall_forall in Hrest.
    destruct (Hrest tb (nth_error_In _ _ Ea)) as [_ Henv]. now apply Henv. }
  assert (Hta : native_thread ta).
  { rewrite Forall_forall in Hnative. apply Hnative. eapply nth_error_In; eauto. }
  destruct Hta as [Hsucc Hta]. rewrite Ha in Hta. destruct Hta as [Hst Hoff].
  assert (Hrest_a : match at_ ta with Outside | Returned _ => True | _ => False end).
  { destruct Hbound as (_ & Hrest & _). rewrite Forall_forall in Hrest.
    now destruct (Hrest ta (nth_error_In _ _ Ea)). }
  destruct Hbound as (Hjvm & Hrest & Hcount & Hrange & Hpeak).
  (* the first call is refused *)
  assert (Hc1 : c1 = {| cached_jvm := cached_jvm c;
                        attached_thread_count := attached_thread_count c;
                        peak_attached_threads := peak_attached_threads c;
                        threads := set_thread a (move ta (Returned AttachmentRefused))
                                     (threads c) |}).
  { unfold c1. cbn [happen]. rewrite (acquire_outcome a ta c Ea Hrest_a). unfold outcome.
    rewrite Ha, Hjvm, Hst, Hfull. reflexivity. }
  (* the other thread exits *)
  set (tb' := {| tls_env := None; tls_attached := false; status := JNI_EDETACHED;
                 attach_succeeds := attach_succeeds tb; at_ := Outside |}).
  assert (Hc1b : nth_error (threads c1) b = Some tb).
  { rewrite Hc1. cbn [threads]. now rewrite nth_error_set_thread_other. }
  set (c1b := {| cached_jvm := true;
                 attached_thread_count := MAX_ATTACHED_THREADS - 1;
                 peak_attached_threads := peak_attached_threads c;
                 threads := set_thread b tb' (threads c1) |}).
  assert (Hexit : happen c1 (Exit b) = c1b).
  { cbn [happen]. unfold thread_cleanup_callback. rewrite Hc1b.
    rewrite Hc1. cbn [cached_jvm attached_thread_count peak_attached_threads threads].
    rewrite Hb, Hjvm, Hfull. unfold c1b. rewrite Hc1. reflexivity. }
  assert (Ha2 : nth_error (threads c1b) a = Some (move ta (Returned AttachmentRefused))).
  { unfold c1b. cbn [threads]. rewrite nth_error_set_thread_other by congruence.
    rewrite Hc1. cbn [threads]. now apply nth_error_set_thread with (t0 := ta). }
  assert (Hc2 : c2 = {| cached_jvm := true;
                        attached_thread_count := MAX_ATTACHED_THREADS;
                        peak_attached_threads :=
                          Z.max (peak_attached_threads c) MAX_ATTACHED_THREADS;
                        threads :=
                          set_thread a
                            {| tls_env := Some a; tls_attached := true; status := JNI_OK;
                               attach_succeeds := true; at_ := Returned (Env a) |}
                            (threads c1b) |}).
  { unfold c2. cbn [fold_left]. rewrite Hexit. cbn [happen].
    rewrite (acquire_outcome a _ c1b Ha2 I). unfold outcome.
    cbn [move tls_env status attach_succeeds].
    rewrite Ha, Hst, Hsucc. reflexivity. }
  split; [|split; [|split; [|split]]].
  - rewrite Hc1. cbn [threads]. now rewrite (nth_error_set_thread a _ _ ta Ea).
  - now rewrite Hc1.
  - now rewrite Hc1.
  - rewrite Hc2. cbn [threads]. now rewrite (nth_error_set_thread a _ _ _ Ha2).
  - now rewrite Hc2.
Qed.

(** X19 with 33 threads: 32 are attached, the last is refused, the first
    exits, the last gets in. *)
Lemma a_refused_thread_gets_in_after_an_exit_witness :
  let c := in_turn 33 (map Acquire (seq 0 32)) in
  let c1 := happen c (Acquire 32) in
  let c2 := fold_left happen [Exit 0%nat; Acquire 32] c1 in
  option_map at_ (nth_error (threads c1) 32) = Some (Returned AttachmentRefused)
  /\ attached_thread_count c1 = MAX_ATTACHED_THREADS
  /\ peak_attached_threads c1 = peak_attached_threads c
  /\ option_map at_ (nth_error (threads c2) 32) = Some (Returned (Env 32))
  /\ attached_thread_count c2 = MAX_ATTACHED_THREADS.
Proof.
  apply (a_refused_thread_gets_in_after_an_exit 33 (map Acquire (seq 0 32)) 32 0);
    vm_compute; reflexivity.
Defined.

(** X20. A thread exit releases what the cache attached, once: the exit of
    a thread lowers the count by one when the cache had attached the thread and
    leaves it otherwise; a call followed by the exit of the same thread comes
    to the same count (what the call attached, the exit released); and a second
    run of the cleanup changes nothing. *)
Theorem exit_releases_what_was_attached (n : nat) (events : list event) (id : nat) :
  let c := in_turn n events in
  let held := match nth_error (threads c) id with
              | Some t => if tls_attached t then 1 else 0
              | None => 0
              end in
  attached_thread_count (happen c (Exit id)) = attached_thread_count c - held
  /\ attached_thread_count (fold_left happen [Acquire id; Exit id] c)
     = attached_thread_count c - held
  /\ happen (happen c (Exit id)) (Exit id) = happen c (Exit id).
Proof.
  intros c held.
  pose proof (bounded_run_in_turn n events) as Hbound. fold c in Hbound.
  pose proof (native_in_turn n events) as Hnative. fold c in Hnative.
  destruct Hbound as (Hjvm & Hrest & Hcount & Hrange & Hpeak).
  assert (Hexit : forall c0 : cache,
             cached_jvm c0 = true ->
             attached_thread_count (happen c0 (Exit id))
             = attached_thread_count c0
               - match nth_error (threads c0) id with
                 | Some t => if tls_attached t then 1 else 0
                 | None => 0
                 end).
  { intros c0 Hj. cbn [happen]. unfold thread_cleanup_callback.
    destruct (nth_error (threads c0) id) as [t|]; [|lia].
    cbn [attached_thread_count]. rewrite Hj, andb_true_r.
    destruct (tls_attached t); lia. }
  split; [|split].
  - apply Hexit, Hjvm.
  - cbn [fold_left]. unfold held.
    destruct (nth_error (threads c) id) as [t|] eqn:Hn.
    + assert (Ht : at_rest t).
      { rewrite Forall_forall in Hrest. apply Hrest. eapply nth_error_In; eauto. }
      assert (Hnt : native_thread t).
      { rewrite Forall_forall in Hnative. apply Hnative. eapply nth_error_In; eauto. }
      destruct Ht as [Hat Henv]. destruct Hnt as [Hsucc Hnt].
      rewrite Hexit; cbn [happen]; rewrite (acquire_outcome id t c Hn Hat); unfold outcome.
      * destruct (tls_env t) as [env|] eqn:Eenv.
        { cbn [threads attached_thread_count].
          rewrite (nth_error_set_thread id _ _ t Hn). reflexivity. }
        destruct Hnt as [Hst Hoff]. rewrite Hjvm, Hst, Hsucc, Hoff. cbn [negb].
        destruct (attached_thread_count c >=? MAX_ATTACHED_THREADS);
          cbn [threads attached_thread_count];
          rewrite (nth_error_set_thread id _ _ t Hn); cbn [tls_attached move];
          rewrite ?Hoff; lia.
      * destruct (tls_env t) as [env|]; [exact Hjvm|].
        destruct Hnt as [Hst Hoff]. rewrite Hjvm, Hst, Hsucc. cbn [negb].
        destruct (attached_thread_count c >=? MAX_ATTACHED_THREADS); reflexivity.
    + cbn [happen]. rewrite acquire_nobody by assumption.
      unfold thread_cleanup_callback. rewrite Hn. lia.
  - cbn [happen]. destruct (nth_error (threads c) id) as [t|] eqn:Hn.
    + assert (E : thread_cleanup_callback id c
                  = {| cached_jvm := cached_jvm c;
                       attached_thread_count :=
                         if (tls_attached t && cached_jvm c)%bool
                         then attached_thread_count c - 1 else attached_thread_count c;
                       peak_attached_threads := peak_attached_threads c;
                       threads :=
                         set_thread id
                           {| tls_env := None; tls_attached := false;
                              status := if (tls_attached t && cached_jvm c)%bool
                                        then JNI_EDETACHED else status t;
                              attach_succeeds := attach_succeeds t; at_ := Outside |}
                           (threads c) |}).
      { unfold thread_cleanup_callback. now rewrite Hn. }
      rewrite E. unfold thread_cleanup_callback.
      cbn [threads cached_jvm attached_thread_count peak_attached_threads].
      rewrite (nth_error_set_thread id _ _ t Hn).
      cbn [tls_attached andb status attach_succeeds]. rewrite set_thread_set_thread.
      reflexivity.
    + assert (E : thread_cleanup_callback id c = c).
      { unfold thread_cleanup_callback. now rewrite Hn. }
      now rewrite !E.
Qed.

End AttachmentOverTime.

(** *** Calls that overlap *)

Section Interleaved.
Import AttachmentCache.

Lemma filter_length_set_thread (f : thread -> bool) id t l t0 :
  nth_error l id = Some t0 ->
  (List.length (filter f (set_thread id t l)) + (if f t0 then 1 else 0)
   = List.length (filter f l) + (if f t then 1 else 0))%nat.
Proof.
  revert id. induction l as [|x l IH]; intros [|id]; simpl; try discriminate.
  - intros [= ->]. destruct (f t0), (f t); simpl; lia.
  - intros H. specialize (IH id H). destruct (f x); simpl; lia.
Qed.

Lemma placed_mono (count count' : Z) (t : thread) :
  count <= count' -> placed count t -> placed count' t.
Proof.
  intros Hle [H1 H2]. split; [exact H1|].
  destruct (at_ t); try exact H2; lia.
Qed.

Lemma tallied_started (n : nat) : tallied (started n).
Proof.
  unfold tallied. simpl.
  assert (E : filter counted_in (repeat fresh_thread n) = []).
  { induction n; simpl; auto. }
  rewrite E. split; [reflexivity|]. split; [|lia].
  apply Forall_forall. intros t Ht. apply repeat_spec in Ht. subst t.
  split; [reflexivity | exact I].
Qed.

Ltac settle Hn :=
  match goal with
  | |- tallied {| cached_jvm := _; attached_thread_count := ?k; peak_attached_threads := _;
                threads := set_thread ?id ?t' ?l |} =>
      let Hf := fresh "Hf" in
      pose proof (filter_length_set_thread counted_in id t' l _ Hn) as Hf;
      unfold tallied;
      cbn [cached_jvm attached_thread_count peak_attached_threads threads];
      unfold counted_in in *;
      cbn [tls_attached at_ move tls_env status attach_succeeds threads] in Hf
  end.

Ltac tally_up t Hf :=
  cbn [andb] in Hf; rewrite ?andb_true_r, ?andb_false_r in Hf;
  destruct (tls_attached t); cbn [andb] in Hf; lia.

Lemma tallied_sched (c : cache) (id : nat) : tallied c -> tallied (sched c id).
Proof.
  intros (Hcount & Hall & Hpeak). unfold sched.
  destruct (nth_error (threads c) id) as [t|] eqn:Hn; [|repeat split; assumption].
  assert (Ht : placed (attached_thread_count c) t).
  { rewrite Forall_forall in Hall. apply Hall. eapply nth_error_In; eauto. }
  destruct Ht as [Henv Hat].
  assert (Hstart :
            at_ t = Outside \/ (exists r, at_ t = Returned r) ->
            tallied (let (t', c') := get_jni_env id t c in
                   {| cached_jvm := cached_jvm c';
                      attached_thread_count := attached_thread_count c';
                      peak_attached_threads := peak_attached_threads c';
                      threads := set_thread id t' (threads c') |})).
  { intros Hpos.
    assert (Hplain : match at_ t with BeforeFetchAdd _ => false | _ => true end = true).
    { destruct Hpos as [-> | [r ->]]; reflexivity. }
    assert (E : get_jni_env id t c
                = match tls_env t with
                  | Some env => (move t (Returned (Env env)), c)
                  | None =>
                      if negb (cached_jvm c) then (move t (Returned NoJavaVM), c)
                      else
                        match status t with
                        | JNI_OK =>
                            ({| tls_env := Some id; tls_attached := false; status := status t;
                                attach_succeeds := attach_succeeds t;
                                at_ := Returned (Env id) |}, c)
                        | JNI_EDETACHED =>
                            if attached_thread_count c >=? MAX_ATTACHED_THREADS
                            then (move t (Returned AttachmentRefused), c)
                            else (move t BeforeAttach, c)
                        | JNI_EVERSION => (move t (Returned AttachmentFailed), c)
                        end
                  end).
    { unfold get_jni_env. destruct Hpos as [-> | [r ->]]; reflexivity. }
    rewrite E. clear E.
    destruct (tls_env t) as [env|] eqn:Eenv.
    { settle Hn. rewrite Hplain in Hf. split; [tally_up t Hf|]. split; [|assumption].
      apply Forall_set_thread; [assumption|]. split; [cbn; congruence | exact I]. }
    specialize (Henv eq_refl).
    destruct (negb (cached_jvm c)).
    { settle Hn. rewrite Hplain in Hf. split; [tally_up t Hf|]. split; [|assumption].
      apply Forall_set_thread; [assumption|]. split; [cbn; congruence | exact I]. }
    destruct (status t).
    - settle Hn. rewrite Hplain, Henv in Hf. split; [tally_up t Hf|]. split; [|assumption].
      apply Forall_set_thread; [assumption|]. split; [reflexivity | exact I].
    - destruct (attached_thread_count c >=? MAX_ATTACHED_THREADS).
      + settle Hn. rewrite Hplain in Hf. split; [tally_up t Hf|]. split; [|assumption].
        apply Forall_set_thread; [assumption|]. split; [cbn; congruence | exact I].
      + settle Hn. rewrite Hplain in Hf. split; [tally_up t Hf|]. split; [|assumption].
        apply Forall_set_thread; [assumption|]. split; [cbn; congruence | exact Eenv].
    - settle Hn. rewrite Hplain in Hf. split; [tally_up t Hf|]. split; [|assumption].
      apply Forall_set_thread; [assumption|]. split; [cbn; congruence | exact I]. }
  destruct (at_ t) as [| |env|env cc|env cc cp|r] eqn:Eat.
  - apply Hstart. now left.
  - (* AttachCurrentThread *)
    unfold get_jni_env. rewrite Eat.
    specialize (Henv Hat).
    destruct (attach_succeeds t).
    + settle Hn. rewrite Eat, Henv in Hf. split; [tally_up t Hf|]. split; [|assumption].
      apply Forall_set_thread; [assumption|]. split; [discriminate | reflexivity].
    + settle Hn. rewrite Eat, Henv in Hf. split; [tally_up t Hf|]. split; [|assumption].
      apply Forall_set_thread; [assumption|]. split; [exact (fun _ => Henv) | exact I].
  - (* fetch_add *)
    unfold get_jni_env. rewrite Eat.
    settle Hn. rewrite Eat, Hat in Hf. split; [tally_up t Hf|]. split; [|lia].
    apply Forall_set_thread.
    + eapply Forall_impl; [|exact Hall]. intros t0. apply placed_mono. lia.
    + split; [exact Henv | cbn; lia].
  - (* the load of the peak *)
    unfold get_jni_env. rewrite Eat.
    settle Hn. rewrite Eat in Hf. split; [tally_up t Hf|]. split; [|assumption].
    apply Forall_set_thread; [assumption|]. split; [exact Henv | exact Hat].
  - (* the exchange *)
    unfold get_jni_env. rewrite Eat.
    destruct (cc >? cp).
    + destruct (peak_attached_threads c =? cp).
      * settle Hn. rewrite Eat in Hf. split; [tally_up t Hf|]. split; [|exact Hat].
        apply Forall_set_thread; [assumption|]. split; [exact Henv | exact I].
      * settle Hn. rewrite Eat in Hf. split; [tally_up t Hf|]. split; [|assumption].
        apply Forall_set_thread; [assumption|]. split; [exact Henv | exact Hat].
    + settle Hn. rewrite Eat in Hf. split; [tally_up t Hf|]. split; [|assumption].
      apply Forall_set_thread; [assumption|]. split; [exact Henv | exact I].
  - apply Hstart. right. eauto.
Qed.

Lemma length_set_thread id t l : List.length (set_thread id t l) = List.length l.
Proof. revert id. induction l as [|x l IH]; intros [|id]; simpl; auto. Qed.

Lemma length_threads_sched (c : cache) (id : nat) :
  List.length (threads (sched c id)) = List.length (threads c).
Proof.
  unfold sched. destruct (nth_error (threads c) id) as [t|]; [|reflexivity].
  assert (E : threads (snd (get_jni_env id t c)) = threads c).
  { unfold get_jni_env.
    destruct (at_ t) as [| |env|env cc|env cc cp|r];
      try (destruct (tls_env t); [reflexivity|];
           destruct (negb (cached_jvm c)); [reflexivity|];
           destruct (status t); try reflexivity;
           destruct (attached_thread_count c >=? MAX_ATTACHED_THREADS); reflexivity);
      try (destruct (attach_succeeds t); reflexivity);
      try reflexivity.
    destruct (cc >? cp); [destruct (peak_attached_threads c =? cp)|]; reflexivity. }
  destruct (get_jni_env id t c) as [t' c']. cbn [threads snd] in *.
  now rewrite length_set_thread, E.
Qed.

(** X21. The count under interleaving: however the steps of the threads
    interleave (no thread exiting), [attached_thread_count] is the number of
    threads the cache attached whose [fetch_add] has run, so no increment is
    lost; it is at most the number of threads; and the peak is never above the
    count. *)
Theorem the_count_is_exact_in_any_interleaving (n : nat) (schedule : list nat) :
  let c := run (started n) schedule in
  attached_thread_count c = Z.of_nat (List.length (filter counted_in (threads c)))
  /\ 0 <= attached_thread_count c <= Z.of_nat n
  /\ peak_attached_threads c <= attached_thread_count c.
Proof.
  intros c.
  assert (H : tallied c /\ List.length (threads c) = n).
  { unfold c, run.
    assert (H0 : tallied (started n) /\ List.length (threads (started n)) = n).
    { split; [apply tallied_started | apply repeat_length]. }
    revert H0. generalize (started n).
    induction schedule as [|id schedule IH]; intros c0 [He Hl]; [now split|].
    apply IH. split; [now apply tallied_sched | now rewrite length_threads_sched]. }
  destruct H as [(Hcount & _ & Hpeak) Hlen].
  split; [exact Hcount|]. split; [|exact Hpeak].
  pose proof (filter_length_le counted_in (threads c)). lia.
Qed.

End Interleaved.

(** ** Copying the project *)

Lemma launch_cases (throws : bool) (d : Assets.device) :
  let time := match Assets.packageInfo_lastUpdateTime d with Some t => t | None => 1 end in
  let saved := match Assets.stored d with Some v => v | None => 0 end in
  Assets.launch throws d
  = if time =? saved then (d, Assets.Completed)
    else if throws then (d, Assets.CompletedExceptionally)
    else ({| Assets.stored := Some time;
             Assets.packageInfo_lastUpdateTime := Assets.packageInfo_lastUpdateTime d;
             Assets.copies := S (Assets.copies d) |}, Assets.Completed).
Proof.
  intros time saved. unfold Assets.launch, Assets.asyncInit, Assets.wasAPKUpdated.
  cbn [Assets.lastUpdateTime Assets.new_module]. fold time saved.
  destruct (time =? saved); cbn [negb]; [reflexivity|].
  unfold Assets.copyNodeJsAssets. destruct throws; reflexivity.
Qed.

(** X22. The project is copied once per update: a launch whose copy throws
    leaves the stored time and the number of copies as they were; after a
    launch whose copy completed, the next launch copies nothing and completes,
    whether its copy would throw or not; and a launch copies the project
    exactly when the update time of the package (1 when the package is not
    found) differs from the stored one (0 when none is stored). *)
Theorem the_project_is_copied_once_per_update (d : Assets.device) (again : bool) :
  fst (Assets.launch true d) = d
  /\ (let d1 := fst (Assets.launch false d) in
      snd (Assets.launch false d) = Assets.Completed
      /\ Assets.launch again d1 = (d1, Assets.Completed))
  /\ Assets.copies (fst (Assets.launch false d))
     = (Assets.copies d
        + if (match Assets.packageInfo_lastUpdateTime d with Some t => t | None => 1 end
              =? match Assets.stored d with Some v => v | None => 0 end)%Z
          then 0 else 1)%nat.
Proof.
  rewrite !launch_cases.
  set (time := match Assets.packageInfo_lastUpdateTime d with Some t => t | None => 1 end).
  set (saved := match Assets.stored d with Some v => v | None => 0 end).
  destruct (time =? saved) eqn:E; cbn [fst snd].
  - split; [reflexivity|]. split; [|lia]. split; [reflexivity|].
    rewrite launch_cases. fold time saved. now rewrite E.
  - split; [reflexivity|]. split; [|cbn [Assets.copies]; lia]. split; [reflexivity|].
    rewrite launch_cases. cbn [Assets.packageInfo_lastUpdateTime Assets.stored].
    fold time. now rewrite Z.eqb_refl.
Qed.
